(** * SimpleConvertHHI: row transformation, batch submission, paginated
      fetch and duplicate detection

    A shallow embedding of the server code of the repository
    (server.js and its sibling revisions) and the properties of its
    specification.

    Conventions of the embedding.
    - A JavaScript string is a [string]: a sequence of code units below
      0x100 (the Latin-1 range).  Code units above that range are outside
      the model; the only place where the code could create one from a
      Latin-1 input is a backslash-u escape inside [JSON.parse], which the
      model reports as a syntax error.
    - A JavaScript number is a double: [JNum m e] is the finite double whose
      value is the decimal [m * 10^e], [JInf] an infinity.  A numeral is
      rounded to the nearest double, ties to even ([JsNumber]).  The two
      zeros are one value, [JNum 0 0]: the code neither divides by a number
      nor prints one.  [NaN] is never stored: [parseInt] returns it as
      [None].
    - A JavaScript object is the list of its own enumerable properties in
      enumeration order ([jsobj]): the keys that are array indices first, in
      ascending order, then the other keys in the order of their creation.
      The payload under construction is a finite map of own properties
      together with its prototype.
    - A [try]/[catch] is a match on a [result]; a thrown value is the error
      object.
    - The remote service and the clock are a state-passing world with a
      trace of the calls made; the file system (the removal of the uploaded
      file) is not modelled. *)

From Stdlib Require Import ZArith Ascii String List Bool Lia Sorted.
From stdpp Require Import base option list strings gmap pretty.
Import ListNotations.
Local Open Scope string_scope.
Local Open Scope Z_scope.

(** ** JavaScript strings *)

Module JsString.

(** [WhiteSpace] and [LineTerminator] code units below 0x100: what [\s]
    matches and what [trim] removes. *)
Definition isSpace (c : ascii) : bool :=
  match N_of_ascii c with
  | 9%N | 10%N | 11%N | 12%N | 13%N | 32%N | 160%N => true
  | _ => false
  end.

Definition isDigit (c : ascii) : bool :=
  let n := N_of_ascii c in (48 <=? n)%N && (n <=? 57)%N.

Definition digitVal (c : ascii) : Z := Z.of_N (N_of_ascii c) - 48.

Fixpoint trimStart (s : string) : string :=
  match s with
  | String c r => if isSpace c then trimStart r else s
  | EmptyString => EmptyString
  end.

Fixpoint trimEnd (s : string) : string :=
  match s with
  | String c r =>
      match trimEnd r with
      | EmptyString => if isSpace c then EmptyString else String c EmptyString
      | r' => String c r'
      end
  | EmptyString => EmptyString
  end.

(** [s.trim()] *)
Definition trim (s : string) : string := trimEnd (trimStart s).

(** [s.split(sep)] for a one-character separator: never empty, the empty
    string splits into one empty piece. *)
Fixpoint split (sep : ascii) (s : string) : list string :=
  match s with
  | EmptyString => [EmptyString]
  | String c r =>
      if Ascii.eqb c sep then EmptyString :: split sep r
      else match split sep r with
           | h :: t => String c h :: t
           | [] => [String c EmptyString]
           end
  end.

Definition lowerChar (c : ascii) : ascii :=
  let n := N_of_ascii c in
  if ((65 <=? n)%N && (n <=? 90)%N)
     || ((192 <=? n)%N && (n <=? 222)%N && negb (n =? 215)%N)
  then ascii_of_N (n + 32) else c.

(** [s.toLowerCase()] *)
Fixpoint toLowerCase (s : string) : string :=
  match s with
  | String c r => String (lowerChar c) (toLowerCase r)
  | EmptyString => EmptyString
  end.

Fixpoint repeatChar (n : nat) (c : ascii) : string :=
  match n with
  | O => EmptyString
  | S n => String c (repeatChar n c)
  end.

(** [s.padStart(n, c)] for a one-character filler. *)
Definition padStart (n : nat) (c : ascii) (s : string) : string :=
  repeatChar (n - String.length s) c ++ s.

(** [s.replace(/c/g, by)] for a pattern that is one literal character. *)
Fixpoint replaceChar (c : ascii) (by_ : string) (s : string) : string :=
  match s with
  | String d r =>
      if Ascii.eqb d c then by_ ++ replaceChar c by_ r
      else String d (replaceChar c by_ r)
  | EmptyString => EmptyString
  end.

(** Removes the last character when it is [c]. *)
Fixpoint dropLast (c : ascii) (s : string) : string :=
  match s with
  | EmptyString => EmptyString
  | String d EmptyString => if Ascii.eqb d c then EmptyString else s
  | String d r => String d (dropLast c r)
  end.

(** Truthiness of a string: non-empty. *)
Definition nonEmpty (s : string) : bool :=
  match s with EmptyString => false | _ => true end.

(** The value of a text of decimal digits, [None] for any other text. *)
Fixpoint numeral (acc : N) (s : string) : option N :=
  match s with
  | String c r =>
      if isDigit c then numeral (acc * 10 + (N_of_ascii c - 48)) r else None
  | EmptyString => Some acc
  end.

(** The array index that a property key denotes: the key is the canonical
    numeral, without a leading zero, of an integer from 0 to 2^32 - 2. *)
Definition arrayIndex (k : string) : option N :=
  match k with
  | EmptyString => None
  | String c r =>
      if Ascii.eqb c "0" && nonEmpty r then None
      else
        match numeral 0 k with
        | Some n => if (n <=? 4294967294)%N then Some n else None
        | None => None
        end
  end.

End JsString.

(** ** JavaScript values *)

#[local] Set Warnings "-register-all".

Inductive jsval : Type :=
| JUndef
| JNull
| JBool (b : bool)
| JNum (m e : Z)
| JInf (negative : bool)
| JStr (s : string)
| JArr (items : list jsval)
| JObj (props : list (string * jsval)).

Abbreviation jsobj := (list (string * jsval)).

Module JsValue.

(** [ToBoolean] *)
Definition truthy (v : jsval) : bool :=
  match v with
  | JUndef | JNull => false
  | JBool b => b
  | JNum m _ => negb (m =? 0)
  | JInf _ => true
  | JStr s => JsString.nonEmpty s
  | JArr _ | JObj _ => true
  end.

(** [a || b] *)
Definition jsOr (a b : jsval) : jsval := if truthy a then a else b.

(** Own property lookup in a property list; [undefined] when absent. *)
Fixpoint objGet (o : jsobj) (k : string) : jsval :=
  match o with
  | [] => JUndef
  | (k', v) :: r => if String.eqb k' k then v else objGet r k
  end.

Definition hasKey (o : jsobj) (k : string) : bool :=
  existsb (fun kv => String.eqb (fst kv) k) o.

(** The new value of a key that the object has; the key keeps its place. *)
Fixpoint overwrite (o : jsobj) (k : string) (v : jsval) : jsobj :=
  match o with
  | [] => []
  | (k', v') :: r =>
      if String.eqb k' k then (k', v) :: r else (k', v') :: overwrite r k v
  end.

(** A new key that is the array index [n]: after the smaller indices and
    before everything else. *)
Fixpoint insertIndex (o : jsobj) (n : N) (k : string) (v : jsval) : jsobj :=
  match o with
  | [] => [(k, v)]
  | (k', v') :: r =>
      match JsString.arrayIndex k' with
      | Some n' =>
          if (n' <? n)%N then (k', v') :: insertIndex r n k v else (k, v) :: o
      | None => (k, v) :: o
      end
  end.

(** [CreateDataProperty], and [o[k] = v] on a plain object for a key other
    than [__proto__]: a key that the object has keeps its place; a new key
    goes among the array indices when it is one and to the end
    otherwise. *)
Definition objDefine (o : jsobj) (k : string) (v : jsval) : jsobj :=
  if hasKey o k then overwrite o k v
  else
    match JsString.arrayIndex k with
    | Some n => insertIndex o n k v
    | None => (o ++ [(k, v)])%list
    end.

(** [v.k] where [v] is not [null] or [undefined], and [v?.k] in general,
    for the property names the code reads (none of them is an index or
    [length]). *)
Definition prop (v : jsval) (k : string) : jsval :=
  match v with
  | JObj o => objGet o k
  | _ => JUndef
  end.

End JsValue.

(** ** JavaScript numbers *)

Module JsNumber.

(** [2^k], and 1 for a negative [k]. *)
Definition pow2 (k : Z) : Z := 2 ^ Z.max 0 k.

(** The [k] with [2^k <= p / q < 2^(k+1)], for positive [p] and [q]. *)
Definition binaryExponent (p q : Z) : Z :=
  let k := Z.log2 p - Z.log2 q in
  if p * pow2 (- k) <? q * pow2 k then k - 1 else k.

(** The integer nearest to [num / den], the even one of two that are
    equally near. *)
Definition roundHalfEven (num den : Z) : Z :=
  let n := num / den in
  let r := num mod den in
  if (den <? 2 * r) || ((den =? 2 * r) && Z.odd n) then n + 1 else n.

(** The double nearest to [p / q] as [m * 2^ex]: 53 bits of mantissa, and
    no exponent below that of the subnormal numbers. *)
Definition nearest (p q : Z) : Z * Z :=
  let ex := Z.max (binaryExponent p q - 52) (-1074) in
  (roundHalfEven (p * pow2 (- ex)) (q * pow2 ex), ex).

(** [m / 2^e] in lowest terms. *)
Fixpoint lowest (m : positive) (e : nat) : positive * nat :=
  match e, m with
  | S e', xO m' => lowest m' e'
  | _, _ => (m, e)
  end.

(** The number value of the rational [p / q], with [0 <= p] and [0 < q],
    under the sign [negative]: what is beyond the largest double is an
    infinity, an integer comes out as [JNum z 0]. *)
Definition ofRational (negative : bool) (p q : Z) : jsval :=
  let sg := if negative then -1 else 1 in
  let '(m, ex) := nearest p q in
  if 0 <=? ex then
    if 2 ^ 1024 <=? m * 2 ^ ex then JInf negative
    else JNum (sg * (m * 2 ^ ex)) 0
  else
    match m with
    | Zpos mp =>
        let '(m', e') := lowest mp (Z.to_nat (- ex)) in
        JNum (sg * (Zpos m' * 5 ^ Z.of_nat e')) (- Z.of_nat e')
    | _ => JNum 0 0
    end.

(** The number value of the decimal [m * 10^e], [0 <= m]. *)
Definition ofDecimal (negative : bool) (m e : Z) : jsval :=
  if m =? 0 then JNum 0 0
  else if 0 <=? e then ofRational negative (m * 10 ^ e) 1
  else ofRational negative m (10 ^ (- e)).

End JsNumber.

(** ** Results of code that may throw *)

Inductive result (A : Type) : Type :=
| Ok (a : A)
| Throw (error : jsobj).
Arguments Ok {A} a.
Arguments Throw {A} error.

Definition bind {A B} (r : result A) (k : A -> result B) : result B :=
  match r with
  | Ok a => k a
  | Throw e => Throw e
  end.

Notation "'let*' x ':=' r 'in' k" := (bind r (fun x => k))
  (at level 10, x name, r at level 100, k at level 200).

(** [new Error(msg)] and the engine's [TypeError]s carry a [message]. *)
Definition mkError (msg : string) : jsobj := [("message", JStr msg)].

(** ** The text rewriting of the [meta] field and [JSON.parse] *)

Module Json.
Import JsString JsValue.

Definition dq : ascii := ascii_of_N 34.
Definition backslash : ascii := ascii_of_N 92.

Definition str1 (c : ascii) : string := String c EmptyString.
Definition str2 (c d : ascii) : string := String c (String d EmptyString).
Definition str3 (c d e : ascii) : string := String c (str2 d e).

(** The third replacement, of a comma and the white space after it by a
    quoted comma: [skipping] holds while that white space is consumed. *)
Fixpoint replaceCommaSpaces (skipping : bool) (s : string) : string :=
  match s with
  | EmptyString => EmptyString
  | String c r =>
      if skipping && isSpace c then replaceCommaSpaces true r
      else if Ascii.eqb c "," then str3 dq "," dq ++ replaceCommaSpaces true r
      else String c (replaceCommaSpaces false r)
  end.

(** The fourth replacement, of white space and a closing brace by a quote
    and the brace: [pending] is the run of white space read so far, dropped
    when a closing brace ends it and kept otherwise. *)
Fixpoint replaceSpacesBrace (pending : string) (s : string) : string :=
  match s with
  | EmptyString => pending
  | String c r =>
      if isSpace c then replaceSpacesBrace (pending ++ str1 c) r
      else if Ascii.eqb c "}" then str2 dq "}" ++ replaceSpacesBrace EmptyString r
      else pending ++ String c (replaceSpacesBrace EmptyString r)
  end.

(** The fifth replacement, of two quotes separated by white space by a
    quoted colon: [st] is [Some ws] after a quote followed by the white
    space [ws]. *)
Fixpoint replaceQuoteGap (st : option string) (s : string) : string :=
  match s with
  | EmptyString =>
      match st with
      | Some ws => String dq ws
      | None => EmptyString
      end
  | String c r =>
      match st with
      | None =>
          if Ascii.eqb c dq then replaceQuoteGap (Some EmptyString) r
          else String c (replaceQuoteGap None r)
      | Some ws =>
          if isSpace c then replaceQuoteGap (Some (ws ++ str1 c)) r
          else if Ascii.eqb c dq then
            if nonEmpty ws then str3 dq ":" dq ++ replaceQuoteGap None r
            else String dq (replaceQuoteGap (Some EmptyString) r)
          else String dq (ws ++ String c (replaceQuoteGap None r))
      end
  end.

(** The five chained replacements that turn [{gender: Male}] into JSON
    text. *)
Definition toJsonText (metaStr : string) : string :=
  replaceQuoteGap None
    (replaceSpacesBrace EmptyString
       (replaceCommaSpaces false
          (replaceChar ":" (str3 dq ":" dq)
             (replaceChar "{" (str2 "{" dq) metaStr)))).

(** *** JSON.parse *)

Definition isJsonSpace (c : ascii) : bool :=
  match N_of_ascii c with
  | 9%N | 10%N | 13%N | 32%N => true
  | _ => false
  end.

Fixpoint skipWs (s : string) : string :=
  match s with
  | String c r => if isJsonSpace c then skipWs r else s
  | EmptyString => EmptyString
  end.

Definition hexVal (c : ascii) : option N :=
  let n := N_of_ascii c in
  if (48 <=? n)%N && (n <=? 57)%N then Some (n - 48)%N
  else if (65 <=? n)%N && (n <=? 70)%N then Some (n - 55)%N
  else if (97 <=? n)%N && (n <=? 102)%N then Some (n - 87)%N
  else None.

Definition hex4 (a b c d : ascii) : option N :=
  match hexVal a, hexVal b, hexVal c, hexVal d with
  | Some x, Some y, Some z, Some w => Some (((x * 16 + y) * 16 + z) * 16 + w)%N
  | _, _, _, _ => None
  end.

Definition escapeChar (c : ascii) : option ascii :=
  if Ascii.eqb c dq then Some dq
  else if Ascii.eqb c backslash then Some backslash
  else if Ascii.eqb c "/" then Some "/"%char
  else if Ascii.eqb c "b" then Some (ascii_of_N 8)
  else if Ascii.eqb c "f" then Some (ascii_of_N 12)
  else if Ascii.eqb c "n" then Some (ascii_of_N 10)
  else if Ascii.eqb c "r" then Some (ascii_of_N 13)
  else if Ascii.eqb c "t" then Some (ascii_of_N 9)
  else None.

(** The characters of a JSON string after its opening quote, and the text
    after its closing quote. *)
Fixpoint parseStringBody (s : string) : option (string * string) :=
  match s with
  | EmptyString => None
  | String c r =>
      if Ascii.eqb c dq then Some (EmptyString, r)
      else if Ascii.eqb c backslash then
        match r with
        | String e r1 =>
            if Ascii.eqb e "u" then
              match r1 with
              | String h1 (String h2 (String h3 (String h4 r2))) =>
                  match hex4 h1 h2 h3 h4 with
                  | Some n =>
                      if (n <? 256)%N then
                        match parseStringBody r2 with
                        | Some (body, rest) => Some (String (ascii_of_N n) body, rest)
                        | None => None
                        end
                      else None
                  | None => None
                  end
              | _ => None
              end
            else
              match escapeChar e with
              | Some x =>
                  match parseStringBody r1 with
                  | Some (body, rest) => Some (String x body, rest)
                  | None => None
                  end
              | None => None
              end
        | EmptyString => None
        end
      else if (N_of_ascii c <? 32)%N then None
      else
        match parseStringBody r with
        | Some (body, rest) => Some (String c body, rest)
        | None => None
        end
  end.

(** The longest prefix of digits and what follows it. *)
Fixpoint spanDigits (s : string) : string * string :=
  match s with
  | String c r =>
      if isDigit c then let '(ds, rest) := spanDigits r in (String c ds, rest)
      else (EmptyString, s)
  | EmptyString => (EmptyString, EmptyString)
  end.

Fixpoint digitsValue (acc : Z) (ds : string) : Z :=
  match ds with
  | String c r => digitsValue (acc * 10 + digitVal c) r
  | EmptyString => acc
  end.

Definition parseSign (s : string) : bool * string :=
  match s with
  | String c r =>
      if Ascii.eqb c "-" then (true, r) else (false, s)
  | EmptyString => (false, s)
  end.

Definition parseExpSign (s : string) : Z * string :=
  match s with
  | String c r =>
      if Ascii.eqb c "-" then (-1, r)
      else if Ascii.eqb c "+" then (1, r) else (1, s)
  | EmptyString => (1, s)
  end.

Definition parseFraction (s : string) : option (string * string) :=
  match s with
  | String c r =>
      if Ascii.eqb c "." then
        let '(fs, rest) := spanDigits r in
        if nonEmpty fs then Some (fs, rest) else None
      else Some (EmptyString, s)
  | EmptyString => Some (EmptyString, s)
  end.

Definition parseExponent (s : string) : option (Z * string) :=
  match s with
  | String c r =>
      if Ascii.eqb c "e" || Ascii.eqb c "E" then
        let '(sg, r1) := parseExpSign r in
        let '(es, rest) := spanDigits r1 in
        if nonEmpty es then Some (sg * digitsValue 0 es, rest) else None
      else Some (0, s)
  | EmptyString => Some (0, s)
  end.

(** A JSON number: no leading zeros, optional fraction and exponent. *)
Definition parseNumber (s : string) : option (jsval * string) :=
  let '(sg, r0) := parseSign s in
  let '(ds, r1) := spanDigits r0 in
  match ds with
  | EmptyString => None
  | String d more =>
      if Ascii.eqb d "0" && nonEmpty more then None
      else
        match parseFraction r1 with
        | Some (fs, r2) =>
            match parseExponent r2 with
            | Some (ex, r3) =>
                Some (JsNumber.ofDecimal sg (digitsValue 0 (ds ++ fs))
                        (ex - Z.of_nat (String.length fs)), r3)
            | None => None
            end
        | None => None
        end
  end.

Fixpoint stripPrefix (p s : string) : option string :=
  match p, s with
  | EmptyString, _ => Some s
  | String c p', String d s' => if Ascii.eqb c d then stripPrefix p' s' else None
  | String _ _, EmptyString => None
  end.

Definition parseLiteral (s : string) : option (jsval * string) :=
  match stripPrefix "true" s with
  | Some r => Some (JBool true, r)
  | None =>
      match stripPrefix "false" s with
      | Some r => Some (JBool false, r)
      | None =>
          match stripPrefix "null" s with
          | Some r => Some (JNull, r)
          | None => None
          end
      end
  end.

(** Values, array elements and object members, by recursion on [fuel]: a
    call on the text [s] needs at most [2 * String.length s + 2] of it. *)
Fixpoint parseValue (fuel : nat) (s : string) : option (jsval * string) :=
  match fuel with
  | O => None
  | S fuel =>
      match s with
      | EmptyString => None
      | String c r =>
          if Ascii.eqb c "{" then
            match skipWs r with
            | String d r' =>
                if Ascii.eqb d "}" then Some (JObj [], r')
                else parseMembers fuel (String d r') []
            | EmptyString => None
            end
          else if Ascii.eqb c "[" then
            match skipWs r with
            | String d r' =>
                if Ascii.eqb d "]" then Some (JArr [], r')
                else parseElements fuel (String d r') []
            | EmptyString => None
            end
          else if Ascii.eqb c dq then
            match parseStringBody r with
            | Some (str, r') => Some (JStr str, r')
            | None => None
            end
          else if Ascii.eqb c "-" || isDigit c then parseNumber s
          else parseLiteral s
      end
  end
with parseElements (fuel : nat) (s : string) (acc : list jsval)
  : option (jsval * string) :=
  match fuel with
  | O => None
  | S fuel =>
      match parseValue fuel s with
      | Some (v, r) =>
          match skipWs r with
          | String d r' =>
              if Ascii.eqb d "," then parseElements fuel (skipWs r') (acc ++ [v])
              else if Ascii.eqb d "]" then Some (JArr (acc ++ [v]), r')
              else None
          | EmptyString => None
          end
      | None => None
      end
  end
with parseMembers (fuel : nat) (s : string) (acc : jsobj)
  : option (jsval * string) :=
  match fuel with
  | O => None
  | S fuel =>
      match s with
      | String q r0 =>
          if Ascii.eqb q dq then
            match parseStringBody r0 with
            | Some (k, r1) =>
                match skipWs r1 with
                | String d r2 =>
                    if Ascii.eqb d ":" then
                      match parseValue fuel (skipWs r2) with
                      | Some (v, r3) =>
                          match skipWs r3 with
                          | String d' r4 =>
                              if Ascii.eqb d' "," then
                                parseMembers fuel (skipWs r4) (objDefine acc k v)
                              else if Ascii.eqb d' "}" then
                                Some (JObj (objDefine acc k v), r4)
                              else None
                          | EmptyString => None
                          end
                      | None => None
                      end
                    else None
                | EmptyString => None
                end
            | None => None
            end
          else None
      | EmptyString => None
      end
  end.

(** [JSON.parse(text)]; [None] is the [SyntaxError]. *)
Definition JSON_parse (text : string) : option jsval :=
  match parseValue (2 * String.length text + 2) (skipWs text) with
  | Some (v, r) =>
      match skipWs r with
      | EmptyString => Some v
      | String _ _ => None
      end
  | None => None
  end.

(** [parseInt(s, 10)]: the number value of the digits after the leading
    white space and the sign; [None] is [NaN]. *)
Definition parseInt (s : string) : option jsval :=
  let '(negative, r) :=
    match trimStart s with
    | String c r' =>
        if Ascii.eqb c "-" then (true, r')
        else if Ascii.eqb c "+" then (false, r') else (false, String c r')
    | EmptyString => (false, EmptyString)
    end in
  let '(ds, _) := spanDigits r in
  if nonEmpty ds then Some (JsNumber.ofRational negative (digitsValue 0 ds) 1)
  else None.

End Json.

(** ** RowTransformer: [mapRowToPayload] *)

Module Transform.
Import JsString JsValue Json.

(** The process environment read at start-up; [None] is an unset
    variable. *)
Record Env : Type := {
  API_KEY : option string;
  COMPANY_UUID : option string;
  REFERRED_FROM_COMPANY_UUID : option string;
  TAGS : option string;
  COUNSEL : option string;
  FEESPLIT : option string;
  TOTALFEE : option string
}.

(** Truthiness of an environment value. *)
Definition isSet (v : option string) : bool :=
  match v with
  | Some s => nonEmpty s
  | None => false
  end.

(** The payload object: its own properties and its prototype, [JUndef]
    standing for the initial [Object.prototype]. *)
Record Payload : Type := {
  own : gmap string jsval;
  proto : jsval
}.

Definition emptyPayload : Payload := {| own := empty; proto := JUndef |}.

(** [payload[key] = v]: an assignment to [__proto__] replaces the prototype
    when [v] is an object or [null] and does nothing otherwise. *)
Definition payloadSet (p : Payload) (key : string) (v : jsval) : Payload :=
  if String.eqb key "__proto__" then
    match v with
    | JObj _ | JArr _ | JNull => {| own := own p; proto := v |}
    | _ => p
    end
  else {| own := <[key := v]> (own p); proto := proto p |}.

(** [payload.key] for [litigation_id] and [status_id]: own property first,
    then the prototype. *)
Definition payloadGet (p : Payload) (key : string) : jsval :=
  match own p !! key with
  | Some v => v
  | None => prop (proto p) key
  end.

Definition arrayFields : list string :=
  ["products"; "conditions"; "information"; "tags"].
Definition intArrayFields : list string := ["conditions"; "information"].
Definition dateFields : list string :=
  ["birthday_injured"; "birthday"; "date_of_accident"; "incident_date"].

(** [fields.includes(key)] *)
Definition includes (fields : list string) (key : string) : bool :=
  existsb (String.eqb key) fields.

(** The [TypeError] of calling a string method on a value that has none,
    in the wording of V8. *)
Definition noMethod (expr meth : string) (v : jsval) : jsobj :=
  mkError
    match v with
    | JNull => "Cannot read properties of null (reading '" ++ meth ++ "')"
    | JUndef => "Cannot read properties of undefined (reading '" ++ meth ++ "')"
    | _ => expr ++ "." ++ meth ++ " is not a function"
    end.

Definition formatDate (dateStr : jsval) : result jsval :=
  if negb (truthy dateStr) then Ok dateStr
  else
    match dateStr with
    | JStr s =>
        if negb (nonEmpty (trim s)) then Ok dateStr
        else
          match split "/" s with
          | [p0; p1; p2] =>
              let month := padStart 2 "0" p0 in
              let day := padStart 2 "0" p1 in
              let year := p2 in
              Ok (JStr (year ++ "-" ++ month ++ "-" ++ day))
          | _ => Ok dateStr
          end
    | _ => Throw (noMethod "dateStr" "trim" dateStr)
    end.

(** [str.replace(/^\[|\]$/g, '').trim()] *)
Definition cleanArrayValue (str : string) : string :=
  let s1 := match str with
            | String c r => if Ascii.eqb c "[" then r else str
            | EmptyString => str
            end in
  trim (dropLast "]" s1).

(** The first strategy for [meta]: rewrite to JSON text and parse.  [None]
    is any exception raised inside the [try]. *)
Definition strategyA (v : jsval) : option jsval :=
  match v with
  | JStr s => JSON_parse (toJsonText (trim s))
  | _ => None
  end.

Definition removeBraces (s : string) : string :=
  replaceChar "}" EmptyString (replaceChar "{" EmptyString s).

(** The reducer of the second strategy: [obj[k] = v] when both sides of the
    pair are non-empty; the assignment of a string to [__proto__] is
    ignored by the engine. *)
Definition addPair (obj : jsobj) (pair : string) : jsobj :=
  match map trim (split ":" pair) with
  | k :: v :: _ =>
      if nonEmpty k && nonEmpty v then
        if String.eqb k "__proto__" then obj else objDefine obj k (JStr v)
      else obj
  | _ => obj
  end.

(** The second strategy for [meta]. *)
Definition strategyB (v : jsval) : option jsval :=
  match v with
  | JStr s => Some (JObj (fold_left addPair (split "," (trim (removeBraces s))) []))
  | _ => None
  end.

Definition metaValue (v : jsval) : jsval :=
  match strategyA v with
  | Some parsed => parsed
  | None =>
      match strategyB v with
      | Some cleanedMeta => cleanedMeta
      | None => v
      end
  end.

(** [cleanedArray.map(item => parseInt(item, 10)).filter(num => !isNaN(num))] *)
Fixpoint parseInts (items : list string) : list jsval :=
  match items with
  | [] => []
  | item :: rest =>
      match parseInt item with
      | Some num => num :: parseInts rest
      | None => parseInts rest
      end
  end.

Definition arrayValue (key : string) (v : jsval) : result jsval :=
  match v with
  | JStr s =>
      let cleanedArray := map cleanArrayValue (split "," s) in
      if includes intArrayFields key then Ok (JArr (parseInts cleanedArray))
      else Ok (JArr (map JStr cleanedArray))
  | _ => Throw (noMethod "row[key]" "split" v)
  end.

(** The value stored for one non-empty field of the row. *)
Definition fieldValue (key : string) (v : jsval) : result jsval :=
  if String.eqb key "meta" then Ok (metaValue v)
  else if includes arrayFields key then arrayValue key v
  else if includes dateFields key then formatDate v
  else Ok v.

(** [row[key] === ''] *)
Definition isEmptyString (v : jsval) : bool :=
  match v with
  | JStr EmptyString => true
  | _ => false
  end.

(** The [for (const key in row)] loop; [row] lists the properties in
    enumeration order. *)
Fixpoint forIn (row : jsobj) (payload : Payload) : result Payload :=
  match row with
  | [] => Ok payload
  | (key, v) :: rest =>
      if isEmptyString v then forIn rest payload
      else
        let* x := fieldValue key v in
        forIn rest (payloadSet payload key x)
  end.

Definition override (name : string) (value : option string)
    (wrap : string -> jsval) (p : Payload) : Payload :=
  match value with
  | Some s => if nonEmpty s then payloadSet p name (wrap s) else p
  | None => p
  end.

(** The environment values that always replace the row's. *)
Definition applyOverrides (env : Env) (p : Payload) : Payload :=
  let p := override "company_uuid" (COMPANY_UUID env) JStr p in
  let p := override "referred_from_company_uuid"
             (REFERRED_FROM_COMPANY_UUID env) JStr p in
  let p := override "tags" (TAGS env) (fun s => JArr [JStr s]) p in
  let p := override "counsel" (COUNSEL env) JStr p in
  let p := override "feesplit" (FEESPLIT env) JStr p in
  override "totalfee" (TOTALFEE env) JStr p.

Definition mapRowToPayload (env : Env) (row : jsobj) : result Payload :=
  let* payload := forIn row emptyPayload in
  Ok (applyOverrides env payload).

(** A RawRow of the specification: every value is a string. *)
Definition isString (v : jsval) : bool :=
  match v with
  | JStr _ => true
  | _ => false
  end.

Definition allStrings (row : jsobj) : bool := forallb (fun kv => isString (snd kv)) row.

(** Whether the environment replaces the field [key]. *)
Definition overridden (env : Env) (key : string) : bool :=
  (String.eqb key "company_uuid" && isSet (COMPANY_UUID env))
  || (String.eqb key "referred_from_company_uuid"
      && isSet (REFERRED_FROM_COMPANY_UUID env))
  || (String.eqb key "tags" && isSet (TAGS env))
  || (String.eqb key "counsel" && isSet (COUNSEL env))
  || (String.eqb key "feesplit" && isSet (FEESPLIT env))
  || (String.eqb key "totalfee" && isSet (TOTALFEE env)).



Fixpoint allDigits (t : string) : bool :=
  match t with
  | String c r => isDigit c && allDigits r
  | EmptyString => true
  end.

(** An environment with the API key alone. *)
Definition bareEnv : Env :=
  {| API_KEY := Some "key"; COMPANY_UUID := None;
     REFERRED_FROM_COMPANY_UUID := None; TAGS := None; COUNSEL := None;
     FEESPLIT := None; TOTALFEE := None |}.

End Transform.

(** ** BatchSubmitter: the [/upload] and [/upload-data] handlers *)

Module Upload.
Import JsString JsValue Transform.

(** Rate limiting configuration: 150 cases per minute, 400 ms per case. *)
Definition RATE_LIMIT_DELAY : Z := 400.

(** How [axios.post] settles: with the response body, or rejected with an
    error object. *)
Inductive PostResult : Type :=
| Resolved (data : jsval)
| Rejected (error : jsobj).

(** What the handler does to the outside, in order. *)
Inductive event : Type :=
| EPost (body : Payload)
| EDelay (ms : Z)
| EConsoleError (row : nat)
| EConsoleLog (done total : nat).

(** The value returned by [createCase]. *)
Inductive caseResult : Type :=
| CaseOk (index : nat) (data : jsval)
| CaseFailed (index : nat) (error : jsval).

Definition success (r : caseResult) : bool :=
  match r with
  | CaseOk _ _ => true
  | CaseFailed _ _ => false
  end.

Definition caseIndex (r : caseResult) : nat :=
  match r with
  | CaseOk i _ | CaseFailed i _ => i
  end.

Definition caseError (r : caseResult) : jsval :=
  match r with
  | CaseOk _ _ => JUndef
  | CaseFailed _ e => e
  end.

(** [error.response?.data?.message || error.response?.data?.error ||
    error.message] *)
Definition errorMsg (error : jsobj) : jsval :=
  let data := prop (objGet error "response") "data" in
  jsOr (jsOr (prop data "message") (prop data "error")) (objGet error "message").

Definition isDelay (e : event) : bool :=
  match e with
  | EDelay _ => true
  | _ => false
  end.

Definition isPost (e : event) : bool :=
  match e with
  | EPost _ => true
  | _ => false
  end.

Definition delays (trace : list event) : nat :=
  length (List.filter isDelay trace).
Definition posts (trace : list event) : nat :=
  length (List.filter isPost trace).

(** Every pause of a trace lasts [RATE_LIMIT_DELAY]. *)
Definition paced (trace : list event) : Prop :=
  Forall (fun e => match e with
                   | EDelay ms => ms = RATE_LIMIT_DELAY
                   | _ => True
                   end) trace.

(** The test [!payload.key]: the property is absent, or its value is
    falsy. *)
Definition lacks (p : Payload) (key : string) : bool :=
  negb (truthy (payloadGet p key)).

Section Remote.

Variable World : Type.
Variable axios_post : World -> Payload -> PostResult * World.
Variable env : Env.

(** The body of the [try] in [createCase] up to the remote call: the
    payload, or the exception of the transformation or of the
    validation. *)
Definition validated (row : jsobj) : result Payload :=
  let* payload := mapRowToPayload env row in
  if lacks payload "litigation_id" then
    Throw (mkError "Missing required field: litigation_id")
  else if lacks payload "status_id" then
    Throw (mkError "Missing required field: status_id")
  else Ok payload.

(** [createCase(row, index)]: the result, the world after it and what it
    did. *)
Definition createCase (row : jsobj) (index : nat) (w : World)
  : caseResult * World * list event :=
  match validated row with
  | Ok payload =>
      match axios_post w payload with
      | (Resolved data, w') => (CaseOk index data, w', [EPost payload])
      | (Rejected error, w') =>
          (CaseFailed index (errorMsg error), w',
           [EPost payload; EConsoleError (index + 1)])
      end
  | Throw error =>
      (CaseFailed index (errorMsg error), w, [EConsoleError (index + 1)])
  end.

(** Whether the row reaches the remote call. *)
Definition validates (row : jsobj) : bool :=
  match validated row with
  | Ok _ => true
  | Throw _ => false
  end.

(** The variables of the sequential loop. *)
Record LoopState : Type := {
  processed : list caseResult;
  failures : list caseResult;
  world : World;
  trace : list event
}.

Definition initial (w : World) : LoopState :=
  {| processed := []; failures := []; world := w; trace := [] |}.

(** One turn of [for (let i = 0; i < results.length; i++)]. *)
Definition step (total : nat) (i : nat) (row : jsobj) (st : LoopState)
  : LoopState :=
  let '(result, w, ev) := createCase row i (world st) in
  let pause :=
    if (i <? total - 1)%nat then [EDelay RATE_LIMIT_DELAY] else [] in
  let progress :=
    if ((i + 1) mod 10 =? 0)%nat then [EConsoleLog (i + 1) total] else [] in
  {| processed := if success result then processed st ++ [result]
                  else processed st;
     failures := if success result then failures st
                 else failures st ++ [result];
     world := w;
     trace := trace st ++ ev ++ pause ++ progress |}.

(** The loop from index [i] on, [rest] being the rows not yet visited. *)
Fixpoint loopFrom (total : nat) (i : nat) (rest : list jsobj) (st : LoopState)
  : LoopState :=
  match rest with
  | [] => st
  | row :: rest' => loopFrom total (S i) rest' (step total i row st)
  end.

(** [submitAll]: the whole loop over [results]. *)
Definition submitAll (results : list jsobj) (w : World) : LoopState :=
  loopFrom (length results) 0 results (initial w).

(** The body of the JSON answer. *)
Record Report : Type := {
  message : string;
  failureRows : list (nat * jsval)
}.

Definition report (total : nat) (st : LoopState) : Report :=
  {| message :=
       "Processed " ++ pretty total ++ " rows. Success: "
       ++ pretty (length (processed st)) ++ ", Failures: "
       ++ pretty (length (failures st));
     failureRows :=
       map (fun f => ((caseIndex f + 1)%nat, caseError f)) (failures st) |}.

Inductive Response : Type :=
| Status400 (text : string)
| Status500 (text : string)
| Json (body : Report).

(** [POST /upload]: [file] is the uploaded CSV as parsed by the CSV
    reader, [None] when the request carries no file. *)
Definition upload (file : option (list jsobj)) (w : World)
  : Response * World * list event :=
  match file with
  | None => (Status400 "No file uploaded.", w, [])
  | Some results =>
      if negb (isSet (API_KEY env)) then
        (Status500 "API key not configured.", w, [])
      else
        let st := submitAll results w in
        (Json (report (length results) st), world st, trace st)
  end.

(** [POST /upload-data]: [rows] is [req.body.rows] when it is an array. *)
Definition uploadData (rows : option (list jsobj)) (w : World)
  : Response * World * list event :=
  if negb (isSet (API_KEY env)) then
    (Status500 "API key not configured.", w, [])
  else
    match rows with
    | None | Some [] => (Status400 "No rows provided.", w, [])
    | Some rows =>
        let st := submitAll rows w in
        (Json (report (length rows) st), world st, trace st)
    end.

End Remote.

Arguments processed {World} _.
Arguments failures {World} _.
Arguments world {World} _.
Arguments trace {World} _.
Arguments initial {World} w.
Arguments report {World} total st.

End Upload.

(** ** PaginatedFetcher: the page loops *)

Module Fetch.
Import JsString JsValue Transform.

(** The body of a list answer, at the types the remote service documents:
    [data] is the page (absent or an array), [total] and [last_page] are
    numbers when present, [hasMore] a boolean when present. *)
Record ListResponse : Type := {
  data : option (list jsval);
  total : option Z;
  last_page : option Z;
  hasMore : option bool
}.

Inductive GetResult : Type :=
| GetOk (body : ListResponse)
| GetFailed (error : jsobj).

Inductive event : Type :=
| EGet (page : Z)
| EDelay (ms : Z).

Definition isGet (e : event) : bool :=
  match e with
  | EGet _ => true
  | EDelay _ => false
  end.

Definition requests (trace : list event) : nat :=
  length (List.filter isGet trace).

(** [x.data || []] *)
Definition pageOf (body : ListResponse) : list jsval :=
  match data body with
  | Some cases => cases
  | None => []
  end.

(** Truthiness of an optional number. *)
Definition present (n : option Z) : option Z :=
  match n with
  | Some z => if z =? 0 then None else Some z
  | None => None
  end.

(** What a loop hands back: the value or the exception, the world and the
    calls made. *)
Definition Outcome (World : Type) : Type :=
  (result (list jsval) * World * list event)%type.

Section Remote.

Variable World : Type.
Variable axios_get : World -> nat -> Z -> GetResult * World.

Definition limit : nat := 100.

(** The [while (hasMore)] loop of [fetchAllSimplyConvertCases]; one unit
    of [fuel] per turn, [None] when the turns run out. *)
Fixpoint fetchAllLoop (fuel : nat) (w : World) (allCases : list jsval)
    (page : Z) (tr : list event) : option (Outcome World) :=
  match fuel with
  | O => None
  | S fuel =>
      match axios_get w limit page with
      | (GetFailed error, w') => Some (Throw error, w', (tr ++ [EGet page])%list)
      | (GetOk res, w') =>
          let cases := pageOf res in
          let allCases := (allCases ++ cases)%list in
          let more :=
            (0 <? length cases)%nat
            && ((length cases =? limit)%nat
                || match hasMore res with Some true => true | _ => false end) in
          if more then
            fetchAllLoop fuel w' allCases (page + 1) (tr ++ [EGet page; EDelay 200])
          else Some (Ok allCases, w', (tr ++ [EGet page])%list)
      end
  end.

(** [fetchAllSimplyConvertCases()]: an exception of the loop is answered by
    the empty list. *)
Definition fetchAllSimplyConvertCases (env : Env) (fuel : nat) (w : World)
  : option (list jsval * World * list event) :=
  if negb (isSet (API_KEY env)) then Some ([], w, [])
  else
    match fetchAllLoop fuel w [] 0 [] with
    | Some (Ok allCases, w', tr) => Some (allCases, w', tr)
    | Some (Throw _, w', tr) => Some ([], w', tr)
    | None => None
    end.

(** The continuation test of the bulk fetch of the fast duplicate check. *)
Definition bulkHasMore (res : ListResponse) (fetched : nat) (page : Z)
    (received : nat) : bool :=
  match present (total res) with
  | Some t => Z.of_nat fetched <? t
  | None =>
      match present (last_page res) with
      | Some l => page <? l
      | None => (limit <=? received)%nat
      end
  end.

(** The [while (hasMorePages)] loop of the fast duplicate check. *)
Fixpoint bulkFetchLoop (fuel : nat) (w : World) (allCases : list jsval)
    (page : Z) (tr : list event) : option (Outcome World) :=
  match fuel with
  | O => None
  | S fuel =>
      match axios_get w limit page with
      | (GetFailed error, w') => Some (Throw error, w', (tr ++ [EGet page])%list)
      | (GetOk res, w') =>
          let cases := pageOf res in
          let allCases := (allCases ++ cases)%list in
          if bulkHasMore res (length allCases) page (length cases) then
            bulkFetchLoop fuel w' allCases (page + 1) (tr ++ [EGet page; EDelay 200])
          else Some (Ok allCases, w', (tr ++ [EGet page])%list)
      end
  end.

Definition bulkFetch (fuel : nat) (w : World) : option (Outcome World) :=
  bulkFetchLoop fuel w [] 1 [].

(** The loop of [GET /cases] in the same file as the fast duplicate check:
    the continuation test sits under [if (cases.length > 0)], an empty page
    sets [hasMorePages = false], and the page number is capped at 100. *)
Fixpoint casesLoop (fuel : nat) (w : World) (allCases : list jsval)
    (page : Z) (tr : list event) : option (Outcome World) :=
  match fuel with
  | O => None
  | S fuel =>
      match axios_get w limit page with
      | (GetFailed error, w') => Some (Throw error, w', (tr ++ [EGet page])%list)
      | (GetOk res, w') =>
          let cases := pageOf res in
          if (0 <? length cases)%nat then
            let allCases := (allCases ++ cases)%list in
            let page' := page + 1 in
            let more :=
              match present (total res) with
              | Some t => Z.of_nat (length allCases) <? t
              | None =>
                  match present (last_page res) with
                  | Some l => page' <=? l
                  | None => (limit <=? length cases)%nat
                  end
              end in
            let tr' := (tr ++ [EGet page] ++ (if more then [EDelay 200] else []))%list in
            if more && negb (100 <? page') then casesLoop fuel w' allCases page' tr'
            else Some (Ok allCases, w', tr')
          else Some (Ok allCases, w', (tr ++ [EGet page])%list)
      end
  end.

End Remote.

End Fetch.

(** ** DuplicateDetector: the two [/check-duplicates] handlers *)

Module Duplicates.
Import JsString JsValue Transform.

(** [(row.a || row.b || '').toLowerCase()]; the message of the [TypeError]
    is the engine's. *)
Definition lowerField (row : jsobj) (a b : string) : result string :=
  match jsOr (jsOr (objGet row a) (objGet row b)) (JStr EmptyString) with
  | JStr s => Ok (toLowerCase s)
  | v => Throw (noMethod "(intermediate value)" "toLowerCase" v)
  end.

(** [caseItem.k] on a value of the fetched list. *)
Definition caseField (caseItem : jsval) (k : string) : result jsval :=
  match caseItem with
  | JNull | JUndef => Throw (noMethod "caseItem" k caseItem)
  | _ => Ok (prop caseItem k)
  end.

(** [!x || (caseItem.k && caseItem.k.toLowerCase() === x)] as a boolean. *)
Definition matchesField (x : string) (caseItem : jsval) (k : string)
  : result bool :=
  if negb (nonEmpty x) then Ok true
  else
    let* v := caseField caseItem k in
    if truthy v then
      match v with
      | JStr s => Ok (String.eqb (toLowerCase s) x)
      | _ => Throw (noMethod ("caseItem." ++ k) "toLowerCase" v)
      end
    else Ok false.

(** [allCases.some(caseItem => ...)] of the three-field matcher. *)
Fixpoint someMatch (fname lname email : string) (allCases : list jsval)
  : result bool :=
  match allCases with
  | [] => Ok false
  | caseItem :: rest =>
      let* matchesFname := matchesField fname caseItem "fname_injured" in
      let* matchesLname := matchesField lname caseItem "lname_injured" in
      let* matchesEmail := matchesField email caseItem "email_injured" in
      if matchesFname && matchesLname && matchesEmail then Ok true
      else someMatch fname lname email rest
  end.

(** [rows.forEach((row, index) => ...)] of the three-field matcher. *)
Fixpoint forEachRow (rows : list jsobj) (index : nat) (allCases : list jsval)
    (duplicates : list nat) : result (list nat) :=
  match rows with
  | [] => Ok duplicates
  | row :: rest =>
      let* fname := lowerField row "fname_injured" "fname" in
      let* lname := lowerField row "lname_injured" "lname" in
      let* email := lowerField row "email_injured" "email" in
      if negb (nonEmpty fname) && negb (nonEmpty lname) && negb (nonEmpty email)
      then forEachRow rest (S index) allCases duplicates
      else
        let* isDuplicate := someMatch fname lname email allCases in
        forEachRow rest (S index) allCases
          (if isDuplicate then duplicates ++ [index] else duplicates)
  end.

(** The three-field wildcard matcher over the bulk-fetched cases. *)
Definition checkDuplicates (rows : list jsobj) (allCases : list jsval)
  : result (list nat) :=
  forEachRow rows 0 allCases [].

(** The [duplicates] member of the answer: the list found, or the empty
    list of the 500 answer when the handler threw. *)
Definition reported (r : result (list nat)) : list nat :=
  match r with
  | Ok duplicates => duplicates
  | Throw _ => []
  end.

(** [allCases.forEach(c => { if (c.email_injured) caseMap.set(...) })] *)
Fixpoint buildCaseMap (allCases : list jsval) (caseMap : gmap string jsval)
  : result (gmap string jsval) :=
  match allCases with
  | [] => Ok caseMap
  | c :: rest =>
      let* v := caseField c "email_injured" in
      if truthy v then
        match v with
        | JStr s => buildCaseMap rest (<[toLowerCase s := c]> caseMap)
        | _ => Throw (noMethod "c.email_injured" "toLowerCase" v)
        end
      else buildCaseMap rest caseMap
  end.

(** [existing.k.toLowerCase() === x] *)
Definition existingIs (existing : jsval) (k : string) (x : string)
  : result bool :=
  match prop existing k with
  | JStr s => Ok (String.eqb (toLowerCase s) x)
  | v => Throw (noMethod ("existing." ++ k) "toLowerCase" v)
  end.

(** One task of the email-keyed check: [Some i] or [null]. *)
Definition emailTask (caseMap : gmap string jsval) (row : jsobj) (i : nat)
  : result (option nat) :=
  let* fname := lowerField row "fname_injured" "fname" in
  let* lname := lowerField row "lname_injured" "lname" in
  let* email := lowerField row "email_injured" "email" in
  if negb (nonEmpty fname) && negb (nonEmpty lname) && negb (nonEmpty email)
  then Ok None
  else
    match caseMap !! email with
    | Some existing =>
        let* sameFname := existingIs existing "fname_injured" fname in
        if sameFname then
          let* sameLname := existingIs existing "lname_injured" lname in
          Ok (if sameLname then Some i else None)
        else Ok None
    | None => Ok None
    end.

(** The tasks in row order, keeping the indices that are not [null]. *)
Fixpoint emailTasks (caseMap : gmap string jsval) (rows : list jsobj) (i : nat)
  : result (list nat) :=
  match rows with
  | [] => Ok []
  | row :: rest =>
      let* x := emailTask caseMap row i in
      let* found := emailTasks caseMap rest (S i) in
      Ok (match x with Some j => j :: found | None => found end)
  end.

(** The email-keyed check.  The file that holds it never binds the name
    [pLimit]; [pLimitBound] tells whether the name is bound at run time
    to the limiter of the p-limit package, which runs every task.  When it
    is not, [pLimit(10)] raises a [ReferenceError]. *)
Definition emailKeyedDuplicates (pLimitBound : bool) (rows : list jsobj)
    (allCases : list jsval) : result (list nat) :=
  let* caseMap := buildCaseMap allCases empty in
  if pLimitBound then emailTasks caseMap rows 0
  else Throw (mkError "pLimit is not defined").

(** *** The detector in the words of the specification

    Section 4.4: the identity of a row is (first name, last name, email),
    each case-folded and white-space trimmed; a row whose three components
    are empty is skipped; a row is a duplicate when some existing record
    matches every non-empty component, after the same normalization. *)

Definition normalized (v : jsval) : string :=
  match v with
  | JStr s => trim (toLowerCase s)
  | _ => EmptyString
  end.

Definition specIdentity (row : jsobj) : string * string * string :=
  (normalized (jsOr (objGet row "fname_injured") (objGet row "fname")),
   normalized (jsOr (objGet row "lname_injured") (objGet row "lname")),
   normalized (jsOr (objGet row "email_injured") (objGet row "email"))).

Definition specComponentMatches (x : string) (field : jsval) : bool :=
  if nonEmpty x then String.eqb (normalized field) x else true.

Definition specIsDuplicate (row : jsobj) (existing : list jsval) : bool :=
  let '(fname, lname, email) := specIdentity row in
  if negb (nonEmpty fname) && negb (nonEmpty lname) && negb (nonEmpty email)
  then false
  else
    existsb (fun record =>
               specComponentMatches fname (prop record "fname_injured")
               && specComponentMatches lname (prop record "lname_injured")
               && specComponentMatches email (prop record "email_injured"))
            existing.

Fixpoint specDuplicatesFrom (rows : list jsobj) (index : nat)
    (existing : list jsval) : list nat :=
  match rows with
  | [] => []
  | row :: rest =>
      if specIsDuplicate row existing
      then index :: specDuplicatesFrom rest (S index) existing
      else specDuplicatesFrom rest (S index) existing
  end.

Definition specDuplicates (rows : list jsobj) (existing : list jsval)
  : list nat :=
  specDuplicatesFrom rows 0 existing.

End Duplicates.

(** ** Measures of texts and objects used in the statements *)

Module Text.
Import JsString JsValue.

(** The number of occurrences of [c] in [s]. *)
Fixpoint countChar (c : ascii) (s : string) : nat :=
  match s with
  | String d r => ((if Ascii.eqb d c then 1 else 0) + countChar c r)%nat
  | EmptyString => 0%nat
  end.

(** [pieces.join(sep)] *)
Fixpoint join (sep : string) (pieces : list string) : string :=
  match pieces with
  | [] => EmptyString
  | [x] => x
  | x :: rest => x ++ sep ++ join sep rest
  end.

(** A property of a flat object of texts: a non-empty key other than
    [__proto__] and a non-empty trimmed string. *)
Definition flatEntry (kv : string * jsval) : Prop :=
  nonEmpty (fst kv) = true
  /\ fst kv <> "__proto__"
  /\ exists v, snd kv = JStr v /\ nonEmpty v = true /\ trim v = v.

(** A number without a fraction. *)
Definition isInteger (v : jsval) : Prop := exists z, v = JNum z 0.

(** An integer or an infinity: the numbers that are not [NaN] and have no
    fraction. *)
Definition isIntegerOrInfinity (v : jsval) : Prop :=
  isInteger v \/ exists negative, v = JInf negative.


(** A string without white space at either end. *)
Definition isTrimmedString (v : jsval) : Prop := exists t, v = JStr t /\ trim t = t.

End Text.

(** ** Observations on a run of the upload loop *)

Module UploadFacts.
Import Transform Upload.

(** The bodies posted to the remote service, in order. *)
Fixpoint postedBodies (trace : list event) : list Payload :=
  match trace with
  | [] => []
  | EPost body :: rest => body :: postedBodies rest
  | _ :: rest => postedBodies rest
  end.

(** The number of progress lines written. *)
Fixpoint progressLines (trace : list event) : nat :=
  match trace with
  | [] => 0%nat
  | EConsoleLog _ _ :: rest => S (progressLines rest)
  | _ :: rest => progressLines rest
  end.

(** The payloads of the rows that pass the transformation and the
    validation, in row order. *)
Fixpoint validPayloads (env : Env) (rows : list jsobj) : list Payload :=
  match rows with
  | [] => []
  | row :: rest =>
      match validated env row with
      | Ok payload => payload :: validPayloads env rest
      | Throw _ => validPayloads env rest
      end
  end.

(** The world after the remote service has answered [bodies] in turn. *)
Definition worldAfter {World : Type}
    (axios_post : World -> Payload -> PostResult * World)
    (bodies : list Payload) (w : World) : World :=
  fold_left (fun w body => snd (axios_post w body)) bodies w.

End UploadFacts.

(** ** The capped page loop of [GET /cases] and observations on page loops *)

Module FetchFacts.
Import JsValue Transform Fetch.

Definition maxRequests : nat := 500.

Section Remote.

Variable World : Type.
Variable axios_get : World -> nat -> Z -> GetResult * World.

(** The loop of [GET /cases] that counts its requests:
    [while (hasMorePages && requestCount < maxRequests)].  The loop is
    entered with [hasMorePages = true]; the last component of the result
    is [requestCount]. *)
Fixpoint cappedLoop (fuel : nat) (w : World) (allCases : list jsval)
    (page : Z) (requestCount : nat) (tr : list event)
  : option (Outcome World * nat) :=
  if negb (requestCount <? maxRequests)%nat then
    Some ((Ok allCases, w, tr), requestCount)
  else
    match fuel with
    | O => None
    | S fuel =>
        match axios_get w limit page with
        | (GetFailed error, w') =>
            Some ((Throw error, w', (tr ++ [EGet page])%list), S requestCount)
        | (GetOk res, w') =>
            let cases := pageOf res in
            let allCases :=
              if (0 <? length cases)%nat then (allCases ++ cases)%list
              else allCases in
            let more :=
              (0 <? length cases)%nat
              && ((length cases =? limit)%nat
                  || match hasMore res with Some true => true | _ => false end) in
            let tr' :=
              (tr ++ [EGet page] ++ (if more then [EDelay 200] else []))%list in
            if more then cappedLoop fuel w' allCases (page + 1) (S requestCount) tr'
            else Some ((Ok allCases, w', tr'), S requestCount)
        end
    end.

(** The answers of the remote service to the requests for [page],
    [page + 1], ... up to [n] further pages, as long as it answers. *)
Fixpoint replay (n : nat) (w : World) (page : Z) : list ListResponse :=
  match axios_get w limit page with
  | (GetOk res, w') =>
      res :: match n with
             | O => []
             | S n => replay n w' (page + 1)
             end
  | (GetFailed _, _) => []
  end.

End Remote.

(** The requests for [n + 1] consecutive pages from [page] on, with a
    pause of 200 ms between two requests and none after the last. *)
Fixpoint pagedTrace (page : Z) (n : nat) : list event :=
  match n with
  | O => [EGet page]
  | S n => EGet page :: EDelay 200 :: pagedTrace (page + 1) n
  end.

(** The continuation test of [fetchAllSimplyConvertCases]. *)
Definition fetchAllContinues (res : ListResponse) : bool :=
  (0 <? length (pageOf res))%nat
  && ((length (pageOf res) =? limit)%nat
      || match hasMore res with Some true => true | _ => false end).

End FetchFacts.

(** ** The [/check-duplicates] handler over the bulk-fetched cases *)

Module DuplicatesEndpoint.
Import JsValue Transform Fetch Duplicates.

(** The answers of the handler: the two early returns, the report, and
    the 500 answer of the [catch], whose message ends with
    [error.message]. *)
Inductive Answer : Type :=
| NoKey
| NoRows
| Checked (duplicates : list nat) (totalRowsChecked totalExistingCases : nat)
| Failed (message : jsval).

Section Remote.

Variable World : Type.
Variable axios_get : World -> nat -> Z -> GetResult * World.

(** [POST /check-duplicates]; [rows] is [req.body.rows] when it is an
    array. *)
Definition checkDuplicatesHandler (env : Env) (rows : option (list jsobj))
    (fuel : nat) (w : World) : option (Answer * World * list event) :=
  if negb (isSet (API_KEY env)) then Some (NoKey, w, [])
  else
    match rows with
    | None | Some [] => Some (NoRows, w, [])
    | Some rows =>
        match fetchAllSimplyConvertCases World axios_get env fuel w with
        | Some (allCases, w', tr) =>
            match checkDuplicates rows allCases with
            | Ok duplicates =>
                Some (Checked duplicates (length rows) (length allCases), w', tr)
            | Throw error => Some (Failed (objGet error "message"), w', tr)
            end
        | None => None
        end
    end.

End Remote.

End DuplicatesEndpoint.

(** ** The CSV preview of the upload page: [parseCSVLine] and [parseCSV] *)

Module Csv.
Import JsString JsValue Json.

(** The loop of [parseCSVLine] from some position on: [current] is the
    value being read and [inQuotes] the quote state; the values are listed
    in the order in which they are pushed. *)
Fixpoint parseCSVLineFrom (line : string) (current : string) (inQuotes : bool)
  : list string :=
  match line with
  | EmptyString => [current]
  | String char r =>
      if Ascii.eqb char dq then parseCSVLineFrom r current (negb inQuotes)
      else if Ascii.eqb char "," && negb inQuotes then
        current :: parseCSVLineFrom r EmptyString inQuotes
      else parseCSVLineFrom r (current ++ String char EmptyString) inQuotes
  end.

Definition parseCSVLine (line : string) : list string :=
  parseCSVLineFrom line EmptyString false.

(** The replacement that removes one leading and one trailing quote. *)
Definition stripQuotes (s : string) : string :=
  dropLast dq
    match s with
    | String c r => if Ascii.eqb c dq then r else s
    | EmptyString => s
    end.

(** [row[header] = value] on a plain object, for a string [value]. *)
Definition setCell (row : jsobj) (cell : string * string) : jsobj :=
  let '(header, value) := cell in
  if String.eqb header "__proto__" then row
  else objDefine row header (JStr (stripQuotes (trim value))).

(** An entry of [csvData]. *)
Record Entry : Type := {
  data : jsobj;
  selected : bool;
  index : nat
}.

(** The [for] loop of [parseCSV] over the lines after the header, [i]
    being the number of the first of them. *)
Fixpoint dataRows (csvHeaders : list string) (lines : list string) (i : nat)
  : list Entry :=
  match lines with
  | [] => []
  | line :: rest =>
      let values := parseCSVLine line in
      if (length values =? length csvHeaders)%nat then
        {| data := fold_left setCell (combine csvHeaders values) [];
           selected := true;
           index := i |}
        :: dataRows csvHeaders rest (S i)
      else dataRows csvHeaders rest (S i)
  end.

(** The lines of the text that are not blank. *)
Definition nonBlankLines (text : string) : list string :=
  List.filter (fun line => nonEmpty (trim line)) (split (ascii_of_N 10) text).

(** [parseCSV(text)]: the new values of [csvHeaders] and [csvData], or the
    error thrown on a text without lines. *)
Definition parseCSV (text : string) : result (list string * list Entry) :=
  match nonBlankLines text with
  | [] => Throw (mkError "CSV file is empty")
  | first :: rest =>
      let csvHeaders := map (fun h => stripQuotes (trim h)) (split "," first) in
      Ok (csvHeaders, dataRows csvHeaders rest 1)
  end.

(** A field between quotes. *)
Definition quoted (field : string) : string :=
  String dq (field ++ String dq EmptyString).

End Csv.

(** ** The per-row duplicate check with its retry *)

Module PerRow.
Import JsString JsValue Transform Fetch Duplicates.

(** The parameters of one page request, next to the constant
    [company_uuid] and [limit]: a name or email that the row does not
    supply is [JUndef]. *)
Record Query : Type := {
  q_fname : jsval;
  q_lname : jsval;
  q_email : jsval;
  q_page : Z
}.

(** What the handler does to the outside; the lines written to the console
    are left out. *)
Inductive event : Type :=
| EQuery (q : Query)
| EWait (ms : Z).

(** [v === n] for a number [n]. *)
Definition isNumber (n : Z) (v : jsval) : bool :=
  match v with
  | JNum m e => if 0 <=? e then m * 10 ^ e =? n else m =? n * 10 ^ (- e)
  | _ => false
  end.

(** [error.response?.status === 429] *)
Definition rateLimited (error : jsobj) : bool :=
  isNumber 429 (prop (objGet error "response") "status").

(** [if (x) params.k = x] *)
Definition param (x : jsval) : jsval := if truthy x then x else JUndef.

(** [!x || (caseItem.k && caseItem.k.toLowerCase().trim() ===
    x.toLowerCase().trim())] as a boolean, [name] being the variable that
    holds [x]. *)
Definition trimmedMatch (name : string) (x : jsval) (caseItem : jsval)
    (k : string) : result bool :=
  if negb (truthy x) then Ok true
  else
    let* v := caseField caseItem k in
    if truthy v then
      match v with
      | JStr s =>
          match x with
          | JStr t =>
              Ok (String.eqb (trim (toLowerCase s)) (trim (toLowerCase t)))
          | _ => Throw (noMethod name "toLowerCase" x)
          end
      | _ => Throw (noMethod ("caseItem." ++ k) "toLowerCase" v)
      end
    else Ok false.

(** [allCases.some(caseItem => ...)] of the per-row check. *)
Fixpoint exactMatch (fname lname email : jsval) (allCases : list jsval)
  : result bool :=
  match allCases with
  | [] => Ok false
  | caseItem :: rest =>
      let* fnameMatch := trimmedMatch "fname" fname caseItem "fname_injured" in
      let* lnameMatch := trimmedMatch "lname" lname caseItem "lname_injured" in
      let* emailMatch := trimmedMatch "email" email caseItem "email_injured" in
      if fnameMatch && lnameMatch && emailMatch then Ok true
      else exactMatch fname lname email rest
  end.

(** Rate limiting configuration of this revision: 400 ms per case. *)
Definition RATE_LIMIT_DELAY : Z := 400.

(** [row.a || row.b || ''] *)
Definition rawField (row : jsobj) (a b : string) : jsval :=
  jsOr (jsOr (objGet row a) (objGet row b)) (JStr EmptyString).

Section Remote.

Variable World : Type.
Variable axios_get : World -> Query -> GetResult * World.

(** The [while (hasMorePages)] loop of one row: no limit on the number of
    pages; one unit of [fuel] per turn. *)
Fixpoint pages (fuel : nat) (w : World) (fname lname email : jsval)
    (allCases : list jsval) (page : Z) (tr : list event)
  : option (result (list jsval) * World * list event) :=
  match fuel with
  | O => None
  | S fuel =>
      let q := {| q_fname := param fname; q_lname := param lname;
                  q_email := param email; q_page := page |} in
      match axios_get w q with
      | (GetFailed error, w') => Some (Throw error, w', (tr ++ [EQuery q])%list)
      | (GetOk res, w') =>
          let cases := pageOf res in
          if (0 <? length cases)%nat then
            let allCases := (allCases ++ cases)%list in
            let more :=
              match present (total res) with
              | Some t => Z.of_nat (length allCases) <? t
              | None =>
                  match present (last_page res) with
                  | Some l => page <=? l
                  | None => (limit <=? length cases)%nat
                  end
              end in
            if more then
              pages fuel w' fname lname email allCases (page + 1)
                (tr ++ [EQuery q; EWait 200])
            else Some (Ok allCases, w', (tr ++ [EQuery q])%list)
          else Some (Ok allCases, w', (tr ++ [EQuery q])%list)
      end
  end.

(** The [for] loop over the rows, from index [i] on: a row without name
    and email is passed over; an exception while a row is checked is
    caught, a 429 answer waits two seconds and takes the same row again,
    any other exception goes on with the next row.  One unit of [fuel] per
    turn of the loop, [pageFuel] for the page loop of each turn. *)
Fixpoint checkRows (fuel pageFuel : nat) (w : World) (rows : list jsobj)
    (i : nat) (duplicates : list nat) (tr : list event)
  : option (list nat * World * list event) :=
  match fuel with
  | O => None
  | S fuel =>
      match rows !! i with
      | None => Some (duplicates, w, tr)
      | Some row =>
          let fname := rawField row "fname_injured" "fname" in
          let lname := rawField row "lname_injured" "lname" in
          let email := rawField row "email_injured" "email" in
          if negb (truthy fname) && negb (truthy lname) && negb (truthy email)
          then checkRows fuel pageFuel w rows (S i) duplicates tr
          else
            let caught (error : jsobj) (w' : World) (tr' : list event) :=
              if rateLimited error then
                checkRows fuel pageFuel w' rows i duplicates (tr' ++ [EWait 2000])
              else checkRows fuel pageFuel w' rows (S i) duplicates tr' in
            match pages pageFuel w fname lname email [] 1 tr with
            | None => None
            | Some (Throw error, w', tr') => caught error w' tr'
            | Some (Ok allCases, w', tr') =>
                match exactMatch fname lname email allCases with
                | Throw error => caught error w' tr'
                | Ok found =>
                    checkRows fuel pageFuel w' rows (S i)
                      (if found then (duplicates ++ [i])%list else duplicates)
                      (tr' ++ [EWait RATE_LIMIT_DELAY])
                end
            end
      end
  end.

End Remote.

(** The row supplies no name and no email. *)
Definition noIdentity (row : jsobj) : bool :=
  negb (truthy (rawField row "fname_injured" "fname"))
  && negb (truthy (rawField row "lname_injured" "lname"))
  && negb (truthy (rawField row "email_injured" "email")).

End PerRow.

(** ** Observations on a run of the per-row check *)

Module PerRowFacts.
Import PerRow.

Definition isQuery (e : event) : bool :=
  match e with
  | EQuery _ => true
  | EWait _ => false
  end.

(** The numbers of requests and of pauses of a trace. *)
Definition queries (tr : list event) : nat := length (List.filter isQuery tr).
Definition waits (tr : list event) : nat :=
  length (List.filter (fun e => negb (isQuery e)) tr).

(** The rows that supply a name or an email. *)
Definition withIdentity (rows : list jsobj) : list jsobj :=
  List.filter (fun row => negb (noIdentity row)) rows.

End PerRowFacts.

(** ** Statements about the three-field matcher *)

Module MatcherFacts.
Import JsString JsValue.

(** The lower-cased component [x] of a row agrees with the field [k] of a
    fetched case: it is empty, or the field is a text whose lower case is
    [x]. *)
Definition agrees (x : string) (caseItem : jsval) (k : string) : Prop :=
  x = EmptyString
  \/ exists s, prop caseItem k = JStr s /\ toLowerCase s = x.

End MatcherFacts.

(** ** Statements about the email-keyed map *)

Module EmailMapFacts.
Import JsString JsValue.

(** The key under which the email-keyed map files a fetched record: the
    lower case of its email, when that is a non-empty text. *)
Definition emailKey (c : jsval) : option string :=
  match prop c "email_injured" with
  | JStr s => if nonEmpty s then Some (toLowerCase s) else None
  | _ => None
  end.

Definition filedUnder (key : string) (c : jsval) : bool :=
  match emailKey c with
  | Some k => String.eqb k key
  | None => false
  end.

(** The last of the fetched records that are filed under [key]. *)
Definition lastFiled (key : string) (allCases : list jsval) : option jsval :=
  last (List.filter (filedUnder key) allCases).

End EmailMapFacts.

(** ** The enumeration order of the properties of an object *)

Module ObjectFacts.
Import JsString JsValue.

Definition isIndexKey (kv : string * jsval) : bool :=
  match arrayIndex (fst kv) with
  | Some _ => true
  | None => false
  end.

(** The property [a] is enumerated no later than [b]: an array index comes
    before a larger index and before every other key. *)
Definition before (a b : string * jsval) : Prop :=
  match arrayIndex (fst a), arrayIndex (fst b) with
  | Some n, Some m => (n <= m)%N
  | Some _, None => True
  | None, Some _ => False
  | None, None => True
  end.

(** The properties whose key is not an array index. *)
Definition otherEntries (o : jsobj) : jsobj :=
  List.filter (fun kv => negb (isIndexKey kv)) o.

End ObjectFacts.

(** ** Sample inputs *)

Module Samples.
Import Transform.

Definition garbledRow : jsobj :=
  [("birthday", JStr "31/31"); ("conditions", JStr "[x,,]]"); ("meta", JStr "{{:,")].

Definition metaRow : jsobj := [("meta", JStr "{gender: Male, age: 30}")].

Definition productsRow : jsobj :=
  [("litigation_id", JStr "7"); ("products", JStr "[a, b],c")].



(** The end-to-end batch of the specification: the second row has no
    status identifier. *)
Definition completeRow : jsobj :=
  [("litigation_id", JStr "1"); ("status_id", JStr "2")].
Definition rowNoStatus : jsobj := [("litigation_id", JStr "1")].
Definition payloadNoStatus : Payload :=
  payloadSet emptyPayload "litigation_id" (JStr "1").
Definition threeRows : list jsobj := [completeRow; rowNoStatus; completeRow].

(** A remote service that accepts every second case and rejects the
    others; the world counts the calls. *)
Definition alternating (w : nat) (body : Payload) : Upload.PostResult * nat :=
  (if Nat.even w then Upload.Resolved (JStr "created")
   else Upload.Rejected
          [("message", JStr "Request failed with status code 422");
           ("response", JObj [("data", JObj [("message", JStr "Invalid case")])])],
   S w).

(** The run of the loop on the three rows. *)
Definition sampleRun : Upload.LoopState nat :=
  Upload.submitAll nat alternating bareEnv threeRows 0%nat.

(** Pages without items that still announce more. *)
Definition emptyWithTotal : Fetch.ListResponse :=
  {| Fetch.data := Some []; Fetch.total := Some 5;
     Fetch.last_page := None; Fetch.hasMore := None |}.
Definition emptyWithLastPage : Fetch.ListResponse :=
  {| Fetch.data := Some []; Fetch.total := None;
     Fetch.last_page := Some 9; Fetch.hasMore := Some true |}.
Definition emptyBare : Fetch.ListResponse :=
  {| Fetch.data := Some []; Fetch.total := None;
     Fetch.last_page := None; Fetch.hasMore := None |}.

(** A remote service that answers the pages of a script in turn, and
    bare empty pages after them. *)
Definition scripted (w : list Fetch.ListResponse) (limit : nat) (page : Z)
  : Fetch.GetResult * list Fetch.ListResponse :=
  match w with
  | r :: rest => (Fetch.GetOk r, rest)
  | [] => (Fetch.GetOk emptyBare, [])
  end.

(** A remote service that answers every request by an empty page and a
    total of five. *)
Definition stuck (w : unit) (limit : nat) (page : Z)
  : Fetch.GetResult * unit :=
  (Fetch.GetOk emptyWithTotal, tt).

(** The rows and the record of the duplicate examples. *)
Definition janeRow : jsobj :=
  [("fname", JStr "Jane"); ("lname", JStr "Doe"); ("email", JStr EmptyString)].
Definition spacedJaneRow : jsobj :=
  [("fname", JStr " Jane"); ("lname", JStr "Doe"); ("email", JStr EmptyString)].
Definition janeRecord : jsval :=
  JObj [("fname_injured", JStr "jane"); ("lname_injured", JStr "doe");
        ("email_injured", JStr "x@y.com")].

(** An environment with every override set, and a row that supplies the
    same fields. *)
Definition fullEnv : Env :=
  {| API_KEY := Some "key"; COMPANY_UUID := Some "c-1";
     REFERRED_FROM_COMPANY_UUID := Some "r-2"; TAGS := Some "Imported";
     COUNSEL := Some "Smith"; FEESPLIT := Some "40"; TOTALFEE := Some "33" |}.
Definition overriddenRow : jsobj :=
  [("tags", JStr "a,b"); ("counsel", JStr "Jones"); ("company_uuid", JStr "x")].
Definition sparseRow : jsobj :=
  [("fname", JStr "Ann"); ("lname", JStr EmptyString); ("birthday", JStr "3/4/2024");
   ("products", JStr " a , [b] ,c"); ("conditions", JStr "1,x,3")].

(** A full page, a short page, and a remote service that answers the full
    page and then fails. *)
Definition fullPage : Fetch.ListResponse :=
  {| Fetch.data := Some (repeat janeRecord 100); Fetch.total := None;
     Fetch.last_page := None; Fetch.hasMore := None |}.
Definition shortPage : Fetch.ListResponse :=
  {| Fetch.data := Some [janeRecord]; Fetch.total := None;
     Fetch.last_page := None; Fetch.hasMore := None |}.
Definition failsOnSecond (w : nat) (limit : nat) (page : Z)
  : Fetch.GetResult * nat :=
  (match w with
   | O => Fetch.GetOk fullPage
   | S _ => Fetch.GetFailed (mkError "timeout of 30000ms exceeded")
   end, S w).

(** A second record with the email of [janeRecord] and another name, and a
    row that carries that email. *)
Definition johnRecord : jsval :=
  JObj [("fname_injured", JStr "John"); ("lname_injured", JStr "Roe");
        ("email_injured", JStr "X@Y.com")].
Definition janeEmailRow : jsobj :=
  [("fname", JStr "Jane"); ("lname", JStr "Doe"); ("email", JStr "x@y.com")].

(** A third record with an email of its own, fetched after the two others,
    and a row with the name and the email of [johnRecord]. *)
Definition annRecord : jsval :=
  JObj [("fname_injured", JStr "Ann"); ("lname_injured", JStr "Lee");
        ("email_injured", JStr "a@b.c")].
Definition johnEmailRow : jsobj :=
  [("fname", JStr "John"); ("lname", JStr "Roe"); ("email", JStr "x@Y.com")].

(** A CSV text with a quoted comma, a blank line and a line that is one
    value short. *)
Definition newline : string := String (ascii_of_N 10) EmptyString.
Definition quoteMark : string := String Json.dq EmptyString.
Definition csvText : string :=
  "fname, lname ,email" ++ newline
  ++ quoteMark ++ "Ann" ++ quoteMark ++ ", Lee ,a@b.c" ++ newline
  ++ "   " ++ newline
  ++ "Bob,Ray" ++ newline
  ++ "Cy," ++ quoteMark ++ "Oz, Jr." ++ quoteMark ++ ",c@d.e".

(** A CSV text whose second header is an array index. *)
Definition indexCsvText : string := "b,1" ++ newline ++ "x,y".

(** A remote service that answers every query of the per-row check by the
    status 429, and one that fails otherwise. *)
Definition tooManyRequests : jsobj :=
  [("message", JStr "Request failed with status code 429");
   ("response", JObj [("status", JNum 429 0)])].
Definition always429 (w : nat) (q : PerRow.Query) : Fetch.GetResult * nat :=
  (Fetch.GetFailed tooManyRequests, S w).
Definition alwaysDown (w : nat) (q : PerRow.Query) : Fetch.GetResult * nat :=
  (Fetch.GetFailed (mkError "connect ECONNREFUSED"), S w).
Definition emptyRow : jsobj := [("phone", JStr "555")].

(** A remote service that answers the first query by the status 429 and
    every later one by the page that holds [janeRecord]. *)
Definition busyThenJane (w : nat) (q : PerRow.Query) : Fetch.GetResult * nat :=
  (match w with
   | O => Fetch.GetFailed tooManyRequests
   | S _ => Fetch.GetOk shortPage
   end, S w).

(** The first page query of the per-row check for [janeRow]. *)
Definition janeQuery : PerRow.Query :=
  {| PerRow.q_fname := JStr "Jane"; PerRow.q_lname := JStr "Doe";
     PerRow.q_email := JUndef; PerRow.q_page := 1 |}.


(** A service that hands out one case per page and reports a total of
    three. *)
Definition onePerPage (w : nat) (limit : nat) (page : Z)
  : Fetch.GetResult * nat :=
  (Fetch.GetOk {| Fetch.data := Some [janeRecord];
                  Fetch.total := Some 3;
                  Fetch.last_page := None;
                  Fetch.hasMore := None |}, S w).

End Samples.

(** * Properties *)

Import JsString JsValue Json Transform Samples.

(** ** Strings and property lists *)

(** Closes [NoDup] goals on the keys of a concrete row. *)
Ltac distinct_keys :=
  refine (bool_decide_unpack _ _); vm_compute; exact I.

Lemma eqb_string_false (a b : string) : a <> b -> String.eqb a b = false.
Proof. intros H. now apply String.eqb_neq. Qed.

Lemma nonEmpty_false (s : string) : nonEmpty s = false -> s = EmptyString.
Proof. destruct s; [reflexivity | discriminate]. Qed.

(** ** The fuel of [JSON.parse] is enough *)

Lemma skipWs_length (s : string) :
  (String.length (skipWs s) <= String.length s)%nat.
Proof.
  induction s as [| c r IH]; simpl; [lia |].
  destruct (isJsonSpace c); simpl; lia.
Qed.

Lemma parseStringBody_length_bounded (n : nat) :
  forall s, (String.length s <= n)%nat ->
  forall body rest, parseStringBody s = Some (body, rest) ->
  (String.length rest < String.length s)%nat.
Proof.
  induction n as [| n IHn]; intros s Hlen body rest H.
  { destruct s; [discriminate | simpl in Hlen; lia]. }
  assert (IH : forall t b r', (String.length t <= n)%nat ->
            parseStringBody t = Some (b, r') ->
            (String.length r' < String.length t)%nat)
    by (intros t b r' Ht Hp; exact (IHn t Ht b r' Hp)).
  destruct s as [| c r]; [discriminate |].
  simpl in Hlen.
  simpl in H. destruct (Ascii.eqb c dq).
  { inversion H; subst. simpl. lia. }
  destruct (Ascii.eqb c backslash).
  - destruct r as [| e r1]; [discriminate |].
    destruct (Ascii.eqb e "u").
    + destruct r1 as [| h1 [| h2 [| h3 [| h4 r2]]]]; try discriminate.
      destruct (hex4 h1 h2 h3 h4) as [code |]; [| discriminate].
      destruct (code <? 256)%N; [| discriminate].
      destruct (parseStringBody r2) as [[b r'] |] eqn:Hr; [| discriminate].
      inversion H; subst. apply IH in Hr; simpl in *; lia.
    + destruct (escapeChar e); [| discriminate].
      destruct (parseStringBody r1) as [[b r'] |] eqn:Hr; [| discriminate].
      inversion H; subst. apply IH in Hr; simpl in *; lia.
  - destruct (N_of_ascii c <? 32)%N; [discriminate |].
    destruct (parseStringBody r) as [[b r'] |] eqn:Hr; [| discriminate].
    inversion H; subst. apply IH in Hr; simpl in *; lia.
Qed.

Lemma parseStringBody_length (s body rest : string) :
  parseStringBody s = Some (body, rest) ->
  (String.length rest < String.length s)%nat.
Proof. now apply (parseStringBody_length_bounded (String.length s)). Qed.

Lemma spanDigits_length (s : string) :
  forall ds rest, spanDigits s = (ds, rest) ->
  String.length s = (String.length ds + String.length rest)%nat.
Proof.
  induction s as [| c r IH]; intros ds rest H; simpl in H.
  - now inversion H.
  - destruct (isDigit c).
    + destruct (spanDigits r) as [ds' rest'] eqn:Hr. inversion H; subst.
      simpl. now rewrite (IH ds' rest).
    + inversion H; subst. reflexivity.
Qed.

Lemma parseFraction_length (s fs rest : string) :
  parseFraction s = Some (fs, rest) ->
  (String.length rest <= String.length s)%nat.
Proof.
  intros Hf. unfold parseFraction in Hf. destruct s as [| c r].
  - inversion Hf; subst. simpl. lia.
  - destruct (Ascii.eqb c ".").
    + destruct (spanDigits r) as [fs' rest'] eqn:Hfs.
      apply spanDigits_length in Hfs.
      destruct (nonEmpty fs'); inversion Hf; subst. simpl. lia.
    + inversion Hf; subst. lia.
Qed.

Lemma parseExpSign_length (s : string) :
  (String.length (snd (parseExpSign s)) <= String.length s)%nat.
Proof.
  unfold parseExpSign. destruct s as [| c r]; simpl; [lia |].
  destruct (Ascii.eqb c "-"); [simpl; lia |].
  destruct (Ascii.eqb c "+"); simpl; lia.
Qed.

Lemma parseExponent_length (s : string) (ex : Z) (rest : string) :
  parseExponent s = Some (ex, rest) ->
  (String.length rest <= String.length s)%nat.
Proof.
  intros He. unfold parseExponent in He. destruct s as [| c r].
  - inversion He; subst. simpl. lia.
  - destruct (Ascii.eqb c "e" || Ascii.eqb c "E").
    + pose proof (parseExpSign_length r) as Hs.
      destruct (parseExpSign r) as [sg' r']. simpl in Hs.
      destruct (spanDigits r') as [es rest'] eqn:Hesd.
      apply spanDigits_length in Hesd.
      destruct (nonEmpty es); inversion He; subst. simpl. lia.
    + inversion He; subst. lia.
Qed.

Lemma parseNumber_length (s : string) (v : jsval) (rest : string) :
  parseNumber s = Some (v, rest) ->
  (String.length rest < String.length s)%nat.
Proof.
  unfold parseNumber. intros H.
  destruct (parseSign s) as [sg r0] eqn:Hsign.
  assert (H0 : (String.length r0 <= String.length s)%nat).
  { unfold parseSign in Hsign. destruct s as [| c r].
    - inversion Hsign; subst. simpl. lia.
    - destruct (Ascii.eqb c "-"); inversion Hsign; subst; simpl; lia. }
  destruct (spanDigits r0) as [ds r1] eqn:Hds.
  apply spanDigits_length in Hds.
  destruct ds as [| d more]; [discriminate |].
  destruct (Ascii.eqb d "0" && nonEmpty more); [discriminate |].
  destruct (parseFraction r1) as [[fs r2] |] eqn:Hfrac; [| discriminate].
  apply parseFraction_length in Hfrac.
  destruct (parseExponent r2) as [[ex r3] |] eqn:Hexp; [| discriminate].
  apply parseExponent_length in Hexp. inversion H; subst. simpl in Hds. lia.
Qed.

Lemma stripPrefix_length (p s rest : string) :
  stripPrefix p s = Some rest ->
  String.length s = (String.length p + String.length rest)%nat.
Proof.
  revert s. induction p as [| c p IH]; intros s H; simpl in H.
  - now inversion H.
  - destruct s as [| d s]; [discriminate |].
    destruct (Ascii.eqb c d); [| discriminate].
    simpl. now rewrite (IH s H).
Qed.

Lemma parseLiteral_length (s : string) (v : jsval) (rest : string) :
  parseLiteral s = Some (v, rest) ->
  (String.length rest < String.length s)%nat.
Proof.
  unfold parseLiteral. intros H.
  destruct (stripPrefix "true" s) as [r |] eqn:Ht.
  { apply stripPrefix_length in Ht. inversion H; subst. simpl in Ht. lia. }
  destruct (stripPrefix "false" s) as [r |] eqn:Hf.
  { apply stripPrefix_length in Hf. inversion H; subst. simpl in Hf. lia. }
  destruct (stripPrefix "null" s) as [r |] eqn:Hn; [| discriminate].
  apply stripPrefix_length in Hn. inversion H; subst. simpl in Hn. lia.
Qed.

Lemma parseValue_S (fuel : nat) (c : ascii) (r : string) :
  parseValue (S fuel) (String c r)
  = if Ascii.eqb c "{" then
      match skipWs r with
      | String d r' =>
          if Ascii.eqb d "}" then Some (JObj [], r')
          else parseMembers fuel (String d r') []
      | EmptyString => None
      end
    else if Ascii.eqb c "[" then
      match skipWs r with
      | String d r' =>
          if Ascii.eqb d "]" then Some (JArr [], r')
          else parseElements fuel (String d r') []
      | EmptyString => None
      end
    else if Ascii.eqb c dq then
      match parseStringBody r with
      | Some (str, r') => Some (JStr str, r')
      | None => None
      end
    else if Ascii.eqb c "-" || isDigit c then parseNumber (String c r)
    else parseLiteral (String c r).
Proof. reflexivity. Qed.

Lemma parseElements_S (fuel : nat) (s : string) (acc : list jsval) :
  parseElements (S fuel) s acc
  = match parseValue fuel s with
    | Some (v, r) =>
        match skipWs r with
        | String d r' =>
            if Ascii.eqb d "," then parseElements fuel (skipWs r') (acc ++ [v])
            else if Ascii.eqb d "]" then Some (JArr (acc ++ [v]), r')
            else None
        | EmptyString => None
        end
    | None => None
    end.
Proof. reflexivity. Qed.

Lemma parseMembers_S (fuel : nat) (q : ascii) (r0 : string) (acc : jsobj) :
  parseMembers (S fuel) (String q r0) acc
  = if Ascii.eqb q dq then
      match parseStringBody r0 with
      | Some (k, r1) =>
          match skipWs r1 with
          | String d r2 =>
              if Ascii.eqb d ":" then
                match parseValue fuel (skipWs r2) with
                | Some (v, r3) =>
                    match skipWs r3 with
                    | String d' r4 =>
                        if Ascii.eqb d' "," then
                          parseMembers fuel (skipWs r4) (objDefine acc k v)
                        else if Ascii.eqb d' "}" then
                          Some (JObj (objDefine acc k v), r4)
                        else None
                    | EmptyString => None
                    end
                | None => None
                end
              else None
          | EmptyString => None
          end
      | None => None
      end
    else None.
Proof. reflexivity. Qed.

(** A successful parse consumes at least one character. *)
Lemma parse_shrinks (fuel : nat) :
  (forall s v r, parseValue fuel s = Some (v, r) ->
     (String.length r < String.length s)%nat)
  /\ (forall s acc v r, parseElements fuel s acc = Some (v, r) ->
        (String.length r < String.length s)%nat)
  /\ (forall s acc v r, parseMembers fuel s acc = Some (v, r) ->
        (String.length r < String.length s)%nat).
Proof.
  induction fuel as [| fuel (IHv & IHe & IHm)].
  { repeat split; intros; discriminate. }
  split; [| split].
  - intros s v r H. destruct s as [| c r0]; [discriminate |].
    rewrite parseValue_S in H.
    pose proof (skipWs_length r0) as Hws.
    destruct (Ascii.eqb c "{").
    { destruct (skipWs r0) as [| d r']; [discriminate |].
      destruct (Ascii.eqb d "}").
      - inversion H; subst. simpl in *. lia.
      - apply IHm in H. simpl in *. lia. }
    destruct (Ascii.eqb c "[").
    { destruct (skipWs r0) as [| d r']; [discriminate |].
      destruct (Ascii.eqb d "]").
      - inversion H; subst. simpl in *. lia.
      - apply IHe in H. simpl in *. lia. }
    destruct (Ascii.eqb c dq).
    { destruct (parseStringBody r0) as [[str r'] |] eqn:Hs; [| discriminate].
      apply parseStringBody_length in Hs. inversion H; subst. simpl. lia. }
    destruct (Ascii.eqb c "-" || isDigit c).
    + now apply parseNumber_length in H.
    + now apply parseLiteral_length in H.
  - intros s acc v r H. rewrite parseElements_S in H.
    destruct (parseValue fuel s) as [[v0 r0] |] eqn:Hv; [| discriminate].
    apply IHv in Hv. pose proof (skipWs_length r0) as Hws.
    destruct (skipWs r0) as [| d r']; [discriminate |].
    destruct (Ascii.eqb d ",").
    { apply IHe in H. pose proof (skipWs_length r') as Hws'. simpl in *. lia. }
    destruct (Ascii.eqb d "]"); [| discriminate].
    inversion H; subst. simpl in *. lia.
  - intros s acc v r H. destruct s as [| q r0]; [discriminate |].
    rewrite parseMembers_S in H.
    destruct (Ascii.eqb q dq); [| discriminate].
    destruct (parseStringBody r0) as [[k r1] |] eqn:Hk; [| discriminate].
    apply parseStringBody_length in Hk. pose proof (skipWs_length r1) as Hws1.
    destruct (skipWs r1) as [| d r2]; [discriminate |].
    destruct (Ascii.eqb d ":"); [| discriminate].
    pose proof (skipWs_length r2) as Hws2.
    destruct (parseValue fuel (skipWs r2)) as [[v0 r3] |] eqn:Hv; [| discriminate].
    apply IHv in Hv. pose proof (skipWs_length r3) as Hws3.
    destruct (skipWs r3) as [| d' r4]; [discriminate |].
    destruct (Ascii.eqb d' ",").
    { apply IHm in H. pose proof (skipWs_length r4) as Hws4. simpl in *. lia. }
    destruct (Ascii.eqb d' "}"); [| discriminate].
    inversion H; subst. simpl in *. lia.
Qed.

(** Above twice the length of the text, more fuel changes nothing. *)
Lemma parse_stable (fuel : nat) :
  (forall s, (2 * String.length s < fuel)%nat ->
     parseValue fuel s = parseValue (S fuel) s)
  /\ (forall s acc, (2 * String.length s + 1 < fuel)%nat ->
        parseElements fuel s acc = parseElements (S fuel) s acc)
  /\ (forall s acc, (2 * String.length s + 1 < fuel)%nat ->
        parseMembers fuel s acc = parseMembers (S fuel) s acc).
Proof.
  induction fuel as [| fuel (IHv & IHe & IHm)].
  { repeat split; intros; lia. }
  split; [| split].
  - intros s Hlen. destruct s as [| c r0]; [reflexivity |].
    rewrite !parseValue_S. pose proof (skipWs_length r0) as Hws.
    destruct (Ascii.eqb c "{").
    { destruct (skipWs r0) as [| d r']; [reflexivity |].
      destruct (Ascii.eqb d "}"); [reflexivity |].
      apply IHm. simpl in *. lia. }
    destruct (Ascii.eqb c "["); [| reflexivity].
    destruct (skipWs r0) as [| d r']; [reflexivity |].
    destruct (Ascii.eqb d "]"); [reflexivity |].
    apply IHe. simpl in *. lia.
  - intros s acc Hlen. rewrite !parseElements_S.
    rewrite <- (IHv s) by lia.
    destruct (parseValue fuel s) as [[v0 r0] |] eqn:Hv; [| reflexivity].
    apply (proj1 (parse_shrinks fuel)) in Hv.
    pose proof (skipWs_length r0) as Hws.
    destruct (skipWs r0) as [| d r']; [reflexivity |].
    destruct (Ascii.eqb d ","); [| reflexivity].
    apply IHe. pose proof (skipWs_length r') as Hws'. simpl in *. lia.
  - intros s acc Hlen. destruct s as [| q r0]; [reflexivity |].
    rewrite !parseMembers_S.
    destruct (Ascii.eqb q dq); [| reflexivity].
    destruct (parseStringBody r0) as [[k r1] |] eqn:Hk; [| reflexivity].
    apply parseStringBody_length in Hk. pose proof (skipWs_length r1) as Hws1.
    destruct (skipWs r1) as [| d r2]; [reflexivity |].
    destruct (Ascii.eqb d ":"); [| reflexivity].
    pose proof (skipWs_length r2) as Hws2.
    rewrite <- (IHv (skipWs r2)) by (simpl in *; lia).
    destruct (parseValue fuel (skipWs r2)) as [[v0 r3] |] eqn:Hv; [| reflexivity].
    apply (proj1 (parse_shrinks fuel)) in Hv.
    pose proof (skipWs_length r3) as Hws3.
    destruct (skipWs r3) as [| d' r4]; [reflexivity |].
    destruct (Ascii.eqb d' ","); [| reflexivity].
    apply IHm. pose proof (skipWs_length r4) as Hws4. simpl in *. lia.
Qed.

(** [JSON_parse] does not depend on its fuel: any larger amount gives the
    same value or the same syntax error. *)
Lemma JSON_parse_fuel (text : string) (extra : nat) :
  parseValue (2 * String.length text + 2 + extra) (skipWs text)
  = parseValue (2 * String.length text + 2) (skipWs text).
Proof.
  induction extra as [| extra IH]; [now rewrite Nat.add_0_r |].
  rewrite <- IH. replace (2 * String.length text + 2 + S extra)%nat
    with (S (2 * String.length text + 2 + extra)) by lia.
  symmetry. apply (proj1 (parse_stable _)).
  pose proof (skipWs_length text). lia.
Qed.

(** ** The transformation is total on rows of strings *)

Lemma formatDate_string (s : string) : exists x, formatDate (JStr s) = Ok x.
Proof.
  unfold formatDate.
  destruct (negb (truthy (JStr s))); [eauto |].
  destruct (negb (nonEmpty (trim s))); [eauto |].
  destruct (split "/" s) as [| p0 [| p1 [| p2 [| p3 ps]]]]; eauto.
Qed.

Lemma arrayValue_string (key s : string) : exists x, arrayValue key (JStr s) = Ok x.
Proof. unfold arrayValue. destruct (includes intArrayFields key); eauto. Qed.

Lemma fieldValue_string (key s : string) : exists x, fieldValue key (JStr s) = Ok x.
Proof.
  unfold fieldValue.
  destruct (String.eqb key "meta"); [eauto |].
  destruct (includes arrayFields key); [apply arrayValue_string |].
  destruct (includes dateFields key); [apply formatDate_string | eauto].
Qed.

Lemma forIn_total (row : jsobj) :
  allStrings row = true -> forall p, exists p', forIn row p = Ok p'.
Proof.
  induction row as [| [key v] rest IH]; intros Hs p; simpl.
  - eauto.
  - simpl in Hs. apply andb_true_iff in Hs as [Hv Hrest].
    destruct v; try discriminate.
    destruct (isEmptyString (JStr s)); [now apply IH |].
    destruct (fieldValue_string key s) as [x Hx]. rewrite Hx. simpl.
    now apply IH.
Qed.

(** C4: on every row whose values are all strings, [mapRowToPayload]
    throws nothing and returns a payload, whatever the dates, array values
    and meta text look like. *)
Theorem mapRowToPayload_total (env : Env) (row : jsobj) :
  allStrings row = true -> exists payload, mapRowToPayload env row = Ok payload.
Proof.
  intros Hs. unfold mapRowToPayload.
  destruct (forIn_total row Hs emptyPayload) as [p Hp].
  rewrite Hp. simpl. eauto.
Qed.

Lemma mapRowToPayload_total_witness :
  allStrings garbledRow = true
  /\ exists payload, mapRowToPayload bareEnv garbledRow = Ok payload.
Proof.
  split; [reflexivity |].
  apply (mapRowToPayload_total bareEnv garbledRow). reflexivity.
Defined.

(** ** What the loop stores under a key *)

Lemma payloadSet_own_ne (p : Payload) (k k' : string) (v : jsval) :
  k <> k' -> own (payloadSet p k v) !! k' = own p !! k'.
Proof.
  intros Hne. unfold payloadSet.
  destruct (String.eqb k "__proto__").
  - destruct v; reflexivity.
  - simpl. now apply lookup_insert_ne.
Qed.

Lemma payloadSet_own_eq (p : Payload) (k : string) (v : jsval) :
  k <> "__proto__" -> own (payloadSet p k v) !! k = Some v.
Proof.
  intros Hne. unfold payloadSet.
  rewrite (eqb_string_false _ _ Hne). simpl. apply lookup_insert_eq.
Qed.

Lemma forIn_own_notin (row : jsobj) (key : string) :
  ~ In key (map fst row) ->
  forall p p', forIn row p = Ok p' -> own p' !! key = own p !! key.
Proof.
  induction row as [| [k v] rest IH]; intros Hnin p p' Hrun; simpl in *.
  - now inversion Hrun.
  - assert (Hk : k <> key) by tauto.
    assert (Hrest : ~ In key (map fst rest)) by tauto.
    destruct (isEmptyString v); [now apply IH |].
    destruct (fieldValue k v) as [x | e]; simpl in Hrun; [| discriminate].
    rewrite (IH Hrest _ _ Hrun). now apply payloadSet_own_ne.
Qed.

Lemma forIn_own_in (row : jsobj) (key : string) (v : jsval) :
  NoDup (map fst row) -> In (key, v) row ->
  isEmptyString v = false -> key <> "__proto__" ->
  forall p p', forIn row p = Ok p' ->
  exists x, fieldValue key v = Ok x /\ own p' !! key = Some x.
Proof.
  induction row as [| [k w] rest IH]; intros Hnd Hin Hne Hkey p p' Hrun;
    simpl in *; [contradiction |].
  apply NoDup_cons in Hnd as [Hfresh Hnd].
  destruct Hin as [Heq | Hin].
  - inversion Heq; subst k w. rewrite Hne in Hrun.
    destruct (fieldValue key v) as [x | e]; simpl in Hrun; [| discriminate].
    exists x. split; [reflexivity |].
    rewrite (forIn_own_notin rest key) with (p := payloadSet p key x) (p' := p').
    + now apply payloadSet_own_eq.
    + intros Hin. apply Hfresh. now apply list_elem_of_In.
    + exact Hrun.
  - destruct (isEmptyString w); [now apply (IH Hnd Hin Hne Hkey p) |].
    destruct (fieldValue k w) as [x | e]; simpl in Hrun; [| discriminate].
    now apply (IH Hnd Hin Hne Hkey (payloadSet p k x)).
Qed.

Lemma override_own (name key : string) (value : option string)
    (wrap : string -> jsval) (p : Payload) :
  String.eqb key name && isSet value = false ->
  own (override name value wrap p) !! key = own p !! key.
Proof.
  intros H. unfold override.
  destruct value as [s |]; [| reflexivity].
  simpl in H. destruct (nonEmpty s); [| reflexivity].
  rewrite andb_true_r in H. apply payloadSet_own_ne.
  intros ->. now rewrite String.eqb_refl in H.
Qed.

Lemma applyOverrides_own (env : Env) (p : Payload) (key : string) :
  overridden env key = false ->
  own (applyOverrides env p) !! key = own p !! key.
Proof.
  unfold overridden. intros H.
  repeat (apply orb_false_iff in H as [H ?]).
  unfold applyOverrides. now rewrite !override_own.
Qed.

(** The value that [mapRowToPayload] stores for a field of a row of
    strings, when the environment does not replace it. *)
Lemma mapRowToPayload_field (env : Env) (row : jsobj) (key s : string) :
  allStrings row = true -> NoDup (map fst row) -> In (key, JStr s) row ->
  s <> EmptyString -> key <> "__proto__" -> overridden env key = false ->
  exists payload x,
    mapRowToPayload env row = Ok payload
    /\ fieldValue key (JStr s) = Ok x
    /\ own payload !! key = Some x.
Proof.
  intros Hs Hnd Hin Hne Hkey Hov.
  destruct (forIn_total row Hs emptyPayload) as [p Hp].
  assert (He : isEmptyString (JStr s) = false) by (destruct s; [contradiction | reflexivity]).
  destruct (forIn_own_in row key (JStr s) Hnd Hin He Hkey _ _ Hp) as [x [Hx Hl]].
  exists (applyOverrides env p), x. unfold mapRowToPayload. rewrite Hp. simpl.
  repeat split; [exact Hx |]. now rewrite applyOverrides_own.
Qed.

(** ** The meta field *)

(** C3: on the meta text [{gender: Male, age: 30}] the first strategy
    succeeds, and the payload stores its result, in which every value keeps
    the space that follows the colon; only the second strategy, which is
    not reached, would give the trimmed values. *)
Theorem meta_example_keeps_leading_spaces (env : Env) :
  exists payload,
    mapRowToPayload env metaRow = Ok payload
    /\ own payload !! "meta"
       = Some (JObj [("gender", JStr " Male"); ("age", JStr " 30")])
    /\ strategyA (JStr "{gender: Male, age: 30}")
       = Some (JObj [("gender", JStr " Male"); ("age", JStr " 30")])
    /\ strategyB (JStr "{gender: Male, age: 30}")
       = Some (JObj [("gender", JStr "Male"); ("age", JStr "30")]).
Proof.
  destruct (mapRowToPayload_field env metaRow "meta" "{gender: Male, age: 30}")
    as (payload & x & Hrun & Hx & Hl).
  - reflexivity.
  - apply NoDup_singleton.
  - now left.
  - discriminate.
  - discriminate.
  - reflexivity.
  - exists payload. split; [exact Hrun |]. split.
    + rewrite Hl. f_equal. vm_compute in Hx. now inversion Hx.
    + split; vm_compute; reflexivity.
Qed.

(** When both strategies throw, the raw value is stored unchanged; on a
    string the second strategy never throws, so this branch is taken for
    values that are not strings only. *)
Lemma metaValue_fallback (v : jsval) :
  strategyA v = None -> strategyB v = None -> metaValue v = v.
Proof. intros HA HB. unfold metaValue. now rewrite HA, HB. Qed.

Lemma strategyB_string (s : string) : exists o, strategyB (JStr s) = Some (JObj o).
Proof. simpl. eauto. Qed.

Example meta_unparsable_text :
  metaValue (JStr "hello") = JObj [] /\ metaValue (JNum 5 0) = JNum 5 0.
Proof. split; vm_compute; reflexivity. Qed.

(** ** Array fields *)


(** C9: a string-array field is split on commas first, and every piece is
    then stripped of one leading and one trailing bracket and trimmed, so
    that the text [[a, b],c] gives the three items a, b and c. *)
Theorem string_array_split_before_strip (env : Env) (row : jsobj) (key : string) :
  In key ["products"; "tags"] ->
  overridden env key = false ->
  allStrings row = true ->
  NoDup (map fst row) ->
  (forall s, s <> EmptyString -> In (key, JStr s) row ->
     exists payload,
       mapRowToPayload env row = Ok payload
       /\ own payload !! key
          = Some (JArr (map JStr (map cleanArrayValue (split "," s)))))
  /\ split "," "[a, b],c" = ["[a"; " b]"; "c"]
  /\ map cleanArrayValue ["[a"; " b]"; "c"] = ["a"; "b"; "c"]
  /\ (In (key, JStr "[a, b],c") row ->
      exists payload,
        mapRowToPayload env row = Ok payload
        /\ own payload !! key = Some (JArr [JStr "a"; JStr "b"; JStr "c"])).
Proof.
  intros Hkey Hov Hs Hnd.
  assert (Hgen : forall s, s <> EmptyString -> In (key, JStr s) row ->
     exists payload,
       mapRowToPayload env row = Ok payload
       /\ own payload !! key
          = Some (JArr (map JStr (map cleanArrayValue (split "," s))))).
  { intros s Hne Hin.
    destruct (mapRowToPayload_field env row key s Hs Hnd Hin Hne)
      as (payload & x & Hrun & Hx & Hl).
    - destruct Hkey as [Hk | [Hk | []]]; subst key; discriminate.
    - exact Hov.
    - exists payload. split; [exact Hrun |]. rewrite Hl. f_equal.
      destruct Hkey as [Hk | [Hk | []]]; subst key; cbn in Hx; now inversion Hx. }
  split; [exact Hgen |].
  split; [reflexivity |]. split; [reflexivity |].
  intros Hin. apply (Hgen "[a, b],c"); [discriminate | exact Hin].
Qed.

Lemma string_array_split_before_strip_witness :
  exists payload,
    mapRowToPayload bareEnv productsRow = Ok payload
    /\ own payload !! "products" = Some (JArr [JStr "a"; JStr "b"; JStr "c"]).
Proof.
  destruct (string_array_split_before_strip bareEnv productsRow "products")
    as (_ & _ & _ & H).
  - now left.
  - reflexivity.
  - reflexivity.
  - distinct_keys.
  - apply H. right. now left.
Defined.

(** ** Integer arrays *)






(** Numbers: the integers below 2^53 are doubles. *)

Lemma lowest_shiftl (j : nat) (z : positive) :
  JsNumber.lowest (Pos.shiftl_nat z j) j = (z, 0%nat).
Proof.
  induction j as [| j IH]; simpl.
  - now destruct z.
  - exact IH.
Qed.

Lemma shiftl_nat_value (j : nat) (z : positive) :
  Zpos (Pos.shiftl_nat z j) = Zpos z * 2 ^ Z.of_nat j.
Proof.
  induction j as [| j IH].
  - simpl. lia.
  - rewrite Nat2Z.inj_succ, Z.pow_succ_r by lia.
    change (Pos.shiftl_nat z (S j)) with (xO (Pos.shiftl_nat z j)).
    rewrite Pos2Z.inj_xO, IH. lia.
Qed.

Lemma roundHalfEven_integer (n : Z) : JsNumber.roundHalfEven n 1 = n.
Proof.
  unfold JsNumber.roundHalfEven. rewrite Z.div_1_r, Z.mod_1_r. reflexivity.
Qed.

Lemma binaryExponent_integer (z : Z) :
  0 < z -> JsNumber.binaryExponent z 1 = Z.log2 z.
Proof.
  intros Hz. unfold JsNumber.binaryExponent, JsNumber.pow2.
  simpl Z.log2. rewrite Z.sub_0_r.
  pose proof (Z.log2_nonneg z) as Hk.
  rewrite (Z.max_l 0 (- Z.log2 z)) by lia.
  rewrite (Z.max_r 0 (Z.log2 z)) by lia.
  destruct (Z.log2_spec z Hz) as [Hlo _].
  destruct (Z.ltb_spec (z * 2 ^ 0) (1 * 2 ^ Z.log2 z)) as [H |]; [| reflexivity].
  rewrite Z.pow_0_r, Z.mul_1_r, Z.mul_1_l in H. lia.
Qed.

Lemma ofRational_integer (negative : bool) (z : Z) :
  0 <= z < 2 ^ 53 ->
  JsNumber.ofRational negative z 1
  = JNum ((if negative then -1 else 1) * z) 0.
Proof.
  intros [Hlo Hhi].
  destruct (Z.eq_dec z 0) as [-> | Hz].
  { destruct negative; reflexivity. }
  assert (Hpos : 0 < z) by lia.
  unfold JsNumber.ofRational, JsNumber.nearest.
  rewrite (binaryExponent_integer z Hpos).
  assert (Hk : 0 <= Z.log2 z < 53).
  { split; [apply Z.log2_nonneg |]. apply Z.log2_lt_pow2; lia. }
  rewrite (Z.max_l (Z.log2 z - 52) (-1074)) by lia.
  unfold JsNumber.pow2.
  rewrite (Z.max_r 0 (- (Z.log2 z - 52))) by lia.
  rewrite (Z.max_l 0 (Z.log2 z - 52)) by lia.
  change (1 * 2 ^ 0) with 1. rewrite roundHalfEven_integer.
  destruct (Z.leb_spec 0 (Z.log2 z - 52)) as [Hex | Hex].
  - replace (Z.log2 z - 52) with 0 by lia.
    replace (- 0) with 0 by lia. rewrite Z.pow_0_r, !Z.mul_1_r.
    destruct (Z.leb_spec (2 ^ 1024) z) as [Hbig | _].
    + assert (2 ^ 53 < 2 ^ 1024) by (apply Z.pow_lt_mono_r; lia). lia.
    + reflexivity.
  - destruct z as [| zp |]; try lia.
    set (j := Z.to_nat (- (Z.log2 (Z.pos zp) - 52))).
    replace (- (Z.log2 (Z.pos zp) - 52)) with (Z.of_nat j) by (subst j; lia).
    rewrite <- shiftl_nat_value, lowest_shiftl.
    change (Z.of_nat 0) with 0. rewrite Z.pow_0_r, Z.mul_1_r. reflexivity.
Qed.



(** Numerals at the edges of the doubles: a fraction that is no double, a
    tie at 2^53, a power of ten, the overflow to an infinity and the
    underflow to zero; and the numbers and the key order of a parsed
    object. *)
Example ofDecimal_samples :
  JsNumber.ofDecimal false 1 (-1)
  = JNum 1000000000000000055511151231257827021181583404541015625 (-55)
  /\ JsNumber.ofDecimal false 150 (-2) = JNum 15 (-1)
  /\ JsNumber.ofDecimal false 9007199254740995 0 = JNum 9007199254740996 0
  /\ JsNumber.ofDecimal false 1 23 = JNum 99999999999999991611392 0
  /\ JsNumber.ofDecimal false 17976931348623159 292 = JInf false
  /\ JsNumber.ofDecimal true 1 400 = JInf true
  /\ JsNumber.ofDecimal false 2 (-324) = JNum 0 0.
Proof. repeat split; vm_compute; reflexivity. Qed.

Example JSON_parse_numbers :
  JSON_parse ("{" ++ quoteMark ++ "b" ++ quoteMark ++ ":1.50,"
              ++ quoteMark ++ "1" ++ quoteMark ++ ":-2e0}")
  = Some (JObj [("1", JNum (-2) 0); ("b", JNum 15 (-1))]).
Proof. vm_compute. reflexivity. Qed.

Lemma digitVal_digit (c : ascii) : isDigit c = true -> 0 <= digitVal c <= 9.
Proof.
  destruct c as [[] [] [] [] [] [] [] []]; vm_compute; intuition congruence.
Qed.

Lemma digitsValue_nonneg (ds : string) :
  forall acc, allDigits ds = true -> 0 <= acc -> 0 <= digitsValue acc ds.
Proof.
  induction ds as [| c ds IH]; intros acc Hd Hacc; simpl in *; [exact Hacc |].
  apply andb_true_iff in Hd as [Hc Hd]. apply IH; [exact Hd |].
  pose proof (digitVal_digit c Hc). lia.
Qed.










(** ** The sequential upload loop *)

Import Upload.

Section UploadLoop.

Variable World : Type.
Variable axios_post : World -> Payload -> PostResult * World.
Variable env : Env.

#[local] Abbreviation createCase := (createCase World axios_post env).
#[local] Abbreviation step := (step World axios_post env).
#[local] Abbreviation loopFrom := (loopFrom World axios_post env).
#[local] Abbreviation submitAll := (submitAll World axios_post env).

Lemma delays_app (a b : list event) : delays (a ++ b) = (delays a + delays b)%nat.
Proof. unfold delays. now rewrite List.filter_app, length_app. Qed.

Lemma posts_app (a b : list event) : posts (a ++ b) = (posts a + posts b)%nat.
Proof. unfold posts. now rewrite List.filter_app, length_app. Qed.

Lemma errorMsg_mkError (msg : string) : errorMsg (mkError msg) = JStr msg.
Proof. reflexivity. Qed.

(** An absent property of a payload with the initial prototype fails the
    test of the validation. *)
Lemma lacks_absent (p : Payload) (key : string) :
  own p !! key = None -> proto p = JUndef -> lacks p key = true.
Proof.
  intros Hown Hproto. unfold lacks, payloadGet. now rewrite Hown, Hproto.
Qed.

(** A row that fails the transformation or the validation is answered
    without a remote call. *)
Lemma createCase_invalid (row : jsobj) (error : jsobj) (i : nat) (w : World) :
  validated env row = Throw error ->
  createCase row i w = (CaseFailed i (errorMsg error), w, [EConsoleError (i + 1)]).
Proof. intros H. unfold Upload.createCase. now rewrite H. Qed.

(** What one call of [createCase] hands back. *)
Lemma createCase_summary (row : jsobj) (i : nat) (w : World) :
  exists result w' ev,
    createCase row i w = (result, w', ev)
    /\ caseIndex result = i
    /\ delays ev = 0%nat
    /\ posts ev = (if validates env row then 1 else 0)%nat
    /\ exists tr e, ev = (tr ++ [e])%list /\ isDelay e = false.
Proof.
  unfold Upload.createCase, validates.
  destruct (validated env row) as [payload | error].
  - destruct (axios_post w payload) as [[data | error] w'].
    + exists (CaseOk i data), w', [EPost payload].
      repeat split. now exists [], (EPost payload).
    + exists (CaseFailed i (errorMsg error)), w',
        [EPost payload; EConsoleError (i + 1)].
      repeat split. now exists [EPost payload], (EConsoleError (i + 1)).
  - exists (CaseFailed i (errorMsg error)), w, [EConsoleError (i + 1)].
    repeat split. now exists [], (EConsoleError (i + 1)).
Qed.

Lemma loopFrom_app (total i : nat) (pre post : list jsobj) (st : LoopState World) :
  loopFrom total i (pre ++ post) st
  = loopFrom total (i + length pre) post (loopFrom total i pre st).
Proof.
  revert i st. induction pre as [| row pre IH]; intros i st; simpl.
  - now rewrite Nat.add_0_r.
  - rewrite IH. f_equal. lia.
Qed.

(** The accounting invariant of the loop: what it appends to [processed]
    and [failures] is one result per remaining row. *)
Lemma loopFrom_accounting (total : nat) (rest : list jsobj) :
  forall (i : nat) (st : LoopState World),
  exists P F,
    processed (loopFrom total i rest st) = (processed st ++ P)%list
    /\ failures (loopFrom total i rest st) = (failures st ++ F)%list
    /\ Forall (fun r => success r = true) P
    /\ Forall (fun r => success r = false) F
    /\ Permutation (map caseIndex P ++ map caseIndex F) (seq i (length rest))
    /\ forall j row, rest !! j = Some row ->
         exists w, In (fst (fst (createCase row (i + j) w))) (P ++ F).
Proof.
  induction rest as [| row rest IH]; intros i st.
  - exists [], []. simpl. rewrite !app_nil_r.
    do 5 (split; [constructor |]). intros j r Hj. discriminate.
  - cbn [Upload.loopFrom].
    destruct (IH (S i) (step total i row st)) as (P & F & HP & HF & HsP & HsF & Hperm & Hatt).
    destruct (createCase_summary row i (world st)) as (result & w' & ev & Hc & Hidx & _).
    assert (Hp1 : processed (step total i row st)
                  = if success result then (processed st ++ [result])%list
                    else processed st)
      by (unfold Upload.step; now rewrite Hc).
    assert (Hf1 : failures (step total i row st)
                  = if success result then failures st
                    else (failures st ++ [result])%list)
      by (unfold Upload.step; now rewrite Hc).
    rewrite Hp1 in HP. rewrite Hf1 in HF.
    destruct (success result) eqn:Hsucc.
    + exists (result :: P), F. rewrite HP, HF, <- app_assoc. simpl.
      repeat split; trivial.
      * now constructor.
      * rewrite Hidx. now constructor.
      * intros [| j] r Hj; simpl in Hj.
        -- inversion Hj; subst r. exists (world st).
           rewrite Nat.add_0_r, Hc. now left.
        -- destruct (Hatt j r Hj) as [w Hw]. exists w.
           replace (i + S j)%nat with (S i + j)%nat by lia. now right.
    + exists P, (result :: F). rewrite HP, HF, <- app_assoc. simpl.
      repeat split; trivial.
      * now constructor.
      * rewrite Hidx. symmetry. apply Permutation_cons_app. now symmetry.
      * intros [| j] r Hj; simpl in Hj.
        -- inversion Hj; subst r. exists (world st).
           rewrite Nat.add_0_r, Hc. apply in_or_app. right. now left.
        -- destruct (Hatt j r Hj) as [w Hw]. exists w.
           replace (i + S j)%nat with (S i + j)%nat by lia.
           apply in_app_or in Hw as [Hw | Hw]; apply in_or_app;
             [now left | right; now right].
Qed.

(** What one turn adds to the trace. *)
Lemma step_counts (total i : nat) (row : jsobj) (st : LoopState World) :
  delays (trace (step total i row st))
  = (delays (trace st) + if (i <? total - 1)%nat then 1 else 0)%nat
  /\ posts (trace (step total i row st))
     = (posts (trace st) + if validates env row then 1 else 0)%nat.
Proof.
  destruct (createCase_summary row i (world st))
    as (result & w' & ev & Hc & _ & Hd & Hp & _).
  unfold Upload.step. rewrite Hc. cbn [trace].
  rewrite !delays_app, !posts_app, Hd, Hp.
  destruct (i <? total - 1)%nat, ((i + 1) mod 10 =? 0)%nat,
    (validates env row); split; reflexivity || (cbn; lia).
Qed.

(** The pacing invariant: after [rest] the loop has paused once for every
    index below [total - 1] that it went through. *)
Lemma loopFrom_delays (total : nat) (rest : list jsobj) :
  forall (i : nat) (st : LoopState World),
  delays (trace (loopFrom total i rest st))
  = (delays (trace st)
     + (Nat.min (i + length rest) (total - 1) - Nat.min i (total - 1)))%nat.
Proof.
  induction rest as [| row rest IH]; intros i st; cbn [Upload.loopFrom length].
  - rewrite Nat.add_0_r. lia.
  - rewrite IH. destruct (step_counts total i row st) as [-> _].
    destruct (Nat.ltb_spec i (total - 1)); lia.
Qed.

Lemma loopFrom_posts (total : nat) (rest : list jsobj) :
  forall (i : nat) (st : LoopState World),
  posts (trace (loopFrom total i rest st))
  = (posts (trace st) + length (List.filter (validates env) rest))%nat.
Proof.
  induction rest as [| row rest IH]; intros i st;
    cbn [Upload.loopFrom List.filter].
  - simpl. lia.
  - rewrite IH. destruct (step_counts total i row st) as [_ ->].
    destruct (validates env row); simpl; lia.
Qed.

(** Every pause of the loop lasts [RATE_LIMIT_DELAY]. *)
Lemma loopFrom_paced (total : nat) (rest : list jsobj) :
  forall (i : nat) (st : LoopState World),
  paced (trace st) -> paced (trace (loopFrom total i rest st)).
Proof.
  induction rest as [| row rest IH]; intros i st Hst; cbn [Upload.loopFrom];
    [exact Hst |].
  apply IH. unfold Upload.step, Upload.createCase.
  destruct (validated env row) as [payload | error].
  - destruct (axios_post (world st) payload) as [[data | error] w'];
      cbn [trace]; unfold paced; rewrite !Forall_app;
      destruct (i <? total - 1)%nat, ((i + 1) mod 10 =? 0)%nat;
      repeat split; trivial; repeat constructor.
  - cbn [trace]; unfold paced; rewrite !Forall_app;
      destruct (i <? total - 1)%nat, ((i + 1) mod 10 =? 0)%nat;
      repeat split; trivial; repeat constructor.
Qed.

(** The last thing the loop does is never a pause. *)
Lemma loopFrom_last (total : nat) (rest : list jsobj) :
  forall (i : nat) (st : LoopState World),
  rest <> [] -> (i + length rest = total)%nat ->
  exists tr e, trace (loopFrom total i rest st) = (tr ++ [e])%list
               /\ isDelay e = false.
Proof.
  induction rest as [| row rest IH]; intros i st Hne Hlen; [contradiction |].
  cbn [Upload.loopFrom]. destruct rest as [| row' rest].
  - cbn [Upload.loopFrom].
    destruct (createCase_summary row i (world st))
      as (result & w' & ev & Hc & _ & _ & _ & tr & e & Hev & He).
    unfold Upload.step. rewrite Hc. cbn [trace]. simpl in Hlen.
    replace (i <? total - 1)%nat with false
      by (symmetry; apply Nat.ltb_ge; lia).
    subst ev. destruct ((i + 1) mod 10 =? 0)%nat.
    + exists (trace st ++ tr ++ [e])%list, (EConsoleLog (i + 1) total).
      split; [| reflexivity]. cbn [app]. now rewrite <- !app_assoc.
    + exists (trace st ++ tr)%list, e. split; [| exact He].
      cbn [app]. now rewrite !app_nil_r, <- !app_assoc.
  - apply IH; [discriminate | simpl in *; lia].
Qed.

(** C1: the upload loop attempts every row and records its result in
    exactly one of the success and failure lists: the two lists together
    hold each row index once, so their lengths add up to the number of
    rows, and no failure, of the validation or of the remote call, keeps a
    later row from being attempted. *)
Theorem submitAll_accounts_for_every_row (results : list jsobj) (w : World) :
  let st := submitAll results w in
  (length (processed st) + length (failures st))%nat = length results
  /\ Permutation (map caseIndex (processed st) ++ map caseIndex (failures st))
       (seq 0 (length results))
  /\ Forall (fun r => success r = true) (processed st)
  /\ Forall (fun r => success r = false) (failures st)
  /\ forall i row, results !! i = Some row ->
       exists w_i,
         In (fst (fst (createCase row i w_i))) (processed st ++ failures st).
Proof.
  intros st. subst st. unfold Upload.submitAll.
  destruct (loopFrom_accounting (length results) results 0 (initial w))
    as (P & F & HP & HF & HsP & HsF & Hperm & Hatt).
  rewrite HP, HF. simpl.
  repeat split; trivial.
  apply Permutation_length in Hperm.
  rewrite length_app, !length_map, length_seq in Hperm. exact Hperm.
Qed.

(** What the turn of one row adds to the trace: what [createCase] did for
    the row, which is something and holds no pause, then the pause unless
    the row is the last one, then the progress line. *)
Lemma loopFrom_turn (total : nat) (pre : list jsobj) (row : jsobj)
    (st : LoopState World) :
  let i := length pre in
  let mid := loopFrom total 0 pre st in
  let ev := snd (createCase row i (world mid)) in
  trace (loopFrom total 0 (pre ++ [row]) st)
  = (trace mid ++ ev
     ++ (if (i <? total - 1)%nat then [EDelay RATE_LIMIT_DELAY] else [])
     ++ (if ((i + 1) mod 10 =? 0)%nat then [EConsoleLog (i + 1) total] else []))%list
  /\ ev <> [] /\ delays ev = 0%nat.
Proof.
  cbv zeta. rewrite loopFrom_app. cbn [Upload.loopFrom Nat.add].
  destruct (createCase_summary row (length pre) (world (loopFrom total 0 pre st)))
    as (result & w' & ev & Hc & _ & Hd & _ & tr & e & Hev & _).
  unfold Upload.step. rewrite Hc. cbn [trace snd].
  split; [reflexivity |]. split; [| exact Hd].
  subst ev. now destruct tr.
Qed.

(** C5: on a batch of N rows, N at least 1, the loop pauses N - 1 times,
    once after each row except the last: the turn of a row appends to the
    trace what [createCase] did for that row, then one pause when rows
    remain and none after the last row, then the progress line; so after
    the first k rows it has paused min k (N - 1) times, whether the rows
    succeeded or failed, the last thing it does is not a pause, and every
    pause lasts [RATE_LIMIT_DELAY]. *)
Theorem pacing_after_every_row_but_the_last (results : list jsobj) (w : World) :
  (1 <= length results)%nat ->
  let st := submitAll results w in
  (delays (trace st) + 1)%nat = length results
  /\ (forall pre post, results = (pre ++ post)%list ->
      let mid := loopFrom (length results) 0 pre (initial w) in
      st = loopFrom (length results) (length pre) post mid
      /\ delays (trace mid) = Nat.min (length pre) (length results - 1))
  /\ (forall pre row post, results = (pre ++ row :: post)%list ->
      let i := length pre in
      let mid := loopFrom (length results) 0 pre (initial w) in
      let ev := snd (createCase row i (world mid)) in
      trace (loopFrom (length results) 0 (pre ++ [row]) (initial w))
      = (trace mid ++ ev
         ++ (match post with
             | [] => []
             | _ :: _ => [EDelay RATE_LIMIT_DELAY]
             end)
         ++ (if ((i + 1) mod 10 =? 0)%nat
             then [EConsoleLog (i + 1) (length results)] else []))%list
      /\ ev <> [] /\ delays ev = 0%nat)
  /\ (exists tr e, trace st = (tr ++ [e])%list /\ isDelay e = false)
  /\ paced (trace st).
Proof.
  intros Hn st. subst st. unfold Upload.submitAll.
  split; [| split; [| split; [| split]]]; [| | | | apply loopFrom_paced; constructor].
  - rewrite loopFrom_delays. simpl. lia.
  - intros pre post Heq. cbv zeta. split.
    + rewrite Heq at 2. now rewrite loopFrom_app.
    + rewrite loopFrom_delays. simpl. lia.
  - intros pre row post Heq. cbv zeta.
    destruct (loopFrom_turn (length results) pre row (initial w))
      as (Htrace & Hev & Hd).
    split; [| now split]. rewrite Htrace. do 2 f_equal.
    assert (Hlen : length results = (length pre + S (length post))%nat)
      by (rewrite Heq, length_app; reflexivity).
    destruct post as [| row' post].
    + replace (length pre <? length results - 1)%nat with false
        by (symmetry; apply Nat.ltb_ge; simpl in Hlen; lia).
      reflexivity.
    + replace (length pre <? length results - 1)%nat with true
        by (symmetry; apply Nat.ltb_lt; simpl in Hlen; lia).
      reflexivity.
  - apply loopFrom_last; [| reflexivity].
    intros ->. simpl in Hn. lia.
Qed.

(** C2: a row whose payload lacks the litigation identifier, or has it and
    lacks the status identifier, is recorded as a failure whose message
    names that field, and [createCase] makes no remote call for it: the
    world is unchanged, the only thing done is the error log, and the
    remote calls of the batch are those of the rows that pass the
    validation. *)
Theorem missing_identifier_fails_without_create (results : list jsobj)
    (w : World) (i : nat) (row : jsobj) (payload : Payload) :
  results !! i = Some row ->
  mapRowToPayload env row = Ok payload ->
  lacks payload "litigation_id" || lacks payload "status_id" = true ->
  let field :=
    if lacks payload "litigation_id" then "litigation_id" else "status_id" in
  let error := JStr ("Missing required field: " ++ field) in
  let st := submitAll results w in
  (forall j w', createCase row j w'
                = (CaseFailed j error, w', [EConsoleError (j + 1)]))
  /\ In (CaseFailed i error) (failures st)
  /\ In ((i + 1)%nat, error) (failureRows (report (length results) st))
  /\ validates env row = false
  /\ posts (trace st) = length (List.filter (validates env) results).
Proof.
  intros Hrow Hmap Hlack field error st.
  assert (Hval : validated env row = Throw (mkError ("Missing required field: " ++ field))).
  { unfold validated. rewrite Hmap. simpl. subst field.
    destruct (lacks payload "litigation_id"); [reflexivity |].
    simpl in Hlack. now rewrite Hlack. }
  assert (Hcreate : forall j w', createCase row j w'
                = (CaseFailed j error, w', [EConsoleError (j + 1)])).
  { intros j w'. now rewrite (createCase_invalid row _ j w' Hval). }
  assert (Hin : In (CaseFailed i error) (failures st)).
  { subst st. unfold Upload.submitAll.
    destruct (loopFrom_accounting (length results) results 0 (initial w))
      as (P & F & _ & HF & HsP & _ & _ & Hatt).
    rewrite HF. simpl.
    destruct (Hatt i row Hrow) as [w_i Hw]. simpl in Hw. rewrite Hcreate in Hw.
    simpl in Hw. apply in_app_or in Hw as [Hw | Hw]; [| exact Hw].
    rewrite Forall_forall in HsP. apply list_elem_of_In, HsP in Hw. discriminate. }
  split; [exact Hcreate |]. split; [exact Hin |]. split; [| split].
  - unfold report. simpl.
    apply in_map_iff. now exists (CaseFailed i error).
  - unfold validates. now rewrite Hval.
  - subst st. unfold Upload.submitAll. now rewrite loopFrom_posts.
Qed.

End UploadLoop.

(** The batch of three rows whose second row has no status identifier: two
    successes, one failure, two pauses. *)
Lemma submitAll_accounts_for_every_row_witness :
  (length (processed sampleRun) + length (failures sampleRun))%nat = 3%nat
  /\ exists w_i,
       In (fst (fst (createCase nat alternating bareEnv rowNoStatus 1 w_i)))
          (processed sampleRun ++ failures sampleRun).
Proof.
  destruct (submitAll_accounts_for_every_row nat alternating bareEnv threeRows 0%nat)
    as (Hlen & _ & _ & _ & Hatt).
  split; [exact Hlen |]. apply (Hatt 1%nat rowNoStatus). reflexivity.
Defined.

Lemma pacing_after_every_row_but_the_last_witness :
  (1 <= length threeRows)%nat
  /\ (delays (trace sampleRun) + 1)%nat = length threeRows
  /\ trace sampleRun
     = [EPost (payloadSet payloadNoStatus "status_id" (JStr "2"));
        EDelay 400;
        EConsoleError 2;
        EDelay 400;
        EPost (payloadSet payloadNoStatus "status_id" (JStr "2"));
        EConsoleError 3].
Proof.
  split; [simpl; lia |].
  destruct (pacing_after_every_row_but_the_last nat alternating bareEnv threeRows 0%nat)
    as (H & _ & Hturn & _); [simpl; lia |].
  split; [exact H |].
  destruct (Hturn [completeRow; rowNoStatus] completeRow [] eq_refl)
    as (Htrace & _).
  exact Htrace.
Defined.

Lemma missing_identifier_fails_without_create_witness :
  threeRows !! 1%nat = Some rowNoStatus
  /\ mapRowToPayload bareEnv rowNoStatus = Ok payloadNoStatus
  /\ lacks payloadNoStatus "litigation_id" || lacks payloadNoStatus "status_id"
     = true
  /\ In (CaseFailed 1 (JStr "Missing required field: status_id"))
        (failures sampleRun)
  /\ In (2%nat, JStr "Missing required field: status_id")
        (failureRows (report (length threeRows) sampleRun))
  /\ posts (trace sampleRun) = 2%nat.
Proof.
  destruct (missing_identifier_fails_without_create nat alternating bareEnv
              threeRows 0%nat 1%nat rowNoStatus payloadNoStatus)
    as (_ & Hin & Hrep & _ & Hposts).
  - reflexivity.
  - reflexivity.
  - reflexivity.
  - repeat (split; [reflexivity |]).
    split; [exact Hin |]. split; [exact Hrep | exact Hposts].
Defined.

(** ** The page loops *)

Import Fetch.

Section PageLoops.

Variable World : Type.
Variable axios_get : World -> nat -> Z -> GetResult * World.

(** In [fetchAllSimplyConvertCases] an empty page ends the loop at once,
    whatever else the answer carries. *)
Lemma fetchAllLoop_empty_page (fuel : nat) (w w' : World) (res : ListResponse)
    (allCases : list jsval) (page : Z) (tr : list event) :
  axios_get w limit page = (GetOk res, w') -> pageOf res = [] ->
  fetchAllLoop World axios_get (S fuel) w allCases page tr
  = Some (Ok allCases, w', (tr ++ [EGet page])%list).
Proof.
  intros Hget Hempty. simpl. rewrite Hget, Hempty. simpl.
  now rewrite app_nil_r.
Qed.

(** So does the loop of [GET /cases] next to the fast duplicate check. *)
Lemma casesLoop_empty_page (fuel : nat) (w w' : World) (res : ListResponse)
    (allCases : list jsval) (page : Z) (tr : list event) :
  axios_get w limit page = (GetOk res, w') -> pageOf res = [] ->
  casesLoop World axios_get (S fuel) w allCases page tr
  = Some (Ok allCases, w', (tr ++ [EGet page])%list).
Proof.
  intros Hget Hempty. simpl. rewrite Hget, Hempty. reflexivity.
Qed.

(** The bulk fetch of the fast duplicate check stops on an empty page that
    carries neither a total nor a last page. *)
Lemma bulkFetchLoop_empty_page_bare (fuel : nat) (w w' : World)
    (res : ListResponse) (allCases : list jsval) (page : Z) (tr : list event) :
  axios_get w limit page = (GetOk res, w') -> pageOf res = [] ->
  present (total res) = None -> present (last_page res) = None ->
  bulkFetchLoop World axios_get (S fuel) w allCases page tr
  = Some (Ok allCases, w', (tr ++ [EGet page])%list).
Proof.
  intros Hget Hempty Ht Hl. simpl. rewrite Hget, Hempty. unfold bulkHasMore.
  rewrite Ht, Hl. simpl. now rewrite app_nil_r.
Qed.

(** It asks for the next page after an empty page whose total is above
    what was fetched. *)
Lemma bulkFetchLoop_empty_page_total (fuel : nat) (w w' : World)
    (res : ListResponse) (allCases : list jsval) (page t : Z) (tr : list event) :
  axios_get w limit page = (GetOk res, w') -> pageOf res = [] ->
  total res = Some t -> Z.of_nat (length allCases) < t ->
  bulkFetchLoop World axios_get (S fuel) w allCases page tr
  = bulkFetchLoop World axios_get fuel w' allCases (page + 1)
      (tr ++ [EGet page; EDelay 200]).
Proof.
  intros Hget Hempty Ht Hlt. simpl. rewrite Hget, Hempty. unfold bulkHasMore.
  rewrite Ht, app_nil_r. simpl.
  destruct (Z.eqb_spec t 0) as [-> | _]; [lia |].
  destruct (Z.ltb_spec (Z.of_nat (length allCases)) t); [reflexivity | lia].
Qed.

End PageLoops.

Lemma bulkFetchLoop_stuck (fuel : nat) :
  forall page tr, bulkFetchLoop unit stuck fuel tt [] page tr = None.
Proof.
  induction fuel as [| fuel IH]; intros page tr; [reflexivity |].
  rewrite (bulkFetchLoop_empty_page_total unit stuck fuel tt tt emptyWithTotal
             [] page 5 tr); try reflexivity.
  apply IH.
Qed.

(** C6: the bulk fetch of the fast duplicate check does not stop on an
    empty page that carries a total or a last page: on three empty pages,
    the first with a total of five and the second with a last page of nine,
    it makes three requests, where the loops of
    [fetchAllSimplyConvertCases] and of [GET /cases] make one; against a
    service that keeps answering empty pages with a total of five it never
    returns. *)
Theorem bulk_fetch_continues_after_empty_page :
  bulkFetch (list ListResponse) scripted 10
    [emptyWithTotal; emptyWithLastPage; emptyBare]
  = Some (Ok [], [], [EGet 1; EDelay 200; EGet 2; EDelay 200; EGet 3])
  /\ fetchAllLoop (list ListResponse) scripted 10
       [emptyWithTotal; emptyWithLastPage; emptyBare] [] 0 []
     = Some (Ok [], [emptyWithLastPage; emptyBare], [EGet 0])
  /\ casesLoop (list ListResponse) scripted 10
       [emptyWithTotal; emptyWithLastPage; emptyBare] [] 1 []
     = Some (Ok [], [emptyWithLastPage; emptyBare], [EGet 1])
  /\ forall fuel, bulkFetch unit stuck fuel tt = None.
Proof.
  split; [reflexivity |]. split; [reflexivity |]. split; [reflexivity |].
  intros fuel. apply bulkFetchLoop_stuck.
Qed.

(** ** The duplicate detectors *)

Import Duplicates.

(** C7: the three-field matcher compares the lower-cased texts without
    trimming them: the row with first name [ Jane] (a leading space), last
    name [Doe] and no email is not flagged against the record jane, doe,
    x@y.com, although its trimmed identity matches it, as the detector of
    the specification finds; without the space the row is flagged. *)
Theorem check_duplicates_compares_untrimmed :
  checkDuplicates [spacedJaneRow] [janeRecord] = Ok []
  /\ specDuplicates [spacedJaneRow] [janeRecord] = [0%nat]
  /\ checkDuplicates [janeRow] [janeRecord] = Ok [0%nat]
  /\ specDuplicates [janeRow] [janeRecord] = [0%nat].
Proof. repeat split; vm_compute; reflexivity. Qed.

Lemma toLowerCase_nonEmpty (s : string) :
  nonEmpty s = true -> toLowerCase s <> EmptyString.
Proof. destruct s; [discriminate | intros _; discriminate]. Qed.

(** The email-keyed map has no entry for the empty email. *)
Lemma buildCaseMap_no_empty_key (allCases : list jsval) :
  forall (caseMap m : gmap string jsval),
  caseMap !! EmptyString = None -> buildCaseMap allCases caseMap = Ok m ->
  m !! EmptyString = None.
Proof.
  induction allCases as [| c rest IH]; intros caseMap m Hnone Hbuild;
    simpl in Hbuild.
  - now inversion Hbuild; subst m.
  - destruct (caseField c "email_injured") as [v | e]; simpl in Hbuild;
      [| discriminate].
    destruct (truthy v) eqn:Hv; [| now apply (IH caseMap)].
    destruct v; try discriminate.
    apply (IH (<[toLowerCase s := c]> caseMap)); [| exact Hbuild].
    rewrite lookup_insert_ne; [exact Hnone |].
    now apply toLowerCase_nonEmpty.
Qed.

Lemma emailTask_index (caseMap : gmap string jsval) (row : jsobj) (i j : nat) :
  emailTask caseMap row i = Ok (Some j) -> j = i.
Proof.
  unfold emailTask.
  destruct (lowerField row "fname_injured" "fname") as [fname | e]; simpl;
    [| discriminate].
  destruct (lowerField row "lname_injured" "lname") as [lname | e]; simpl;
    [| discriminate].
  destruct (lowerField row "email_injured" "email") as [email | e]; simpl;
    [| discriminate].
  destruct (negb (nonEmpty fname) && negb (nonEmpty lname) && negb (nonEmpty email));
    [discriminate |].
  destruct (caseMap !! email) as [existing |]; [| discriminate].
  destruct (existingIs existing "fname_injured" fname) as [[] | e]; simpl;
    try discriminate.
  destruct (existingIs existing "lname_injured" lname) as [[] | e]; simpl;
    try discriminate.
  intros H. now inversion H.
Qed.

Lemma emailTask_empty_email (caseMap : gmap string jsval) (row : jsobj)
    (i : nat) (x : option nat) :
  caseMap !! EmptyString = None ->
  lowerField row "email_injured" "email" = Ok EmptyString ->
  emailTask caseMap row i = Ok x -> x = None.
Proof.
  intros Hnone Hemail. unfold emailTask. rewrite Hemail.
  destruct (lowerField row "fname_injured" "fname") as [fname | e]; simpl;
    [| discriminate].
  destruct (lowerField row "lname_injured" "lname") as [lname | e]; simpl;
    [| discriminate].
  rewrite Hnone.
  destruct (negb (nonEmpty fname) && negb (nonEmpty lname) && true);
    intros H; now inversion H.
Qed.

Lemma emailTasks_found (caseMap : gmap string jsval) (rows : list jsobj) :
  forall (i0 : nat) (found : list nat) (j : nat),
  emailTasks caseMap rows i0 = Ok found -> In j found ->
  exists k row, rows !! k = Some row /\ j = (i0 + k)%nat
                /\ emailTask caseMap row j = Ok (Some j).
Proof.
  induction rows as [| row rest IH]; intros i0 found j Hrun Hin;
    simpl in Hrun.
  - inversion Hrun; subst found. contradiction.
  - destruct (emailTask caseMap row i0) as [x | e] eqn:Htask; simpl in Hrun;
      [| discriminate].
    destruct (emailTasks caseMap rest (S i0)) as [more | e] eqn:Hrest;
      simpl in Hrun; [| discriminate].
    inversion Hrun; subst found. clear Hrun.
    assert (Hmore : In j more ->
      exists k r, (row :: rest) !! k = Some r /\ j = (i0 + k)%nat
                  /\ emailTask caseMap r j = Ok (Some j)).
    { intros Hj. destruct (IH (S i0) more j Hrest Hj) as (k & r & Hk & Hjk & Ht).
      exists (S k), r. repeat split; [exact Hk | lia | exact Ht]. }
    destruct x as [j' |]; [| now apply Hmore].
    destruct Hin as [<- | Hin]; [| now apply Hmore].
    pose proof (emailTask_index _ _ _ _ Htask) as ->.
    exists 0%nat, row. repeat split; [lia | exact Htask].
Qed.

(** The email-keyed check never flags a row without an email. *)
Lemma emailKeyed_skips_empty_email (pLimitBound : bool) (rows : list jsobj)
    (allCases : list jsval) (i : nat) (row : jsobj) :
  rows !! i = Some row ->
  lowerField row "email_injured" "email" = Ok EmptyString ->
  ~ In i (reported (emailKeyedDuplicates pLimitBound rows allCases)).
Proof.
  intros Hrow Hemail Hin. unfold emailKeyedDuplicates in Hin.
  destruct (buildCaseMap allCases empty) as [caseMap | e] eqn:Hmap;
    simpl in Hin; [| contradiction].
  destruct pLimitBound; simpl in Hin; [| contradiction].
  destruct (emailTasks caseMap rows 0) as [found | e] eqn:Hrun;
    simpl in Hin; [| contradiction].
  destruct (emailTasks_found caseMap rows 0 found i Hrun Hin)
    as (k & r & Hk & Hik & Htask).
  simpl in Hik. subst k. rewrite Hrow in Hk. inversion Hk; subst r.
  assert (Hnone : caseMap !! EmptyString = None)
    by (apply (buildCaseMap_no_empty_key allCases empty); [apply lookup_empty | exact Hmap]).
  pose proof (emailTask_empty_email caseMap row i (Some i) Hnone Hemail Htask).
  discriminate.
Qed.

(** C8: the three-field matcher and the email-keyed check do not report the
    same duplicates: the row Jane, Doe without an email is flagged by the
    first against the record jane, doe, x@y.com, and the second flags no
    row whose email is empty, whether or not the name [pLimit] is bound. *)
Theorem duplicate_checks_disagree (pLimitBound : bool) :
  reported (checkDuplicates [janeRow] [janeRecord]) = [0%nat]
  /\ reported (emailKeyedDuplicates pLimitBound [janeRow] [janeRecord]) = []
  /\ (exists rows allCases,
        reported (checkDuplicates rows allCases)
        <> reported (emailKeyedDuplicates pLimitBound rows allCases))
  /\ (forall rows allCases i row,
        rows !! i = Some row ->
        lowerField row "email_injured" "email" = Ok EmptyString ->
        ~ In i (reported (emailKeyedDuplicates pLimitBound rows allCases))).
Proof.
  assert (H1 : reported (checkDuplicates [janeRow] [janeRecord]) = [0%nat])
    by (vm_compute; reflexivity).
  assert (H2 : reported (emailKeyedDuplicates pLimitBound [janeRow] [janeRecord]) = [])
    by (destruct pLimitBound; vm_compute; reflexivity).
  split; [exact H1 |]. split; [exact H2 |]. split.
  - exists [janeRow], [janeRecord]. rewrite H1, H2. discriminate.
  - intros rows allCases i row. apply emailKeyed_skips_empty_email.
Qed.

Lemma duplicate_checks_disagree_witness :
  [janeRow] !! 0%nat = Some janeRow
  /\ lowerField janeRow "email_injured" "email" = Ok EmptyString
  /\ ~ In 0%nat (reported (emailKeyedDuplicates true [janeRow] [janeRecord])).
Proof.
  split; [reflexivity |]. split; [reflexivity |].
  destruct (duplicate_checks_disagree true) as (_ & _ & _ & H).
  apply (H [janeRow] [janeRecord] 0%nat janeRow); reflexivity.
Defined.

(** What the three-field matcher computes when it does not throw: a row is
    flagged exactly when one of its lower-cased components is non-empty
    and some fetched case agrees with each non-empty one. *)
Lemma someMatch_true (fname lname email : string) (allCases : list jsval) :
  someMatch fname lname email allCases = Ok true ->
  exists caseItem,
    In caseItem allCases
    /\ matchesField fname caseItem "fname_injured" = Ok true
    /\ matchesField lname caseItem "lname_injured" = Ok true
    /\ matchesField email caseItem "email_injured" = Ok true.
Proof.
  induction allCases as [| caseItem rest IH]; simpl; [discriminate |].
  destruct (matchesField fname caseItem "fname_injured") as [mf | e] eqn:Hf;
    simpl; [| discriminate].
  destruct (matchesField lname caseItem "lname_injured") as [ml | e] eqn:Hl;
    simpl; [| discriminate].
  destruct (matchesField email caseItem "email_injured") as [me | e] eqn:He;
    simpl; [| discriminate].
  destruct mf, ml, me; simpl; intros H;
    try (destruct (IH H) as (c & Hin & Hc); exists c; split; [now right | exact Hc]).
  exists caseItem. repeat split; trivial. now left.
Qed.

Lemma someMatch_false (fname lname email : string) (allCases : list jsval) :
  someMatch fname lname email allCases = Ok false ->
  forall caseItem, In caseItem allCases ->
  exists mf ml me,
    matchesField fname caseItem "fname_injured" = Ok mf
    /\ matchesField lname caseItem "lname_injured" = Ok ml
    /\ matchesField email caseItem "email_injured" = Ok me
    /\ mf && ml && me = false.
Proof.
  induction allCases as [| c rest IH]; simpl; [contradiction |].
  destruct (matchesField fname c "fname_injured") as [mf | e] eqn:Hf;
    simpl; [| discriminate].
  destruct (matchesField lname c "lname_injured") as [ml | e] eqn:Hl;
    simpl; [| discriminate].
  destruct (matchesField email c "email_injured") as [me | e] eqn:He;
    simpl; [| discriminate].
  destruct (mf && ml && me) eqn:Hall; [discriminate |].
  intros H caseItem [<- | Hin]; [| now apply IH].
  exists mf, ml, me. now rewrite Hf, Hl, He.
Qed.

Lemma forEachRow_flags (rows : list jsobj) (allCases : list jsval) :
  forall (i0 : nat) (acc duplicates : list nat) (i : nat),
  forEachRow rows i0 allCases acc = Ok duplicates ->
  (In i duplicates <->
   In i acc
   \/ exists k row fname lname email,
        rows !! k = Some row /\ i = (i0 + k)%nat
        /\ lowerField row "fname_injured" "fname" = Ok fname
        /\ lowerField row "lname_injured" "lname" = Ok lname
        /\ lowerField row "email_injured" "email" = Ok email
        /\ nonEmpty fname || nonEmpty lname || nonEmpty email = true
        /\ someMatch fname lname email allCases = Ok true).
Proof.
  induction rows as [| row rest IH]; intros i0 acc duplicates i Hrun;
    simpl in Hrun.
  - inversion Hrun; subst. split; [now left |].
    intros [H | (k & r & _ & _ & _ & Hk & _)]; [exact H | discriminate].
  - destruct (lowerField row "fname_injured" "fname") as [fname | e] eqn:Hf;
      simpl in Hrun; [| discriminate].
    destruct (lowerField row "lname_injured" "lname") as [lname | e] eqn:Hl;
      simpl in Hrun; [| discriminate].
    destruct (lowerField row "email_injured" "email") as [email | e] eqn:He;
      simpl in Hrun; [| discriminate].
    destruct (negb (nonEmpty fname) && negb (nonEmpty lname)
              && negb (nonEmpty email)) eqn:Hskip.
    + rewrite (IH _ _ _ i Hrun). split.
      * intros [H | (k & r & f & l & e & Hk & Hi & Hrest)]; [now left | right].
        exists (S k), r, f, l, e. split; [exact Hk |]. split; [lia | exact Hrest].
      * intros [H | (k & r & f & l & e & Hk & Hi & Hf' & Hl' & He' & Hne & Hm)];
          [now left |].
        destruct k as [| k].
        -- simpl in Hk. inversion Hk; subst r.
           rewrite Hf in Hf'. rewrite Hl in Hl'. rewrite He in He'.
           inversion Hf'; inversion Hl'; inversion He'; subst.
           destruct (nonEmpty f), (nonEmpty l), (nonEmpty e); discriminate.
        -- right. exists k, r, f, l, e. split; [exact Hk |].
           split; [lia |]. now repeat split.
    + destruct (someMatch fname lname email allCases) as [isDuplicate | e] eqn:Hm;
        simpl in Hrun; [| discriminate].
      rewrite (IH _ _ _ i Hrun). split.
      * intros [H | (k & r & f & l & e & Hk & Hi & Hrest)].
        -- destruct isDuplicate; [| now left].
           apply in_app_or in H as [H | [<- | []]]; [now left | right].
           exists 0%nat, row, fname, lname, email.
           split; [reflexivity |]. split; [lia |].
           split; [exact Hf |]. split; [exact Hl |]. split; [exact He |].
           split; [| exact Hm].
           destruct (nonEmpty fname), (nonEmpty lname), (nonEmpty email);
             try reflexivity; discriminate.
        -- right. exists (S k), r, f, l, e. split; [exact Hk |].
           split; [lia | exact Hrest].
      * intros [H | (k & r & f & l & e & Hk & Hi & Hf' & Hl' & He' & Hne & Hm')].
        -- left. destruct isDuplicate; [apply in_or_app; now left | exact H].
        -- destruct k as [| k].
           ++ simpl in Hk. inversion Hk; subst r.
              rewrite Hf in Hf'. rewrite Hl in Hl'. rewrite He in He'.
              inversion Hf'; inversion Hl'; inversion He'; subst.
              rewrite Hm in Hm'. inversion Hm'; subst isDuplicate.
              left. apply in_or_app. right. left. lia.
           ++ right. exists k, r, f, l, e. split; [exact Hk |].
              split; [lia |]. now repeat split.
Qed.

Lemma checkDuplicates_flags (rows : list jsobj) (allCases : list jsval)
    (duplicates : list nat) (i : nat) :
  checkDuplicates rows allCases = Ok duplicates ->
  (In i duplicates <->
   exists row fname lname email,
     rows !! i = Some row
     /\ lowerField row "fname_injured" "fname" = Ok fname
     /\ lowerField row "lname_injured" "lname" = Ok lname
     /\ lowerField row "email_injured" "email" = Ok email
     /\ nonEmpty fname || nonEmpty lname || nonEmpty email = true
     /\ someMatch fname lname email allCases = Ok true).
Proof.
  intros Hrun. rewrite (forEachRow_flags rows allCases 0 [] duplicates i Hrun).
  split.
  - intros [[] | (k & row & f & l & e & Hk & Hi & Hrest)].
    simpl in Hi. subst k. now exists row, f, l, e.
  - intros (row & f & l & e & Hk & Hrest). right.
    exists i, row, f, l, e. split; [exact Hk |]. split; [reflexivity | exact Hrest].
Qed.

(** * Further properties of the code *)

Import Text.

(** ** The overrides of the environment *)

Lemma override_hit (name s : string) (wrap : string -> jsval) (p : Payload) :
  name <> "__proto__" -> nonEmpty s = true ->
  own (override name (Some s) wrap p) !! name = Some (wrap s).
Proof.
  intros Hname Hs. unfold override. rewrite Hs. now apply payloadSet_own_eq.
Qed.

(** X1: whatever the row holds, a payload carries every configured
    override: the company, referral, counsel, fee split and total fee of the
    environment as they are, and the configured tag as a one-item array. *)
Theorem overrides_always_win (env : Env) (row : jsobj) (payload : Payload) :
  mapRowToPayload env row = Ok payload ->
  (forall s, COMPANY_UUID env = Some s -> s <> EmptyString ->
     own payload !! "company_uuid" = Some (JStr s))
  /\ (forall s, REFERRED_FROM_COMPANY_UUID env = Some s -> s <> EmptyString ->
        own payload !! "referred_from_company_uuid" = Some (JStr s))
  /\ (forall s, TAGS env = Some s -> s <> EmptyString ->
        own payload !! "tags" = Some (JArr [JStr s]))
  /\ (forall s, COUNSEL env = Some s -> s <> EmptyString ->
        own payload !! "counsel" = Some (JStr s))
  /\ (forall s, FEESPLIT env = Some s -> s <> EmptyString ->
        own payload !! "feesplit" = Some (JStr s))
  /\ (forall s, TOTALFEE env = Some s -> s <> EmptyString ->
        own payload !! "totalfee" = Some (JStr s)).
Proof.
  unfold mapRowToPayload. intros Hrun.
  destruct (forIn row emptyPayload) as [p | e]; simpl in Hrun; [| discriminate].
  inversion Hrun; subst payload. clear Hrun. unfold applyOverrides.
  assert (Hne : forall s, s <> EmptyString -> nonEmpty s = true)
    by (intros [| c r] H; [contradiction | reflexivity]).
  repeat split; intros s Hs Hs'; apply Hne in Hs';
    rewrite ?override_own by reflexivity;
    rewrite Hs; apply override_hit; trivial; discriminate.
Qed.

Lemma overrides_always_win_witness :
  exists payload,
    mapRowToPayload fullEnv overriddenRow = Ok payload
    /\ own payload !! "tags" = Some (JArr [JStr "Imported"])
    /\ own payload !! "counsel" = Some (JStr "Smith").
Proof.
  destruct (mapRowToPayload fullEnv overriddenRow) as [payload | e] eqn:Hrun;
    [| vm_compute in Hrun; discriminate].
  exists payload. split; [reflexivity |].
  destruct (overrides_always_win fullEnv overriddenRow payload Hrun)
    as (_ & _ & Htags & Hcounsel & _).
  split; [apply (Htags "Imported") | apply (Hcounsel "Smith")];
    reflexivity || discriminate.
Defined.

(** ** Where the properties of a payload come from *)

Lemma payloadSet_own_some (p : Payload) (k key : string) (x v : jsval) :
  own (payloadSet p k x) !! key = Some v ->
  (k = key /\ k <> "__proto__") \/ own p !! key = Some v.
Proof.
  unfold payloadSet. destruct (String.eqb_spec k "__proto__") as [-> | Hk].
  - destruct x; simpl; intros H; now right.
  - simpl. destruct (decide (k = key)) as [-> | Hne].
    + intros _. now left.
    + rewrite lookup_insert_ne by exact Hne. intros H. now right.
Qed.

Lemma forIn_origin (row : jsobj) :
  forall (p p' : Payload) (key : string) (v : jsval),
  forIn row p = Ok p' -> own p' !! key = Some v ->
  own p !! key = Some v
  \/ (key <> "__proto__"
      /\ exists raw, In (key, raw) row /\ isEmptyString raw = false).
Proof.
  induction row as [| [k raw] rest IH]; intros p p' key v Hrun Hget;
    simpl in Hrun.
  - inversion Hrun; subst. now left.
  - destruct (isEmptyString raw) eqn:Hraw.
    + destruct (IH _ _ _ _ Hrun Hget) as [H | (Hk & r & Hin & Hr)]; [now left |].
      right. split; [exact Hk |]. exists r. split; [now right | exact Hr].
    + destruct (fieldValue k raw) as [x | e]; simpl in Hrun; [| discriminate].
      destruct (IH _ _ _ _ Hrun Hget) as [H | (Hk & r & Hin & Hr)].
      * apply payloadSet_own_some in H as [[-> Hk] | H]; [| now left].
        right. split; [exact Hk |]. exists raw. split; [now left | exact Hraw].
      * right. split; [exact Hk |]. exists r. split; [now right | exact Hr].
Qed.

Lemma overridden_not_proto (env : Env) : overridden env "__proto__" = false.
Proof. reflexivity. Qed.

Lemma row_value_unique (row : jsobj) (key : string) (a b : jsval) :
  NoDup (map fst row) -> In (key, a) row -> In (key, b) row -> a = b.
Proof.
  induction row as [| [k v] rest IH]; intros Hnd Ha Hb; [contradiction |].
  simpl in Hnd. apply NoDup_cons in Hnd as [Hfresh Hnd].
  assert (Hout : forall x, In (key, x) rest -> k <> key).
  { intros x Hx ->. apply Hfresh. apply list_elem_of_In.
    apply in_map_iff. now exists (key, x). }
  destruct Ha as [Ha | Ha], Hb as [Hb | Hb].
  - congruence.
  - inversion Ha; subst. now destruct (Hout b Hb).
  - inversion Hb; subst. now destruct (Hout a Ha).
  - now apply IH.
Qed.

(** X2: an own property of the payload is an override of the environment
    or comes from a field of the row whose value is not the empty string;
    [__proto__] is never an own property; and in a row with distinct keys,
    a field whose value is the empty string is left out of the payload
    unless the environment sets it. *)
Theorem payload_properties_origin (env : Env) (row : jsobj) (payload : Payload) :
  mapRowToPayload env row = Ok payload ->
  (forall key v, own payload !! key = Some v ->
     overridden env key = true
     \/ exists raw, In (key, raw) row /\ isEmptyString raw = false)
  /\ own payload !! "__proto__" = None
  /\ (forall key, NoDup (map fst row) -> In (key, JStr EmptyString) row ->
        overridden env key = false -> own payload !! key = None).
Proof.
  unfold mapRowToPayload. intros Hrun.
  destruct (forIn row emptyPayload) as [p | e] eqn:Hp; simpl in Hrun;
    [| discriminate].
  inversion Hrun; subst payload. clear Hrun.
  assert (Horigin : forall key v, own (applyOverrides env p) !! key = Some v ->
     overridden env key = true
     \/ (key <> "__proto__"
         /\ exists raw, In (key, raw) row /\ isEmptyString raw = false)).
  { intros key v Hget. destruct (overridden env key) eqn:Hov; [now left |].
    right. rewrite applyOverrides_own in Hget by exact Hov.
    destruct (forIn_origin row _ _ _ _ Hp Hget) as [H | H]; [| exact H].
    simpl in H. now rewrite lookup_empty in H. }
  split; [| split].
  - intros key v Hget. destruct (Horigin key v Hget) as [H | [_ H]]; auto.
  - destruct (own (applyOverrides env p) !! "__proto__") as [v |] eqn:Hget;
      [| reflexivity].
    destruct (Horigin _ _ Hget) as [H | [H _]]; [discriminate | contradiction].
  - intros key Hnd Hin Hov.
    destruct (own (applyOverrides env p) !! key) as [v |] eqn:Hget;
      [| reflexivity].
    destruct (Horigin _ _ Hget) as [H | (_ & raw & Hraw & Hne)]; [congruence |].
    rewrite <- (row_value_unique row key _ _ Hnd Hin Hraw) in Hne. discriminate.
Qed.

Lemma payload_properties_origin_witness :
  exists payload,
    mapRowToPayload bareEnv sparseRow = Ok payload
    /\ own payload !! "lname" = None.
Proof.
  destruct (mapRowToPayload bareEnv sparseRow) as [payload | e] eqn:Hrun;
    [| vm_compute in Hrun; discriminate].
  exists payload. split; [reflexivity |].
  destruct (payload_properties_origin bareEnv sparseRow payload Hrun)
    as (_ & _ & H).
  apply (H "lname"); [distinct_keys | | reflexivity].
  right. now left.
Defined.

(** X3: a field whose value is not the empty string and whose key is not
    [meta], an array field, a date field or [__proto__] is copied to the
    payload as it is, whatever its type, when the row has distinct keys and
    the environment does not replace that key. *)
Theorem plain_field_copied (env : Env) (row : jsobj) (payload : Payload)
    (key : string) (v : jsval) :
  mapRowToPayload env row = Ok payload ->
  NoDup (map fst row) -> In (key, v) row -> isEmptyString v = false ->
  key <> "meta" -> includes arrayFields key = false ->
  includes dateFields key = false -> key <> "__proto__" ->
  overridden env key = false ->
  own payload !! key = Some v.
Proof.
  unfold mapRowToPayload. intros Hrun Hnd Hin Hne Hmeta Harr Hdate Hproto Hov.
  destruct (forIn row emptyPayload) as [p | e] eqn:Hp; simpl in Hrun;
    [| discriminate].
  inversion Hrun; subst payload. rewrite applyOverrides_own by exact Hov.
  destruct (forIn_own_in row key v Hnd Hin Hne Hproto _ _ Hp) as (x & Hx & Hget).
  unfold fieldValue in Hx.
  rewrite (eqb_string_false _ _ Hmeta), Harr, Hdate in Hx.
  inversion Hx; subst x. exact Hget.
Qed.

Lemma plain_field_copied_witness :
  exists payload,
    mapRowToPayload bareEnv sparseRow = Ok payload
    /\ own payload !! "fname" = Some (JStr "Ann").
Proof.
  destruct (mapRowToPayload bareEnv sparseRow) as [payload | e] eqn:Hrun;
    [| vm_compute in Hrun; discriminate].
  exists payload. split; [reflexivity |].
  apply (plain_field_copied bareEnv sparseRow payload "fname" (JStr "Ann") Hrun);
    try reflexivity; try discriminate; [distinct_keys | now left].
Defined.

(** ** Splitting, joining and trimming *)

Lemma split_nonempty (sep : ascii) (s : string) : split sep s <> [].
Proof.
  destruct s as [| c r]; simpl; [discriminate |].
  destruct (Ascii.eqb c sep); [discriminate |].
  destruct (split sep r); discriminate.
Qed.

Lemma split_length (sep : ascii) (s : string) :
  length (split sep s) = S (countChar sep s).
Proof.
  induction s as [| c r IH]; simpl; [reflexivity |].
  destruct (Ascii.eqb c sep); simpl; [now rewrite IH |].
  destruct (split sep r) as [| h t] eqn:Hs; [now destruct (split_nonempty sep r) |].
  simpl in *. exact IH.
Qed.

Lemma split_pieces (sep : ascii) (s : string) :
  Forall (fun piece => countChar sep piece = 0%nat) (split sep s).
Proof.
  induction s as [| c r IH]; simpl; [now repeat constructor |].
  destruct (Ascii.eqb c sep) eqn:Hc; [now constructor |].
  destruct (split sep r) as [| h t]; [repeat constructor; simpl; now rewrite Hc |].
  inversion IH; subst. constructor; [| assumption].
  simpl. now rewrite Hc.
Qed.

Lemma split_without_separator (sep : ascii) (s : string) :
  countChar sep s = 0%nat -> split sep s = [s].
Proof.
  induction s as [| c r IH]; simpl; [reflexivity |].
  destruct (Ascii.eqb c sep); [discriminate |]. simpl. intros H.
  now rewrite (IH H).
Qed.

(** Splitting loses nothing: joining the pieces with the separator gives
    the text back. *)
Lemma join_split (sep : ascii) (s : string) :
  join (String sep EmptyString) (split sep s) = s.
Proof.
  induction s as [| c r IH]; simpl; [reflexivity |].
  destruct (Ascii.eqb_spec c sep) as [-> | Hne].
  - destruct (split sep r) as [| h t] eqn:Hs; [now destruct (split_nonempty sep r) |].
    simpl in *. now rewrite IH.
  - destruct (split sep r) as [| h t] eqn:Hs; [now destruct (split_nonempty sep r) |].
    destruct t as [| h' t']; simpl in *; now rewrite <- IH.
Qed.

Lemma countChar_app (c : ascii) (a b : string) :
  countChar c (a ++ b) = (countChar c a + countChar c b)%nat.
Proof. induction a as [| d a IH]; simpl; [reflexivity | rewrite IH; lia]. Qed.

Lemma countChar_repeat (c d : ascii) (n : nat) :
  Ascii.eqb d c = false -> countChar c (repeatChar n d) = 0%nat.
Proof. intros H. induction n as [| n IH]; simpl; [reflexivity | now rewrite H]. Qed.

Lemma trimEnd_cons (c : ascii) (r : string) :
  trimEnd (String c r)
  = match trimEnd r with
    | EmptyString => if isSpace c then EmptyString else String c EmptyString
    | String d r' => String c (String d r')
    end.
Proof. reflexivity. Qed.

Lemma trimEnd_idempotent (s : string) : trimEnd (trimEnd s) = trimEnd s.
Proof.
  induction s as [| c r IH]; [reflexivity |].
  rewrite (trimEnd_cons c r).
  destruct (trimEnd r) as [| d r'] eqn:Hr.
  - destruct (isSpace c) eqn:Hc; [reflexivity |].
    rewrite trimEnd_cons. simpl. now rewrite Hc.
  - rewrite trimEnd_cons. now rewrite IH.
Qed.

Lemma trimStart_head (s : string) :
  match trimStart s with
  | String c _ => isSpace c = false
  | EmptyString => True
  end.
Proof.
  induction s as [| c r IH]; simpl; [exact I |].
  destruct (isSpace c) eqn:Hc; [exact IH | exact Hc].
Qed.

Lemma trimEnd_head (s : string) :
  match s with String c _ => isSpace c = false | EmptyString => True end ->
  match trimEnd s with String c _ => isSpace c = false | EmptyString => True end.
Proof.
  destruct s as [| c r]; simpl; [trivial |]. intros Hc.
  destruct (trimEnd r); [now rewrite Hc | exact Hc].
Qed.

Lemma trimStart_fixed (s : string) :
  match s with String c _ => isSpace c = false | EmptyString => True end ->
  trimStart s = s.
Proof. destruct s as [| c r]; simpl; [trivial |]. now intros ->. Qed.

(** A trimmed text has nothing left to trim. *)
Lemma trim_idempotent (s : string) : trim (trim s) = trim s.
Proof.
  unfold trim.
  rewrite (trimStart_fixed (trimEnd (trimStart s))).
  - apply trimEnd_idempotent.
  - apply trimEnd_head, trimStart_head.
Qed.

(** ** Dates *)

(** X4: [formatDate] is idempotent on texts: its result is a text that it
    leaves unchanged.  A text with exactly two slashes that is not blank
    comes out without a slash; every other text comes out as it is. *)
Theorem formatDate_idempotent (s : string) :
  exists t,
    formatDate (JStr s) = Ok (JStr t)
    /\ formatDate (JStr t) = Ok (JStr t)
    /\ (countChar "/" s = 2%nat -> nonEmpty (trim s) = true ->
        countChar "/" t = 0%nat)
    /\ (countChar "/" s <> 2%nat \/ nonEmpty (trim s) = false -> t = s).
Proof.
  assert (Hsame : forall t, countChar "/" t <> 2%nat ->
            formatDate (JStr t) = Ok (JStr t)).
  { intros t Ht. unfold formatDate.
    destruct (negb (truthy (JStr t))); [reflexivity |].
    destruct (negb (nonEmpty (trim t))); [reflexivity |].
    pose proof (split_length "/" t) as Hlen.
    destruct (split "/" t) as [| p0 [| p1 [| p2 [| p3 ps]]]]; try reflexivity.
    simpl in Hlen. lia. }
  destruct (Nat.eq_dec (countChar "/" s) 2%nat) as [Htwo | Hnot].
  - destruct (nonEmpty (trim s)) eqn:Hblank.
    + pose proof (split_length "/" s) as Hlen.
      pose proof (split_pieces "/" s) as Hpieces.
      assert (Hs : nonEmpty s = true) by (destruct s; [discriminate | reflexivity]).
      destruct (split "/" s) as [| p0 [| p1 [| p2 [| p3 ps]]]] eqn:Hsplit;
        simpl in Hlen; try lia.
      inversion Hpieces as [| ? ? H0 Hp1]; subst.
      inversion Hp1 as [| ? ? H1 Hp2]; subst.
      inversion Hp2 as [| ? ? H2 _]; subst.
      assert (Hcount : countChar "/"
                (p2 ++ "-" ++ padStart 2 "0" p0 ++ "-" ++ padStart 2 "0" p1) = 0%nat).
      { unfold padStart. rewrite !countChar_app, H0, H1, H2.
        rewrite !countChar_repeat by reflexivity. reflexivity. }
      exists (p2 ++ "-" ++ padStart 2 "0" p0 ++ "-" ++ padStart 2 "0" p1).
      split; [| split; [| split]].
      * unfold formatDate. simpl truthy. rewrite Hs, Hblank, Hsplit. reflexivity.
      * apply Hsame. rewrite Hcount. discriminate.
      * intros _ _. exact Hcount.
      * intros [H | H]; [contradiction | discriminate].
    + exists s. split; [| split; [| split]].
      * unfold formatDate. destruct (negb (truthy (JStr s))); [reflexivity |].
        now rewrite Hblank.
      * unfold formatDate. destruct (negb (truthy (JStr s))); [reflexivity |].
        now rewrite Hblank.
      * intros _ H. discriminate.
      * reflexivity.
  - exists s. split; [now apply Hsame |]. split; [now apply Hsame |].
    split; [intros H; contradiction | reflexivity].
Qed.

Lemma formatDate_idempotent_witness :
  countChar "/" "3/4/2024" = 2%nat
  /\ nonEmpty (trim "3/4/2024") = true
  /\ formatDate (JStr "3/4/2024") = Ok (JStr "2024-03-04")
  /\ formatDate (JStr "2024-03-04") = Ok (JStr "2024-03-04").
Proof.
  split; [reflexivity |]. split; [reflexivity |].
  destruct (formatDate_idempotent "3/4/2024") as (t & Hrun & Hagain & _ & _).
  assert (Ht : t = "2024-03-04") by (vm_compute in Hrun; now inversion Hrun).
  subst t. split; [exact Hrun | exact Hagain].
Defined.

(** ** The items of an array field *)

Lemma ofRational_whole (negative : bool) (z : Z) :
  0 <= z -> isIntegerOrInfinity (JsNumber.ofRational negative z 1).
Proof.
  intros Hz. destruct (Z.lt_ge_cases z (2 ^ 53)) as [Hsmall | Hbig].
  - left. rewrite ofRational_integer by lia. now eexists.
  - assert (Hpos : 0 < z) by (assert (0 < 2 ^ 53) by reflexivity; lia).
    unfold JsNumber.ofRational, JsNumber.nearest.
    rewrite (binaryExponent_integer z Hpos).
    assert (Hk : 53 <= Z.log2 z) by (apply Z.log2_le_pow2; lia).
    rewrite (Z.max_l (Z.log2 z - 52) (-1074)) by lia.
    replace (0 <=? Z.log2 z - 52) with true by (symmetry; apply Z.leb_le; lia).
    destruct (2 ^ 1024 <=? _); [right | left]; now eexists.
Qed.

Lemma spanDigits_allDigits (s : string) : allDigits (fst (spanDigits s)) = true.
Proof.
  induction s as [| c r IH]; [reflexivity |]. simpl.
  destruct (isDigit c) eqn:Hc; [| reflexivity].
  destruct (spanDigits r) as [ds rest]. simpl in *. now rewrite Hc, IH.
Qed.

(** What [parseInt] returns, when it is not [NaN], has no fraction. *)
Lemma parseInt_whole (item : string) (num : jsval) :
  parseInt item = Some num -> isIntegerOrInfinity num.
Proof.
  unfold parseInt.
  destruct (match trimStart item with
            | String c r' =>
                if Ascii.eqb c "-" then (true, r')
                else if Ascii.eqb c "+" then (false, r') else (false, String c r')
            | EmptyString => (false, EmptyString)
            end) as [negative r].
  pose proof (spanDigits_allDigits r) as Hd.
  destruct (spanDigits r) as [ds rest]. simpl in Hd.
  destruct (nonEmpty ds); [| discriminate].
  intros H. inversion H. apply ofRational_whole.
  apply digitsValue_nonneg; [exact Hd | lia].
Qed.

Lemma parseInts_items (items : list string) :
  (length (parseInts items) <= length items)%nat
  /\ Forall isIntegerOrInfinity (parseInts items).
Proof.
  induction items as [| item rest [IHlen IHall]]; simpl.
  - split; [lia | constructor].
  - destruct (parseInt item) as [num |] eqn:Hnum; simpl.
    + split; [lia |].
      constructor; [now apply (parseInt_whole item) | exact IHall].
    + split; [lia | exact IHall].
Qed.

Lemma cleanArrayValue_trimmed (str : string) :
  trim (cleanArrayValue str) = cleanArrayValue str.
Proof. unfold cleanArrayValue. apply trim_idempotent. Qed.

(** X5: in a row of texts with distinct keys, an array field that the
    environment does not replace and whose text is not empty is stored as
    an array with one item per comma-separated piece: a string array has
    exactly one more item than the text has commas, each without white
    space at its ends; an integer array has at most that many items, each a
    number without a fraction, that is an integer or, for digits beyond the
    range of the doubles, an infinity. *)
Theorem array_field_items (env : Env) (row : jsobj) (key s : string) :
  includes arrayFields key = true ->
  overridden env key = false ->
  allStrings row = true ->
  NoDup (map fst row) ->
  In (key, JStr s) row ->
  s <> EmptyString ->
  exists payload items,
    mapRowToPayload env row = Ok payload
    /\ own payload !! key = Some (JArr items)
    /\ if includes intArrayFields key
       then (length items <= S (countChar "," s))%nat
            /\ Forall isIntegerOrInfinity items
       else length items = S (countChar "," s) /\ Forall isTrimmedString items.
Proof.
  intros Harr Hov Hs Hnd Hin Hne.
  assert (Hproto : key <> "__proto__") by (intros ->; discriminate).
  assert (Hmeta : key <> "meta") by (intros ->; discriminate).
  destruct (mapRowToPayload_field env row key s Hs Hnd Hin Hne Hproto Hov)
    as (payload & x & Hrun & Hx & Hget).
  unfold fieldValue in Hx. rewrite (eqb_string_false _ _ Hmeta), Harr in Hx.
  unfold arrayValue in Hx.
  destruct (includes intArrayFields key).
  - inversion Hx; subst x.
    exists payload, (parseInts (map cleanArrayValue (split "," s))).
    split; [exact Hrun |]. split; [exact Hget |].
    destruct (parseInts_items (map cleanArrayValue (split "," s))) as [Hlen Hall].
    rewrite length_map, split_length in Hlen. now split.
  - inversion Hx; subst x.
    exists payload, (map JStr (map cleanArrayValue (split "," s))).
    split; [exact Hrun |]. split; [exact Hget |].
    split; [now rewrite !length_map, split_length |].
    apply Forall_forall. intros v Hv. apply list_elem_of_In in Hv.
    apply in_map_iff in Hv as (t & <- & Ht).
    apply in_map_iff in Ht as (piece & <- & _).
    exists (cleanArrayValue piece). split; [reflexivity |].
    apply cleanArrayValue_trimmed.
Qed.

Lemma array_field_items_witness :
  (exists payload items,
     mapRowToPayload bareEnv sparseRow = Ok payload
     /\ own payload !! "products" = Some (JArr items)
     /\ length items = 3%nat)
  /\ (exists payload items,
        mapRowToPayload bareEnv sparseRow = Ok payload
        /\ own payload !! "conditions" = Some (JArr items)
        /\ (length items <= 3)%nat
        /\ Forall isIntegerOrInfinity items).
Proof.
  split.
  - destruct (array_field_items bareEnv sparseRow "products" " a , [b] ,c")
      as (payload & items & Hrun & Hget & Hlen & _);
      try reflexivity; try discriminate.
    + distinct_keys.
    + do 3 right. now left.
    + exists payload, items. split; [exact Hrun |]. split; [exact Hget | exact Hlen].
  - destruct (array_field_items bareEnv sparseRow "conditions" "1,x,3")
      as (payload & items & Hrun & Hget & Hlen & Hall);
      try reflexivity; try discriminate.
    + distinct_keys.
    + do 4 right. now left.
    + exists payload, items. split; [exact Hrun |]. split; [exact Hget |].
      split; [exact Hlen | exact Hall].
Defined.

(** ** The second strategy for the meta text *)

Lemma hasKey_In (o : jsobj) (k : string) :
  hasKey o k = true <-> In k (map fst o).
Proof.
  unfold hasKey. induction o as [| [k' v'] r IH]; simpl; [easy |].
  rewrite orb_true_iff, IH, String.eqb_eq. reflexivity.
Qed.

Lemma hasKey_fresh (o : jsobj) (k : string) :
  ~ In k (map fst o) -> hasKey o k = false.
Proof.
  intros H. destruct (hasKey o k) eqn:Hk; [| reflexivity].
  now apply hasKey_In in Hk.
Qed.

Lemma overwrite_keys (o : jsobj) (k : string) (v : jsval) :
  map fst (overwrite o k v) = map fst o.
Proof.
  induction o as [| [k' v'] r IH]; simpl; [reflexivity |].
  destruct (String.eqb k' k); simpl; [reflexivity | now rewrite IH].
Qed.

Lemma overwrite_Forall (P : string * jsval -> Prop) (o : jsobj) (k : string)
    (v : jsval) :
  Forall P o -> P (k, v) -> Forall P (overwrite o k v).
Proof.
  intros Ho Hkv. induction o as [| [k' v'] r IH]; simpl; [constructor |].
  inversion Ho; subst. destruct (String.eqb_spec k' k) as [-> | Hne].
  - now constructor.
  - constructor; [assumption | now apply IH].
Qed.

(** The new index is put somewhere among the properties. *)
Lemma insertIndex_Permutation (o : jsobj) (n : N) (k : string) (v : jsval) :
  Permutation (insertIndex o n k v) ((k, v) :: o).
Proof.
  induction o as [| [k' v'] r IH]; simpl; [reflexivity |].
  destruct (arrayIndex k') as [n' |]; [| reflexivity].
  destruct (n' <? n)%N; [| reflexivity].
  rewrite IH. apply perm_swap.
Qed.

Lemma objDefine_new (o : jsobj) (k : string) (v : jsval) :
  hasKey o k = false -> Permutation (objDefine o k v) ((k, v) :: o).
Proof.
  intros Hk. unfold objDefine. rewrite Hk.
  destruct (arrayIndex k) as [n |].
  - apply insertIndex_Permutation.
  - symmetry. apply Permutation_cons_append.
Qed.

Lemma objDefine_Forall (P : string * jsval -> Prop) (o : jsobj) (k : string)
    (v : jsval) :
  Forall P o -> P (k, v) -> Forall P (objDefine o k v).
Proof.
  intros Ho Hkv. destruct (hasKey o k) eqn:Hk.
  - unfold objDefine. rewrite Hk. now apply overwrite_Forall.
  - rewrite (objDefine_new o k v Hk). now constructor.
Qed.

Lemma objDefine_keys (o : jsobj) (k : string) (v : jsval) (x : string) :
  In x (map fst (objDefine o k v)) <-> In x (map fst o) \/ x = k.
Proof.
  destruct (hasKey o k) eqn:Hk.
  - unfold objDefine. rewrite Hk, overwrite_keys.
    apply hasKey_In in Hk. split; [now left | now intros [H | ->]].
  - rewrite <- !list_elem_of_In. rewrite (objDefine_new o k v Hk).
    rewrite !list_elem_of_In. simpl. intuition.
Qed.

Lemma objDefine_NoDup (o : jsobj) (k : string) (v : jsval) :
  NoDup (map fst o) -> NoDup (map fst (objDefine o k v)).
Proof.
  intros Hnd. destruct (hasKey o k) eqn:Hk.
  - unfold objDefine. now rewrite Hk, overwrite_keys.
  - rewrite (objDefine_new o k v Hk). simpl. apply NoDup_cons. split; [| exact Hnd].
    rewrite list_elem_of_In. intros Hin. apply hasKey_In in Hin. congruence.
Qed.

Lemma addPair_flat (obj : jsobj) (pair : string) :
  Forall flatEntry obj /\ NoDup (map fst obj) ->
  Forall flatEntry (addPair obj pair) /\ NoDup (map fst (addPair obj pair)).
Proof.
  intros [Hflat Hnd]. unfold addPair.
  destruct (split ":" pair) as [| k0 [| v0 more]]; simpl; [easy | easy |].
  destruct (nonEmpty (trim k0)) eqn:Hk; simpl; [| easy].
  destruct (nonEmpty (trim v0)) eqn:Hv; simpl; [| easy].
  destruct (String.eqb_spec (trim k0) "__proto__") as [Heq | Hne]; [easy |].
  split; [| now apply objDefine_NoDup].
  apply objDefine_Forall; [exact Hflat |].
  repeat split; simpl; trivial.
  exists (trim v0). repeat split; trivial. apply trim_idempotent.
Qed.

Lemma fold_addPair_flat (pairs : list string) :
  forall obj, Forall flatEntry obj /\ NoDup (map fst obj) ->
  Forall flatEntry (fold_left addPair pairs obj)
  /\ NoDup (map fst (fold_left addPair pairs obj)).
Proof.
  induction pairs as [| pair rest IH]; intros obj H; simpl; [exact H |].
  apply IH. now apply addPair_flat.
Qed.

(** X6: the meta field of a text is never kept as the raw text by the last
    resort: it is the parse of the rewritten text when that parse succeeds,
    and otherwise a flat object with distinct non-empty keys, none of them
    [__proto__], and non-empty trimmed texts as values (possibly the empty
    object). *)
Theorem meta_of_text (s : string) :
  (exists parsed, strategyA (JStr s) = Some parsed
                  /\ metaValue (JStr s) = parsed)
  \/ (strategyA (JStr s) = None
      /\ exists o, metaValue (JStr s) = JObj o
                   /\ Forall flatEntry o /\ NoDup (map fst o)).
Proof.
  unfold metaValue. destruct (strategyA (JStr s)) as [parsed |].
  - left. now exists parsed.
  - right. split; [reflexivity |]. simpl.
    exists (fold_left addPair (split "," (trim (removeBraces s))) []).
    split; [reflexivity |]. apply fold_addPair_flat.
    split; [constructor | apply NoDup_nil_2].
Qed.

(** ** More on the upload loop *)

Import UploadFacts.

Section UploadRun.

Variable World : Type.
Variable axios_post : World -> Payload -> PostResult * World.
Variable env : Env.

#[local] Abbreviation createCase := (createCase World axios_post env).
#[local] Abbreviation step := (step World axios_post env).
#[local] Abbreviation loopFrom := (loopFrom World axios_post env).
#[local] Abbreviation submitAll := (submitAll World axios_post env).

Lemma postedBodies_app (a b : list Upload.event) :
  postedBodies (a ++ b) = (postedBodies a ++ postedBodies b)%list.
Proof.
  induction a as [| e a IH]; simpl; [reflexivity |].
  destruct e; simpl; now rewrite IH.
Qed.

Lemma progressLines_app (a b : list Upload.event) :
  progressLines (a ++ b) = (progressLines a + progressLines b)%nat.
Proof.
  induction a as [| e a IH]; simpl; [reflexivity |].
  destruct e; simpl; now rewrite IH.
Qed.

(** What one turn of the loop posts, and the world it leaves. *)
Lemma step_effects (total i : nat) (row : jsobj) (st : LoopState World) :
  match validated env row with
  | Ok payload =>
      postedBodies (trace (step total i row st))
      = (postedBodies (trace st) ++ [payload])%list
      /\ world (step total i row st) = snd (axios_post (world st) payload)
  | Throw _ =>
      postedBodies (trace (step total i row st)) = postedBodies (trace st)
      /\ world (step total i row st) = world st
  end
  /\ progressLines (trace (step total i row st))
     = (progressLines (trace st)
        + if ((i + 1) mod 10 =? 0)%nat then 1 else 0)%nat.
Proof.
  unfold Upload.step, Upload.createCase.
  destruct (validated env row) as [payload | error].
  - destruct (axios_post (world st) payload) as [[data | error] w'];
      cbn [trace world snd];
      rewrite !postedBodies_app, !progressLines_app;
      destruct (i <? total - 1)%nat, ((i + 1) mod 10 =? 0)%nat;
      cbn [postedBodies progressLines app];
      rewrite ?app_nil_r; repeat split; lia.
  - cbn [trace world];
      rewrite !postedBodies_app, !progressLines_app;
      destruct (i <? total - 1)%nat, ((i + 1) mod 10 =? 0)%nat;
      cbn [postedBodies progressLines app];
      rewrite ?app_nil_r; repeat split; lia.
Qed.

Lemma loopFrom_posted (total : nat) (rest : list jsobj) :
  forall (i : nat) (st : LoopState World),
  postedBodies (trace (loopFrom total i rest st))
  = (postedBodies (trace st) ++ validPayloads env rest)%list
  /\ world (loopFrom total i rest st)
     = worldAfter axios_post (validPayloads env rest) (world st).
Proof.
  induction rest as [| row rest IH]; intros i st;
    cbn [Upload.loopFrom validPayloads].
  - now rewrite app_nil_r.
  - destruct (IH (S i) (step total i row st)) as [-> ->].
    destruct (step_effects total i row st) as [H _].
    destruct (validated env row) as [payload | error]; destruct H as [-> ->].
    + now rewrite <- app_assoc.
    + easy.
Qed.

(** X7: the remote service receives the payloads of the rows that pass the
    validation, one call each, in row order, each call made in the world
    left by the call before; nothing else is posted. *)
Theorem posts_follow_row_order (results : list jsobj) (w : World) :
  postedBodies (trace (submitAll results w)) = validPayloads env results
  /\ world (submitAll results w)
     = worldAfter axios_post (validPayloads env results) w.
Proof.
  unfold Upload.submitAll.
  destruct (loopFrom_posted (length results) results 0 (initial w)) as [-> ->].
  easy.
Qed.

Lemma div10_step (i : nat) :
  (S i / 10 = i / 10 + if ((i + 1) mod 10 =? 0) then 1 else 0)%nat.
Proof.
  replace (i + 1)%nat with (S i) by lia.
  pose proof (Nat.div_mod_eq (S i) 10) as H1.
  pose proof (Nat.div_mod_eq i 10) as H0.
  pose proof (Nat.mod_upper_bound (S i) 10 ltac:(lia)) as B1.
  pose proof (Nat.mod_upper_bound i 10 ltac:(lia)) as B0.
  destruct (Nat.eqb_spec (S i mod 10) 0); lia.
Qed.

Lemma loopFrom_progress (total : nat) (rest : list jsobj) :
  forall (i : nat) (st : LoopState World),
  progressLines (trace (loopFrom total i rest st))
  = (progressLines (trace st) + ((i + length rest) / 10 - i / 10))%nat.
Proof.
  induction rest as [| row rest IH]; intros i st;
    cbn [Upload.loopFrom length].
  - rewrite Nat.add_0_r. lia.
  - rewrite IH. destruct (step_effects total i row st) as [_ ->].
    replace (i + S (length rest))%nat with (S i + length rest)%nat by lia.
    pose proof (div10_step i) as Hstep.
    assert (Hmono : (S i / 10 <= (S i + length rest) / 10)%nat)
      by (apply Nat.Div0.div_le_mono; lia).
    lia.
Qed.

(** X8: the loop writes one progress line after every tenth row, so a
    batch of N rows gives N / 10 lines (rounded down). *)
Theorem progress_every_ten_rows (results : list jsobj) (w : World) :
  progressLines (trace (submitAll results w)) = (length results / 10)%nat.
Proof.
  unfold Upload.submitAll. rewrite loopFrom_progress. simpl.
  rewrite Nat.sub_0_r. reflexivity.
Qed.

Lemma step_lists (total i : nat) (row : jsobj) (st : LoopState World) :
  exists result,
    caseIndex result = i
    /\ processed (step total i row st)
       = (if success result then (processed st ++ [result])%list
          else processed st)
    /\ failures (step total i row st)
       = (if success result then failures st
          else (failures st ++ [result])%list).
Proof.
  destruct (createCase_summary World axios_post env row i (world st))
    as (result & w' & ev & Hc & Hidx & _).
  exists result. split; [exact Hidx |].
  unfold Upload.step. rewrite Hc. now split.
Qed.

(** The results are appended in row order. *)
Lemma loopFrom_sorted (total : nat) (rest : list jsobj) :
  forall (i : nat) (st : LoopState World),
  exists P F,
    processed (loopFrom total i rest st) = (processed st ++ P)%list
    /\ failures (loopFrom total i rest st) = (failures st ++ F)%list
    /\ StronglySorted lt (map caseIndex P)
    /\ StronglySorted lt (map caseIndex F)
    /\ Forall (fun n => i <= n < i + length rest)%nat (map caseIndex P)
    /\ Forall (fun n => i <= n < i + length rest)%nat (map caseIndex F).
Proof.
  induction rest as [| row rest IH]; intros i st; cbn [Upload.loopFrom].
  - exists [], []. rewrite !app_nil_r. repeat split; constructor.
  - destruct (IH (S i) (step total i row st))
      as (P & F & HP & HF & HsP & HsF & HbP & HbF).
    destruct (step_lists total i row st) as (result & Hidx & Hp1 & Hf1).
    rewrite Hp1 in HP. rewrite Hf1 in HF.
    assert (Hwiden : forall l,
      Forall (fun n => S i <= n < S i + length rest)%nat l ->
      Forall (fun n => i <= n < i + length (row :: rest))%nat l
      /\ Forall (lt i) l).
    { intros l Hl. split; eapply Forall_impl; try exact Hl; simpl; intros; lia. }
    destruct (Hwiden _ HbP) as [HwP HltP]. destruct (Hwiden _ HbF) as [HwF HltF].
    destruct (success result).
    + exists (result :: P), F. rewrite HP, HF, <- app_assoc. simpl map.
      rewrite Hidx. repeat split; trivial.
      * now constructor.
      * constructor; [simpl; lia | exact HwP].
    + exists P, (result :: F). rewrite HP, HF, <- app_assoc. simpl map.
      rewrite Hidx. repeat split; trivial.
      * now constructor.
      * constructor; [simpl; lia | exact HwF].
Qed.

Lemma sorted_shift (l : list nat) :
  StronglySorted lt l -> StronglySorted lt (map (fun n => n + 1)%nat l).
Proof.
  induction 1 as [| x l Hs IH Hx]; simpl; constructor; [exact IH |].
  apply Forall_forall. intros y Hy. apply list_elem_of_In in Hy.
  apply in_map_iff in Hy as (z & <- & Hz).
  rewrite Forall_forall in Hx. apply list_elem_of_In, Hx in Hz. lia.
Qed.

(** X9: the report lists the failed rows in row order: the row numbers
    are strictly increasing, each between 1 and the number of rows, one per
    failure; the successes are kept in row order too. *)
Theorem report_rows_in_order (results : list jsobj) (w : World) :
  StronglySorted lt
    (map fst (failureRows (report (length results) (submitAll results w))))
  /\ Forall (fun n => 1 <= n <= length results)%nat
       (map fst (failureRows (report (length results) (submitAll results w))))
  /\ length (failureRows (report (length results) (submitAll results w)))
     = length (failures (submitAll results w))
  /\ StronglySorted lt (map caseIndex (processed (submitAll results w))).
Proof.
  unfold Upload.submitAll.
  destruct (loopFrom_sorted (length results) results 0 (initial w))
    as (P & F & HP & HF & HsP & HsF & HbP & HbF).
  unfold report. cbn [failureRows]. rewrite HP, HF. simpl app.
  rewrite map_map. simpl fst.
  replace (map (fun x => (caseIndex x + 1)%nat) F)
    with (map (fun n => (n + 1)%nat) (map caseIndex F)) by now rewrite map_map.
  split; [now apply sorted_shift |]. split; [| split].
  - apply Forall_forall. intros y Hy. apply list_elem_of_In in Hy.
    apply in_map_iff in Hy as (z & <- & Hz).
    rewrite Forall_forall in HbF. apply list_elem_of_In, HbF in Hz. lia.
  - now rewrite length_map.
  - exact HsP.
Qed.

End UploadRun.

(** ** More on the page loops *)

Import FetchFacts.

Section PageLoopFacts.

Variable World : Type.
Variable axios_get : World -> nat -> Z -> GetResult * World.

(** The requests of a capped loop that starts with [requestCount] requests
    made. *)
Lemma cappedLoop_bounded (fuel : nat) :
  forall (w : World) (allCases : list jsval) (page : Z) (requestCount : nat)
         (tr : list Fetch.event),
  (maxRequests <= fuel + requestCount)%nat ->
  exists r w' tr' made,
    cappedLoop World axios_get fuel w allCases page requestCount tr
    = Some ((r, w', tr'), made)
    /\ (requestCount <= made)%nat
    /\ (made <= Nat.max requestCount maxRequests)%nat
    /\ requests tr' = (requests tr + (made - requestCount))%nat.
Proof.
  induction fuel as [| fuel IH]; intros w allCases page requestCount tr Hfuel.
  - simpl. replace (requestCount <? maxRequests)%nat with false
      by (symmetry; apply Nat.ltb_ge; lia).
    simpl. exists (Ok allCases), w, tr, requestCount. repeat split; lia.
  - cbn [cappedLoop]. destruct (Nat.ltb_spec requestCount maxRequests) as [Hlt | Hge];
      cbn [negb].
    + destruct (axios_get w limit page) as [[res | error] w'].
      * cbv zeta.
        set (more := ((0 <? length (pageOf res))%nat && _)).
        set (all' := if (0 <? length (pageOf res))%nat then _ else _).
        destruct more.
        -- destruct (IH w' all' (page + 1) (S requestCount)
                       (tr ++ [EGet page] ++ [EDelay 200])%list)
             as (r & w'' & tr' & made & Hrun & Hlo & Hhi & Hreq); [lia |].
           exists r, w'', tr', made. split; [exact Hrun |].
           split; [lia |]. split; [lia |].
           rewrite Hreq. unfold requests.
           rewrite List.filter_app, length_app. simpl. lia.
        -- exists (Ok all'), w', (tr ++ [EGet page] ++ [])%list, (S requestCount).
           split; [reflexivity |]. split; [lia |]. split; [lia |].
           unfold requests. rewrite List.filter_app, length_app. simpl. lia.
      * exists (Throw error), w', (tr ++ [EGet page])%list, (S requestCount).
        split; [reflexivity |]. split; [lia |]. split; [lia |].
        unfold requests. rewrite List.filter_app, length_app. simpl. lia.
    + exists (Ok allCases), w, tr, requestCount. repeat split; lia.
Qed.

(** X10: the loop of [GET /cases] that counts its requests always ends:
    whatever the remote service answers, it returns after at most 500
    requests, and [requestsMade] is the number of requests made. *)
Theorem capped_loop_ends_within_500 (w : World) :
  exists r w' tr made,
    cappedLoop World axios_get maxRequests w [] 0 0 [] = Some ((r, w', tr), made)
    /\ (made <= 500)%nat
    /\ requests tr = made.
Proof.
  destruct (cappedLoop_bounded maxRequests w [] 0 0%nat []) as
    (r & w' & tr & made & Hrun & _ & Hhi & Hreq); [lia |].
  exists r, w', tr, made. split; [exact Hrun |]. split.
  - unfold maxRequests in Hhi. lia.
  - rewrite Hreq. simpl. lia.
Qed.

End PageLoopFacts.

Section PageLoopShapes.

Variable World : Type.
Variable axios_get : World -> nat -> Z -> GetResult * World.

Lemma requests_app (a b : list Fetch.event) :
  requests (a ++ b) = (requests a + requests b)%nat.
Proof. unfold requests. now rewrite List.filter_app, length_app. Qed.

Lemma casesLoop_bounded (fuel : nat) :
  forall (w : World) (allCases : list jsval) (page : Z) (tr : list Fetch.event),
  (1 <= fuel)%nat -> (Z.to_nat (101 - page) <= fuel)%nat ->
  exists r w' tr',
    casesLoop World axios_get fuel w allCases page tr = Some (r, w', tr')
    /\ (requests tr' <= requests tr + Nat.max 1 (Z.to_nat (101 - page)))%nat.
Proof.
  induction fuel as [| fuel IH]; intros w allCases page tr Hone Hfuel; [lia |].
  cbn [casesLoop].
  destruct (axios_get w limit page) as [[res | error] w'].
  - cbv zeta. destruct (0 <? length (pageOf res))%nat.
    + set (more := match present (total res) with Some _ => _ | None => _ end).
      destruct more; cbn [andb].
      * destruct (Z.ltb_spec 100 (page + 1)) as [Hcap | Hgo]; cbn [negb].
        -- eexists _, _, _. split; [reflexivity |].
           rewrite !requests_app.
           cbn [requests List.filter isGet length app]. lia.
        -- destruct (IH w' (allCases ++ pageOf res)%list (page + 1)
                       (tr ++ [EGet page] ++ [EDelay 200])%list)
             as (r & w'' & tr' & Hrun & Hreq); [lia | lia |].
           exists r, w'', tr'. split; [exact Hrun |].
           rewrite !requests_app in Hreq.
           cbn [requests List.filter isGet length app] in Hreq. lia.
      * eexists _, _, _. split; [reflexivity |].
        rewrite !requests_app.
        cbn [requests List.filter isGet length app]. lia.
    + eexists _, _, _. split; [reflexivity |].
      rewrite !requests_app.
      cbn [requests List.filter isGet length app]. lia.
  - eexists _, _, _. split; [reflexivity |].
    rewrite !requests_app.
    cbn [requests List.filter isGet length app]. lia.
Qed.

(** X11: the loop of [GET /cases] with the page limit always ends: from
    page 1 it returns after at most 100 requests, whatever the remote
    service answers. *)
Theorem cases_loop_ends_within_100 (w : World) :
  exists r w' tr,
    casesLoop World axios_get 100 w [] 1 [] = Some (r, w', tr)
    /\ (requests tr <= 100)%nat.
Proof.
  destruct (casesLoop_bounded 100 w [] 1 []) as (r & w' & tr & Hrun & Hreq);
    [lia | change (Z.to_nat (101 - 1)) with 100%nat; lia |].
  exists r, w', tr. split; [exact Hrun |].
  change (Z.to_nat (101 - 1)) with 100%nat in Hreq.
  cbn [requests List.filter length] in Hreq. lia.
Qed.

Lemma fetchAllLoop_shape (fuel : nat) :
  forall (w w' : World) (allCases : list jsval) (page : Z)
         (tr tr' : list Fetch.event) (r : result (list jsval)),
  fetchAllLoop World axios_get fuel w allCases page tr = Some (r, w', tr') ->
  exists n, tr' = (tr ++ pagedTrace page n)%list.
Proof.
  induction fuel as [| fuel IH]; intros w w' allCases page tr tr' r Hrun;
    [discriminate |].
  cbn [fetchAllLoop] in Hrun.
  destruct (axios_get w limit page) as [[res | error] w1].
  - cbv zeta in Hrun.
    destruct ((0 <? length (pageOf res))%nat && _).
    + apply IH in Hrun as [n ->]. exists (S n).
      now rewrite <- app_assoc.
    + inversion Hrun; subst. now exists 0%nat.
  - inversion Hrun; subst. now exists 0%nat.
Qed.

Lemma bulkFetchLoop_shape (fuel : nat) :
  forall (w w' : World) (allCases : list jsval) (page : Z)
         (tr tr' : list Fetch.event) (r : result (list jsval)),
  bulkFetchLoop World axios_get fuel w allCases page tr = Some (r, w', tr') ->
  exists n, tr' = (tr ++ pagedTrace page n)%list.
Proof.
  induction fuel as [| fuel IH]; intros w w' allCases page tr tr' r Hrun;
    [discriminate |].
  cbn [bulkFetchLoop] in Hrun.
  destruct (axios_get w limit page) as [[res | error] w1].
  - cbv zeta in Hrun.
    destruct (bulkHasMore res _ page _).
    + apply IH in Hrun as [n ->]. exists (S n).
      now rewrite <- app_assoc.
    + inversion Hrun; subst. now exists 0%nat.
  - inversion Hrun; subst. now exists 0%nat.
Qed.

(** X12: when [fetchAllSimplyConvertCases] or the bulk fetch of the fast
    duplicate check returns, with the cases or with a failure, it has
    requested consecutive pages, from 0 and from 1, with one pause of 200 ms
    between two requests and none after the last request. *)
Theorem page_requests_are_consecutive (fuel : nat) (w w' : World)
    (tr : list Fetch.event) (r : result (list jsval)) :
  (fetchAllLoop World axios_get fuel w [] 0 [] = Some (r, w', tr) ->
   exists n, tr = pagedTrace 0 n)
  /\ (bulkFetch World axios_get fuel w = Some (r, w', tr) ->
      exists n, tr = pagedTrace 1 n).
Proof.
  split; intros Hrun.
  - now apply fetchAllLoop_shape in Hrun.
  - now apply bulkFetchLoop_shape in Hrun.
Qed.

Lemma fetchAllLoop_pages (fuel : nat) :
  forall (w w' : World) (allCases cases : list jsval) (page : Z)
         (tr tr' : list Fetch.event),
  fetchAllLoop World axios_get fuel w allCases page tr = Some (Ok cases, w', tr') ->
  exists n front stop,
    replay World axios_get n w page = (front ++ [stop])%list
    /\ length front = n
    /\ Forall (fun res => fetchAllContinues res = true) front
    /\ fetchAllContinues stop = false
    /\ cases = (allCases ++ concat (map pageOf (front ++ [stop])))%list.
Proof.
  induction fuel as [| fuel IH]; intros w w' allCases cases page tr tr' Hrun;
    [discriminate |].
  cbn [fetchAllLoop] in Hrun.
  destruct (axios_get w limit page) as [[res | error] w1] eqn:Hget;
    [| discriminate].
  cbv zeta in Hrun.
  destruct ((0 <? length (pageOf res))%nat && _) eqn:Hmore.
  - apply IH in Hrun as (n & front & stop & Hreplay & Hlen & Hfront & Hstop & Hcases).
    exists (S n), (res :: front), stop. split; [| split; [| split; [| split]]].
    + cbn [replay]. rewrite Hget, Hreplay. reflexivity.
    + simpl. now rewrite Hlen.
    + constructor; [exact Hmore | exact Hfront].
    + exact Hstop.
    + rewrite Hcases. simpl. now rewrite <- app_assoc.
  - inversion Hrun; subst. exists 0%nat, [], res.
    split; [| split; [| split; [| split]]].
    + cbn [replay]. now rewrite Hget.
    + reflexivity.
    + constructor.
    + exact Hmore.
    + simpl. now rewrite app_nil_r.
Qed.

(** More turns do not change what the loop returns. *)
Lemma fetchAllLoop_fuel (fuel : nat) :
  forall (fuel' : nat) (w : World) (allCases : list jsval) (page : Z)
         (tr : list Fetch.event) (r : Outcome World),
  (fuel <= fuel')%nat ->
  fetchAllLoop World axios_get fuel w allCases page tr = Some r ->
  fetchAllLoop World axios_get fuel' w allCases page tr = Some r.
Proof.
  induction fuel as [| fuel IH]; intros fuel' w allCases page tr r Hle Hrun;
    [discriminate |].
  destruct fuel' as [| fuel']; [lia |].
  cbn [fetchAllLoop] in *.
  destruct (axios_get w limit page) as [[res | error] w1]; [| exact Hrun].
  cbv zeta in *.
  destruct ((0 <? length (pageOf res))%nat && _); [| exact Hrun].
  apply (IH fuel'); [lia | exact Hrun].
Qed.

(** Against a remote service that answers the pages [front] and then a
    page [stop] on which the loop stops, the loop returns their
    concatenation once it has a turn for each of them. *)
Lemma fetchAllLoop_returns (front : list ListResponse) (stop : ListResponse) :
  forall (fuel : nat) (w : World) (allCases : list jsval) (page : Z)
         (tr : list Fetch.event),
  replay World axios_get (length front) w page = (front ++ [stop])%list ->
  Forall (fun res => fetchAllContinues res = true) front ->
  fetchAllContinues stop = false ->
  (length front < fuel)%nat ->
  exists w',
    fetchAllLoop World axios_get fuel w allCases page tr
    = Some (Ok (allCases ++ concat (map pageOf (front ++ [stop])))%list, w',
            (tr ++ pagedTrace page (length front))%list).
Proof.
  induction front as [| res front IH];
    intros fuel w allCases page tr Hreplay Hfront Hstop Hfuel;
    (destruct fuel as [| fuel]; [simpl in Hfuel; lia |]);
    cbn [replay length] in Hreplay; cbn [fetchAllLoop];
    destruct (axios_get w limit page) as [[res' | error] w1];
    try discriminate; cbv zeta.
  - inversion Hreplay; subst res'.
    unfold fetchAllContinues in Hstop. rewrite Hstop.
    exists w1. simpl. now rewrite !app_nil_r.
  - cbn [app] in Hreplay. inversion Hreplay as [[Hres Hrest]]. subst res'.
    inversion Hfront as [| ? ? Hcont Hfront']; subst.
    unfold fetchAllContinues in Hcont. rewrite Hcont.
    destruct (IH fuel w1 (allCases ++ pageOf res)%list (page + 1)
                (tr ++ [EGet page; Fetch.EDelay 200])%list Hrest Hfront' Hstop)
      as (w' & Hrun); [simpl in Hfuel; lia |].
    exists w'. rewrite Hrun. cbn [map concat pagedTrace length].
    now rewrite <- !app_assoc.
Qed.

(** X13: [fetchAllSimplyConvertCases] returns the concatenation, in the
    order received and without removing repeated records, of the pages up
    to and including the first page that is empty, or shorter than 100
    items without [hasMore: true]: when the remote service answers such
    pages, the function returns that list once the loop has a turn for
    each of them, having requested one page after the other; and a list
    that the loop returns is always of that form. *)
Theorem fetch_all_concatenates_pages (env : Env) (w : World)
    (front : list ListResponse) (stop : ListResponse) (fuel : nat) :
  isSet (API_KEY env) = true ->
  replay World axios_get (length front) w 0 = (front ++ [stop])%list ->
  Forall (fun res => fetchAllContinues res = true) front ->
  fetchAllContinues stop = false ->
  (length front < fuel)%nat ->
  (exists w',
     fetchAllSimplyConvertCases World axios_get env fuel w
     = Some (concat (map pageOf (front ++ [stop])), w',
             pagedTrace 0 (length front)))
  /\ (forall fuel' w' cases tr,
        fetchAllLoop World axios_get fuel' w [] 0 [] = Some (Ok cases, w', tr) ->
        cases = concat (map pageOf (front ++ [stop]))).
Proof.
  intros Hkey Hreplay Hfront Hstop Hfuel.
  destruct (fetchAllLoop_returns front stop fuel w [] 0 [] Hreplay Hfront Hstop Hfuel)
    as (w' & Hrun).
  split.
  - exists w'. unfold fetchAllSimplyConvertCases. now rewrite Hkey, Hrun.
  - intros fuel' w2 cases tr Hrun'.
    pose proof (fetchAllLoop_fuel fuel (Nat.max fuel fuel') w [] 0 [] _
                  (Nat.le_max_l _ _) Hrun) as H1.
    pose proof (fetchAllLoop_fuel fuel' (Nat.max fuel fuel') w [] 0 [] _
                  (Nat.le_max_r _ _) Hrun') as H2.
    rewrite H1 in H2. now inversion H2.
Qed.

End PageLoopShapes.

Lemma page_requests_are_consecutive_witness :
  fetchAllLoop (list ListResponse) scripted 5 [fullPage; shortPage] [] 0 []
  = Some (Ok (repeat janeRecord 100 ++ [janeRecord])%list, [],
          [EGet 0; Fetch.EDelay 200; EGet 1])
  /\ exists n, [EGet 0; Fetch.EDelay 200; EGet 1] = pagedTrace 0 n.
Proof.
  assert (Hrun : fetchAllLoop (list ListResponse) scripted 5
                   [fullPage; shortPage] [] 0 []
                 = Some (Ok (repeat janeRecord 100 ++ [janeRecord])%list, [],
                         [EGet 0; Fetch.EDelay 200; EGet 1]))
    by (vm_compute; reflexivity).
  split; [exact Hrun |].
  exact (proj1 (page_requests_are_consecutive (list ListResponse) scripted 5
                  [fullPage; shortPage] [] _ _) Hrun).
Defined.

Lemma fetch_all_concatenates_pages_witness :
  exists w',
    fetchAllSimplyConvertCases (list ListResponse) scripted bareEnv 2
      [fullPage; shortPage]
    = Some ((repeat janeRecord 100 ++ [janeRecord])%list, w',
            [EGet 0; Fetch.EDelay 200; EGet 1]).
Proof.
  destruct (fetch_all_concatenates_pages (list ListResponse) scripted bareEnv
              [fullPage; shortPage] [fullPage] shortPage 2)
    as ((w' & Hrun) & _).
  - reflexivity.
  - reflexivity.
  - repeat constructor.
  - reflexivity.
  - simpl. lia.
  - exists w'. exact Hrun.
Defined.

(** ** The duplicate check behind its handler *)

Import DuplicatesEndpoint EmailMapFacts.

Lemma objGet_text (row : jsobj) (k : string) :
  allStrings row = true ->
  objGet row k = JUndef \/ exists s, objGet row k = JStr s.
Proof.
  induction row as [| [k' v] rest IH]; simpl; intros Hs; [now left |].
  apply andb_true_iff in Hs as [Hv Hrest]. simpl in Hv.
  destruct (String.eqb k' k); [| now apply IH].
  destruct v; try discriminate. right. now exists s.
Qed.

Lemma lowerField_text (row : jsobj) (a b : string) :
  allStrings row = true -> exists s, lowerField row a b = Ok s.
Proof.
  intros Hs. unfold lowerField, jsOr.
  destruct (objGet_text row a Hs) as [-> | [x ->]];
    destruct (objGet_text row b Hs) as [-> | [y ->]]; simpl.
  - now eexists.
  - destruct (nonEmpty y); simpl; [rewrite ?Bool.andb_true_r |]; now eexists.
  - destruct (nonEmpty x) eqn:Hx; simpl; rewrite ?Hx; now eexists.
  - destruct (nonEmpty x) eqn:Hx; simpl; rewrite ?Hx; simpl;
      [now eexists |].
    destruct (nonEmpty y) eqn:Hy; simpl; rewrite ?Hy; now eexists.
Qed.

Lemma forEachRow_no_cases (rows : list jsobj) :
  Forall (fun row => allStrings row = true) rows ->
  forall i acc, forEachRow rows i [] acc = Ok acc.
Proof.
  induction 1 as [| row rest Hrow Hrest IH]; intros i acc; simpl;
    [reflexivity |].
  destruct (lowerField_text row "fname_injured" "fname" Hrow) as [f ->].
  destruct (lowerField_text row "lname_injured" "lname" Hrow) as [l ->].
  destruct (lowerField_text row "email_injured" "email" Hrow) as [e ->].
  simpl. destruct (negb (nonEmpty f) && negb (nonEmpty l) && negb (nonEmpty e));
    apply IH.
Qed.

(** X14: when a page request fails while the existing cases are fetched,
    also after pages were received, [fetchAllSimplyConvertCases] hands back
    the empty list and the handler answers as if the remote store were
    empty: for rows of texts it reports no duplicate, all rows as checked
    and zero existing cases, not an error. *)
Theorem fetch_failure_reports_no_duplicates (World : Type)
    (axios_get : World -> nat -> Z -> GetResult * World) (env : Env)
    (rows : list jsobj) (fuel : nat) (w w' : World) (error : jsobj)
    (tr : list Fetch.event) :
  isSet (API_KEY env) = true ->
  rows <> [] ->
  Forall (fun row => allStrings row = true) rows ->
  fetchAllLoop World axios_get fuel w [] 0 [] = Some (Throw error, w', tr) ->
  fetchAllSimplyConvertCases World axios_get env fuel w = Some ([], w', tr)
  /\ checkDuplicatesHandler World axios_get env (Some rows) fuel w
     = Some (Checked [] (length rows) 0, w', tr).
Proof.
  intros Hkey Hrows Htext Hfail.
  assert (Hfetch : fetchAllSimplyConvertCases World axios_get env fuel w
                   = Some ([], w', tr)).
  { unfold fetchAllSimplyConvertCases. now rewrite Hkey, Hfail. }
  split; [exact Hfetch |].
  unfold checkDuplicatesHandler. rewrite Hkey. simpl negb. cbv iota.
  destruct rows as [| row rest]; [contradiction |].
  rewrite Hfetch. unfold checkDuplicates.
  now rewrite (forEachRow_no_cases _ Htext).
Qed.

Lemma fetch_failure_reports_no_duplicates_witness :
  fetchAllLoop nat failsOnSecond 5 0%nat [] 0 []
  = Some (Throw (mkError "timeout of 30000ms exceeded"), 2%nat,
          [EGet 0; Fetch.EDelay 200; EGet 1])
  /\ checkDuplicatesHandler nat failsOnSecond bareEnv (Some [janeRow]) 5 0%nat
     = Some (Checked [] 1 0, 2%nat, [EGet 0; Fetch.EDelay 200; EGet 1]).
Proof.
  assert (Hfail : fetchAllLoop nat failsOnSecond 5 0%nat [] 0 []
            = Some (Throw (mkError "timeout of 30000ms exceeded"), 2%nat,
                    [EGet 0; Fetch.EDelay 200; EGet 1]))
    by (vm_compute; reflexivity).
  split; [exact Hfail |].
  apply (fetch_failure_reports_no_duplicates nat failsOnSecond bareEnv
           [janeRow] 5 0%nat 2%nat (mkError "timeout of 30000ms exceeded")
           [EGet 0; Fetch.EDelay 200; EGet 1]);
    [reflexivity | discriminate | | exact Hfail].
  repeat constructor.
Defined.

Lemma sorted_snoc (l : list nat) (x : nat) :
  StronglySorted lt l -> Forall (fun y => y < x)%nat l ->
  StronglySorted lt (l ++ [x]).
Proof.
  induction 1 as [| y l Hs IH Hy]; intros Hx; simpl.
  - repeat constructor.
  - inversion Hx; subst. constructor; [now apply IH |].
    apply Forall_app. split; [exact Hy | now repeat constructor].
Qed.

Lemma forEachRow_sorted (rows : list jsobj) (allCases : list jsval) :
  forall (i0 : nat) (acc duplicates : list nat),
  forEachRow rows i0 allCases acc = Ok duplicates ->
  StronglySorted lt acc -> Forall (fun y => y < i0)%nat acc ->
  StronglySorted lt duplicates
  /\ Forall (fun y => y < i0 + length rows)%nat duplicates.
Proof.
  induction rows as [| row rest IH]; intros i0 acc duplicates Hrun Hs Hb;
    simpl in Hrun.
  - inversion Hrun; subst. split; [exact Hs |].
    eapply Forall_impl; [exact Hb |]. simpl. intros; lia.
  - assert (Hb' : Forall (fun y => y < S i0)%nat acc)
      by (eapply Forall_impl; [exact Hb |]; simpl; intros; lia).
    assert (Hgoal : forall acc', forEachRow rest (S i0) allCases acc' = Ok duplicates ->
              StronglySorted lt acc' -> Forall (fun y => y < S i0)%nat acc' ->
              StronglySorted lt duplicates
              /\ Forall (fun y => y < i0 + length (row :: rest))%nat duplicates).
    { intros acc' Hr Hs' Hb''. destruct (IH _ _ _ Hr Hs' Hb'') as [H1 H2].
      split; [exact H1 |]. eapply Forall_impl; [exact H2 |].
      simpl. intros; lia. }
    destruct (lowerField row "fname_injured" "fname") as [f | e];
      simpl in Hrun; [| discriminate].
    destruct (lowerField row "lname_injured" "lname") as [l | e];
      simpl in Hrun; [| discriminate].
    destruct (lowerField row "email_injured" "email") as [m | e];
      simpl in Hrun; [| discriminate].
    destruct (negb (nonEmpty f) && negb (nonEmpty l) && negb (nonEmpty m));
      [now apply (Hgoal acc) |].
    destruct (someMatch f l m allCases) as [[] | e]; simpl in Hrun;
      [| now apply (Hgoal acc) | discriminate].
    apply (Hgoal (acc ++ [i0])%list Hrun).
    + now apply sorted_snoc.
    + apply Forall_app. split; [exact Hb' |]. repeat constructor.
Qed.

Lemma emailTasks_sorted (caseMap : gmap string jsval) (rows : list jsobj) :
  forall (i0 : nat) (found : list nat),
  emailTasks caseMap rows i0 = Ok found ->
  StronglySorted lt found
  /\ Forall (fun y => i0 <= y < i0 + length rows)%nat found.
Proof.
  induction rows as [| row rest IH]; intros i0 found Hrun; simpl in Hrun.
  - inversion Hrun; subst. split; constructor.
  - destruct (emailTask caseMap row i0) as [x | e] eqn:Htask; simpl in Hrun;
      [| discriminate].
    destruct (emailTasks caseMap rest (S i0)) as [more | e] eqn:Hrest;
      simpl in Hrun; [| discriminate].
    inversion Hrun; subst found. destruct (IH _ _ Hrest) as [Hs Hb].
    assert (Hb' : Forall (fun y => i0 <= y < i0 + length (row :: rest))%nat more)
      by (eapply Forall_impl; [exact Hb |]; simpl; intros; lia).
    destruct x as [j |]; [| now split].
    apply emailTask_index in Htask as ->. split.
    + constructor; [exact Hs |].
      eapply Forall_impl; [exact Hb |]. simpl. intros; lia.
    + constructor; [simpl; lia | exact Hb'].
Qed.

(** X15: the [duplicates] list reported by either duplicate check holds
    0-based row indices below the number of rows, in strictly increasing
    order, so no row is listed twice. *)
Theorem reported_duplicates_are_row_indices (pLimitBound : bool)
    (rows : list jsobj) (allCases : list jsval) :
  (StronglySorted lt (reported (checkDuplicates rows allCases))
   /\ Forall (fun i => i < length rows)%nat
        (reported (checkDuplicates rows allCases)))
  /\ (StronglySorted lt
        (reported (emailKeyedDuplicates pLimitBound rows allCases))
      /\ Forall (fun i => i < length rows)%nat
           (reported (emailKeyedDuplicates pLimitBound rows allCases))).
Proof.
  split.
  - unfold checkDuplicates.
    destruct (forEachRow rows 0 allCases []) as [ds | e] eqn:Hrun; simpl;
      [| split; constructor].
    apply (forEachRow_sorted rows allCases 0 [] ds Hrun); constructor.
  - unfold emailKeyedDuplicates.
    destruct (buildCaseMap allCases empty) as [caseMap | e]; simpl;
      [| split; constructor].
    destruct pLimitBound; simpl; [| split; constructor].
    destruct (emailTasks caseMap rows 0) as [found | e] eqn:Hrun; simpl;
      [| split; constructor].
    destruct (emailTasks_sorted caseMap rows 0 found Hrun) as [Hs Hb].
    split; [exact Hs |]. eapply Forall_impl; [exact Hb |]. simpl. intros; lia.
Qed.

Lemma buildCaseMap_app (a b : list jsval) :
  forall caseMap,
  buildCaseMap (a ++ b) caseMap
  = let* m := buildCaseMap a caseMap in buildCaseMap b m.
Proof.
  induction a as [| c a IH]; intros caseMap; simpl; [reflexivity |].
  destruct (caseField c "email_injured") as [v | e]; simpl; [| reflexivity].
  destruct (truthy v); [| apply IH].
  destruct v; try reflexivity. apply IH.
Qed.

(** What the map holds under a key after the records [allCases] were
    filed into [caseMap]. *)
Lemma buildCaseMap_lookup (allCases : list jsval) :
  forall (caseMap0 caseMap : gmap string jsval) (key : string),
  buildCaseMap allCases caseMap0 = Ok caseMap ->
  caseMap !! key
  = match lastFiled key allCases with
    | Some c => Some c
    | None => caseMap0 !! key
    end.
Proof.
  unfold lastFiled.
  induction allCases as [| c rest IH]; intros caseMap0 caseMap key Hbuild;
    simpl in Hbuild.
  - now inversion Hbuild.
  - cbn [List.filter]. unfold filedUnder at 1, emailKey.
    destruct (caseField c "email_injured") as [v | e] eqn:Hfield;
      simpl in Hbuild; [| discriminate].
    assert (Hv : prop c "email_injured" = v)
      by (unfold caseField in Hfield; destruct c; try discriminate;
          now inversion Hfield).
    rewrite Hv.
    destruct v as [| | b | m e | negative | s | items | o];
      simpl in Hbuild;
      try (apply (IH _ _ key) in Hbuild; exact Hbuild);
      try (destruct b; [discriminate | apply (IH _ _ key) in Hbuild; exact Hbuild]);
      try (destruct (negb (m =? 0)); [discriminate | apply (IH _ _ key) in Hbuild; exact Hbuild]);
      try discriminate.
    destruct (nonEmpty s); [| now apply (IH _ _ key) in Hbuild].
    apply (IH _ _ key) in Hbuild. rewrite Hbuild.
    destruct (String.eqb_spec (toLowerCase s) key) as [Heq | Hne].
    + rewrite last_cons. subst key. rewrite lookup_insert_eq.
      now destruct (last (List.filter _ rest)).
    + now rewrite lookup_insert_ne.
Qed.

Lemma lastFiled_nonEmpty (key : string) (allCases : list jsval) (c : jsval) :
  lastFiled key allCases = Some c -> nonEmpty key = true.
Proof.
  unfold lastFiled. intros Hlast.
  assert (Hin : In c (List.filter (filedUnder key) allCases)).
  { apply list_elem_of_In. now apply last_Some_elem_of. }
  apply List.filter_In in Hin as [_ Hfiled].
  unfold filedUnder, emailKey in Hfiled.
  destruct (prop c "email_injured"); try discriminate.
  destruct s as [| ch r]; [discriminate |]. cbn [nonEmpty] in Hfiled.
  apply String.eqb_eq in Hfiled. now subst key.
Qed.

(** A task hands back the index of its row exactly when the record that
    the map holds under the email of the row has the names of the row. *)
Lemma emailTask_flags (caseMap : gmap string jsval) (row : jsobj) (i : nat) :
  emailTask caseMap row i = Ok (Some i) <->
  exists fname lname email existing,
    lowerField row "fname_injured" "fname" = Ok fname
    /\ lowerField row "lname_injured" "lname" = Ok lname
    /\ lowerField row "email_injured" "email" = Ok email
    /\ nonEmpty fname || nonEmpty lname || nonEmpty email = true
    /\ caseMap !! email = Some existing
    /\ existingIs existing "fname_injured" fname = Ok true
    /\ existingIs existing "lname_injured" lname = Ok true.
Proof.
  unfold emailTask. split.
  - destruct (lowerField row "fname_injured" "fname") as [f | e1]; simpl;
      [| discriminate].
    destruct (lowerField row "lname_injured" "lname") as [l | e2]; simpl;
      [| discriminate].
    destruct (lowerField row "email_injured" "email") as [e | e3]; simpl;
      [| discriminate].
    destruct (negb (nonEmpty f) && negb (nonEmpty l) && negb (nonEmpty e)) eqn:Hskip;
      [discriminate |].
    destruct (caseMap !! e) as [existing |] eqn:Hget; [| discriminate].
    destruct (existingIs existing "fname_injured" f) as [[] | e4] eqn:Hf; simpl;
      try discriminate.
    destruct (existingIs existing "lname_injured" l) as [[] | e5] eqn:Hl; simpl;
      try discriminate.
    intros _. exists f, l, e, existing. repeat split; trivial.
    destruct (nonEmpty f), (nonEmpty l), (nonEmpty e); try reflexivity;
      discriminate.
  - intros (f & l & e & existing & -> & -> & -> & Hne & Hget & Hf & Hl). simpl.
    replace (negb (nonEmpty f) && negb (nonEmpty l) && negb (nonEmpty e))
      with false
      by (destruct (nonEmpty f), (nonEmpty l), (nonEmpty e); try reflexivity;
          discriminate).
    rewrite Hget, Hf. simpl. rewrite Hl. reflexivity.
Qed.

Lemma emailTasks_In (caseMap : gmap string jsval) (rows : list jsobj) :
  forall (i0 : nat) (found : list nat) (i : nat),
  emailTasks caseMap rows i0 = Ok found ->
  (In i found <->
   exists k row,
     i = (i0 + k)%nat /\ rows !! k = Some row
     /\ emailTask caseMap row i = Ok (Some i)).
Proof.
  induction rows as [| row rest IH]; intros i0 found i Hrun; simpl in Hrun.
  - inversion Hrun; subst. split; [contradiction |].
    intros (k & r & _ & Hk & _). discriminate.
  - destruct (emailTask caseMap row i0) as [x | e] eqn:Htask; simpl in Hrun;
      [| discriminate].
    destruct (emailTasks caseMap rest (S i0)) as [more | e] eqn:Hrest;
      simpl in Hrun; [| discriminate].
    inversion Hrun; subst found. clear Hrun.
    specialize (IH (S i0) more i Hrest).
    assert (Hlater : In i more <->
                     exists k r, i = (i0 + S k)%nat /\ rest !! k = Some r
                                 /\ emailTask caseMap r i = Ok (Some i)).
    { rewrite IH. split; intros (k & r & -> & Hk & Ht); exists k, r;
        (split; [lia |]); now split. }
    split.
    + intros Hin.
      assert (Hcase : (x = Some i /\ i = i0) \/ In i more).
      { destruct x as [j |]; [| now right].
        destruct Hin as [<- | Hin]; [| now right].
        left. pose proof (emailTask_index _ _ _ _ Htask). now subst. }
      destruct Hcase as [[-> ->] | Hin'].
      * exists 0%nat, row. rewrite Nat.add_0_r. now repeat split.
      * apply Hlater in Hin' as (k & r & -> & Hk & Ht).
        exists (S k), r. now repeat split.
    + intros ([| k] & r & -> & Hk & Ht); simpl in Hk.
      * inversion Hk; subst r. rewrite Nat.add_0_r in Ht.
        rewrite Ht in Htask. inversion Htask; subst x.
        rewrite Nat.add_0_r. now left.
      * assert (Hin : In (i0 + S k)%nat more)
          by (apply Hlater; now exists k, r).
        destruct x; [now right | exact Hin].
Qed.

(** X16: the map that the email-keyed check builds holds under every key
    the last fetched record that is filed under that key, the key of a
    record being the lower case of its email; and when the check answers
    (the limiter being bound), a row is flagged exactly when the last
    record filed under the lower-cased email of the row has the lower-cased
    first and last name of the row.  A record that is followed by another
    record with the same email is therefore never compared with a row. *)
Theorem email_map_keeps_last_record (rows : list jsobj) (allCases : list jsval) :
  (forall caseMap,
     buildCaseMap allCases empty = Ok caseMap ->
     forall key, caseMap !! key = lastFiled key allCases)
  /\ (forall duplicates,
        emailKeyedDuplicates true rows allCases = Ok duplicates ->
        (exists caseMap, buildCaseMap allCases empty = Ok caseMap)
        /\ forall i,
             In i duplicates <->
             exists row fname lname email existing,
               rows !! i = Some row
               /\ lowerField row "fname_injured" "fname" = Ok fname
               /\ lowerField row "lname_injured" "lname" = Ok lname
               /\ lowerField row "email_injured" "email" = Ok email
               /\ lastFiled email allCases = Some existing
               /\ existingIs existing "fname_injured" fname = Ok true
               /\ existingIs existing "lname_injured" lname = Ok true).
Proof.
  assert (Hlookup : forall caseMap,
            buildCaseMap allCases empty = Ok caseMap ->
            forall key, caseMap !! key = lastFiled key allCases).
  { intros caseMap Hbuild key.
    rewrite (buildCaseMap_lookup allCases empty caseMap key Hbuild).
    rewrite lookup_empty. now destruct (lastFiled key allCases). }
  split; [exact Hlookup |].
  unfold emailKeyedDuplicates. intros duplicates Hrun.
  destruct (buildCaseMap allCases empty) as [caseMap | e] eqn:Hbuild;
    simpl in Hrun; [| discriminate].
  split; [now exists caseMap |].
  pose proof (Hlookup caseMap eq_refl) as Hmap.
  intros i. rewrite (emailTasks_In caseMap rows 0 duplicates i Hrun). split.
  - intros (k & row & -> & Hk & Ht).
    apply emailTask_flags in Ht
      as (f & l & e & existing & Hf & Hl & He & _ & Hget & Hsf & Hsl).
    exists row, f, l, e, existing. rewrite <- Hmap. now repeat split.
  - intros (row & f & l & e & existing & Hk & Hf & Hl & He & Hlast & Hsf & Hsl).
    exists i, row. split; [reflexivity |]. split; [exact Hk |].
    apply emailTask_flags. exists f, l, e, existing.
    rewrite Hmap. repeat split; trivial.
    rewrite (lastFiled_nonEmpty e allCases existing Hlast).
    now rewrite orb_true_r.
Qed.

Lemma email_map_keeps_last_record_witness :
  exists caseMap,
    emailKeyedDuplicates true [janeEmailRow; johnEmailRow]
      [janeRecord; johnRecord; annRecord] = Ok [1%nat]
    /\ buildCaseMap [janeRecord; johnRecord; annRecord] empty = Ok caseMap
    /\ caseMap !! "x@y.com" = Some johnRecord
    /\ lastFiled "x@y.com" [janeRecord; johnRecord; annRecord] = Some johnRecord
    /\ reported (checkDuplicates [janeEmailRow; johnEmailRow]
                   [janeRecord; johnRecord; annRecord])
       = [0%nat; 1%nat].
Proof.
  assert (Hrun : emailKeyedDuplicates true [janeEmailRow; johnEmailRow]
                   [janeRecord; johnRecord; annRecord] = Ok [1%nat])
    by (vm_compute; reflexivity).
  destruct (email_map_keeps_last_record [janeEmailRow; johnEmailRow]
              [janeRecord; johnRecord; annRecord]) as (Hmap & Hflag).
  destruct (Hflag _ Hrun) as ((caseMap & Hbuild) & _).
  exists caseMap. split; [exact Hrun |]. split; [exact Hbuild |].
  split; [| split; vm_compute; reflexivity].
  rewrite (Hmap caseMap Hbuild). vm_compute. reflexivity.
Defined.

(** ** The CSV preview *)

Import Csv ObjectFacts.

Lemma append_cons (c : ascii) (a b : string) :
  String c a ++ b = String c (a ++ b).
Proof. reflexivity. Qed.

Lemma append_assoc_char (a : string) (c : ascii) (b : string) :
  (a ++ String c EmptyString) ++ b = a ++ String c b.
Proof.
  induction a as [| d a IH]; [reflexivity |].
  rewrite !append_cons. now rewrite IH.
Qed.

Lemma append_empty_r (a : string) : a ++ EmptyString = a.
Proof.
  induction a as [| d a IH]; [reflexivity |].
  rewrite append_cons. now rewrite IH.
Qed.

(** Inside quotes every character but the quote is kept, the comma
    included. *)
Lemma parseCSVLineFrom_quoted (field rest current : string) :
  countChar dq field = 0%nat ->
  parseCSVLineFrom (field ++ rest) current true
  = parseCSVLineFrom rest (current ++ field) true.
Proof.
  revert current. induction field as [| c f IH]; intros current Hq; simpl.
  - now rewrite append_empty_r.
  - simpl in Hq. destruct (Ascii.eqb c dq); [discriminate |].
    rewrite andb_false_r. rewrite IH by exact Hq.
    now rewrite append_assoc_char.
Qed.

Lemma parseCSVLineFrom_quoted_field (field rest current : string) :
  countChar dq field = 0%nat ->
  parseCSVLineFrom (quoted field ++ rest) current false
  = parseCSVLineFrom rest (current ++ field) false.
Proof.
  intros Hq. unfold quoted. rewrite append_cons, append_assoc_char.
  change (parseCSVLineFrom (String dq (field ++ String dq rest)) current false)
    with (parseCSVLineFrom (field ++ String dq rest) current true).
  now rewrite (parseCSVLineFrom_quoted field _ current Hq).
Qed.

Lemma parseCSVLineFrom_unquoted (line current : string) :
  countChar dq line = 0%nat ->
  parseCSVLineFrom line current false
  = match split "," line with
    | first :: more => (current ++ first) :: more
    | [] => [current]
    end.
Proof.
  revert current. induction line as [| c r IH]; intros current Hq; simpl.
  - now rewrite append_empty_r.
  - simpl in Hq. destruct (Ascii.eqb c dq); [discriminate |].
    destruct (Ascii.eqb c ","); simpl.
    + rewrite IH by exact Hq. rewrite append_empty_r.
      destruct (split "," r) as [| h t] eqn:Hs; [now destruct (split_nonempty "," r) |].
      reflexivity.
    + rewrite IH by exact Hq.
      destruct (split "," r) as [| h t] eqn:Hs; [now destruct (split_nonempty "," r) |].
      now rewrite append_assoc_char.
Qed.

Lemma parseCSVLineFrom_no_quotes (line : string) :
  forall current inQuotes,
  countChar dq current = 0%nat ->
  Forall (fun value => countChar dq value = 0%nat)
    (parseCSVLineFrom line current inQuotes).
Proof.
  induction line as [| c r IH]; intros current inQuotes Hc; simpl.
  - now repeat constructor.
  - destruct (Ascii.eqb c dq) eqn:Hq; [now apply IH |].
    destruct (Ascii.eqb c "," && negb inQuotes).
    + constructor; [exact Hc | now apply IH].
    + apply IH. rewrite countChar_app, Hc. simpl. now rewrite Hq.
Qed.

(** X17: [parseCSVLine] never returns an empty list and no value it
    returns holds a quote; on a line without quotes it is the split on
    commas; and it reads back a list of fields written between quotes and
    joined by commas, whatever commas the fields hold, as long as no field
    holds a quote. *)
Theorem parseCSVLine_reads_quoted_fields :
  (forall line, parseCSVLine line <> []
                /\ Forall (fun value => countChar dq value = 0%nat)
                     (parseCSVLine line))
  /\ (forall line, countChar dq line = 0%nat ->
                   parseCSVLine line = split "," line)
  /\ (forall fields, fields <> [] ->
        Forall (fun field => countChar dq field = 0%nat) fields ->
        parseCSVLine (join "," (map quoted fields)) = fields).
Proof.
  split; [| split].
  - intros line. split.
    + unfold parseCSVLine. generalize EmptyString, false.
      induction line as [| c r IH]; intros current q; simpl; [discriminate |].
      destruct (Ascii.eqb c dq); [apply IH |].
      destruct (Ascii.eqb c "," && negb q); [discriminate | apply IH].
    + now apply parseCSVLineFrom_no_quotes.
  - intros line Hq. unfold parseCSVLine.
    rewrite parseCSVLineFrom_unquoted by exact Hq.
    destruct (split "," line) as [| h t] eqn:Hs;
      [now destruct (split_nonempty "," line) | reflexivity].
  - intros fields Hne Hq. unfold parseCSVLine.
    induction fields as [| f rest IH]; [contradiction |].
    inversion Hq as [| ? ? Hf Hrest]; subst.
    destruct rest as [| g rest'].
    + change (join "," (map quoted [f])) with (quoted f).
      rewrite <- (append_empty_r (quoted f)).
      now rewrite (parseCSVLineFrom_quoted_field f EmptyString EmptyString Hf).
    + change (join "," (map quoted (f :: g :: rest')))
        with (quoted f ++ String "," (join "," (map quoted (g :: rest')))).
      rewrite (parseCSVLineFrom_quoted_field f _ EmptyString Hf).
      change (parseCSVLineFrom (String "," (join "," (map quoted (g :: rest'))))
                (EmptyString ++ f) false)
        with (f :: parseCSVLineFrom (join "," (map quoted (g :: rest')))
                     EmptyString false).
      f_equal. apply IH; [discriminate | exact Hrest].
Qed.

Lemma parseCSVLine_reads_quoted_fields_witness :
  parseCSVLine (join "," (map quoted ["Doe, Jane"; EmptyString; "a,b,c"]))
  = ["Doe, Jane"; EmptyString; "a,b,c"].
Proof.
  apply (proj2 (proj2 parseCSVLine_reads_quoted_fields)); [discriminate |].
  repeat constructor.
Defined.

Lemma dataRows_entries (csvHeaders : list string) (lines : list string) :
  forall (i0 : nat) (e : Entry),
  In e (dataRows csvHeaders lines i0) <->
  exists k line,
    lines !! k = Some line
    /\ length (parseCSVLine line) = length csvHeaders
    /\ e = {| data := fold_left setCell (combine csvHeaders (parseCSVLine line)) [];
              selected := true;
              index := (i0 + k)%nat |}.
Proof.
  induction lines as [| line rest IH]; intros i0 e; simpl.
  - split; [contradiction | intros (k & l & Hk & _); discriminate].
  - destruct (Nat.eqb_spec (length (parseCSVLine line)) (length csvHeaders))
      as [Heq | Hne]; simpl; rewrite IH; split.
    + intros [<- | (k & l & Hk & Hlen & ->)].
      * exists 0%nat, line. rewrite Nat.add_0_r. now repeat split.
      * exists (S k), l. repeat split; trivial. f_equal. lia.
    + intros ([| k] & l & Hk & Hlen & ->); simpl in Hk.
      * inversion Hk; subst l. left. now rewrite Nat.add_0_r.
      * right. exists k, l. repeat split; trivial. f_equal. lia.
    + intros (k & l & Hk & Hlen & ->). exists (S k), l.
      repeat split; trivial. f_equal. lia.
    + intros ([| k] & l & Hk & Hlen & ->); simpl in Hk.
      * inversion Hk; subst l. contradiction.
      * exists k, l. repeat split; trivial. f_equal. lia.
Qed.

Lemma dataRows_sorted (csvHeaders : list string) (lines : list string) :
  forall i0,
  StronglySorted lt (map index (dataRows csvHeaders lines i0))
  /\ Forall (fun i => i0 <= i)%nat (map index (dataRows csvHeaders lines i0)).
Proof.
  induction lines as [| line rest IH]; intros i0; simpl.
  - split; constructor.
  - destruct (IH (S i0)) as [Hs Hb].
    assert (Hb' : Forall (fun i => i0 <= i)%nat
                    (map index (dataRows csvHeaders rest (S i0))))
      by (eapply Forall_impl; [exact Hb |]; simpl; intros; lia).
    destruct (length (parseCSVLine line) =? length csvHeaders)%nat; simpl;
      [| now split].
    split.
    + constructor; [exact Hs |].
      eapply Forall_impl; [exact Hb |]. simpl. intros; lia.
    + constructor; [lia | exact Hb'].
Qed.

Lemma objDefine_fresh (o : jsobj) (k : string) (v : jsval) :
  ~ In k (map fst o) -> arrayIndex k = None ->
  objDefine o k v = (o ++ [(k, v)])%list.
Proof.
  intros Hk Hidx. unfold objDefine. now rewrite (hasKey_fresh o k Hk), Hidx.
Qed.

Lemma insertIndex_sorted (o : jsobj) (n : N) (k : string) (v : jsval) :
  arrayIndex k = Some n -> StronglySorted before o ->
  StronglySorted before (insertIndex o n k v).
Proof.
  intros Hk Hs. induction Hs as [| [k' v'] r Hs IH Hall]; simpl.
  - repeat constructor.
  - destruct (arrayIndex k') as [n' |] eqn:Hk'.
    + destruct (N.ltb_spec n' n) as [Hlt | Hge].
      * constructor; [exact IH |]. rewrite insertIndex_Permutation.
        constructor; [| exact Hall].
        unfold before. simpl. rewrite Hk', Hk. lia.
      * constructor; [now constructor |]. constructor.
        { unfold before. simpl. rewrite Hk, Hk'. lia. }
        eapply Forall_impl; [exact Hall |]. intros x Hx.
        unfold before in *. simpl in *. rewrite Hk' in Hx. rewrite Hk.
        destruct (arrayIndex (fst x)); [lia | exact I].
    + constructor; [now constructor |]. constructor.
      { unfold before. simpl. rewrite Hk, Hk'. exact I. }
      eapply Forall_impl; [exact Hall |]. intros x Hx.
      unfold before in *. simpl in *. rewrite Hk' in Hx. rewrite Hk.
      destruct (arrayIndex (fst x)); [contradiction | exact I].
Qed.

Lemma append_sorted (o : jsobj) (k : string) (v : jsval) :
  arrayIndex k = None -> StronglySorted before o ->
  StronglySorted before (o ++ [(k, v)]).
Proof.
  intros Hk Hs. induction Hs as [| a r Hs IH Hall]; simpl.
  - repeat constructor.
  - constructor; [exact IH |]. apply Forall_app. split; [exact Hall |].
    constructor; [| constructor].
    unfold before. simpl. rewrite Hk. now destruct (arrayIndex (fst a)).
Qed.

Lemma insertIndex_others (o : jsobj) (n : N) (k : string) (v : jsval) :
  arrayIndex k = Some n -> otherEntries (insertIndex o n k v) = otherEntries o.
Proof.
  intros Hk. unfold otherEntries.
  assert (Hnew : negb (isIndexKey (k, v)) = false)
    by (unfold isIndexKey; simpl; now rewrite Hk).
  induction o as [| [k' v'] r IH]; cbn [insertIndex List.filter].
  - now rewrite Hnew.
  - destruct (arrayIndex k') as [n' |] eqn:Hk'.
    + destruct (n' <? n)%N; cbn [List.filter].
      * now rewrite IH.
      * now rewrite Hnew.
    + cbn [List.filter]. now rewrite Hnew.
Qed.

(** A new property takes its place in the enumeration order. *)
Lemma objDefine_enumerated (o : jsobj) (k : string) (v : jsval) :
  ~ In k (map fst o) -> StronglySorted before o ->
  StronglySorted before (objDefine o k v)
  /\ otherEntries (objDefine o k v)
     = (otherEntries o ++ otherEntries [(k, v)])%list.
Proof.
  intros Hk Hs. unfold objDefine. rewrite (hasKey_fresh o k Hk).
  destruct (arrayIndex k) as [n |] eqn:Hidx.
  - split; [now apply insertIndex_sorted |].
    rewrite (insertIndex_others o n k v Hidx).
    unfold otherEntries at 3, isIndexKey. simpl. rewrite Hidx. simpl.
    now rewrite app_nil_r.
  - split; [now apply append_sorted |].
    unfold otherEntries. now rewrite List.filter_app.
Qed.

Lemma countChar_trimStart (c : ascii) (s : string) :
  countChar c s = 0%nat -> countChar c (trimStart s) = 0%nat.
Proof.
  induction s as [| d r IH]; simpl; [trivial |].
  destruct (isSpace d); [| trivial]. intros H. apply IH. lia.
Qed.

Lemma countChar_trimEnd (c : ascii) (s : string) :
  countChar c s = 0%nat -> countChar c (trimEnd s) = 0%nat.
Proof.
  induction s as [| d r IH]; [trivial |].
  rewrite trimEnd_cons. cbn [countChar]. intros H.
  assert (Hd : (if Ascii.eqb d c then 1 else 0)%nat = 0%nat) by lia.
  assert (Hr : countChar c (trimEnd r) = 0%nat) by (apply IH; lia).
  destruct (trimEnd r) as [| d' r'].
  - destruct (isSpace d); [reflexivity |]. cbn [countChar]. lia.
  - cbn [countChar] in *. lia.
Qed.

Lemma dropLast_other (c : ascii) (s : string) :
  countChar c s = 0%nat -> dropLast c s = s.
Proof.
  induction s as [| d r IH]; [reflexivity |].
  cbn [countChar]. intros H.
  destruct (Ascii.eqb d c) eqn:Hd; [discriminate |].
  destruct r as [| d' r']; cbn [dropLast]; [now rewrite Hd |].
  f_equal. apply IH. exact H.
Qed.

Lemma stripQuotes_unquoted (s : string) :
  countChar dq s = 0%nat -> stripQuotes s = s.
Proof.
  intros H. unfold stripQuotes. destruct s as [| c r]; [reflexivity |].
  cbn [countChar] in H. destruct (Ascii.eqb c dq) eqn:Hc; [discriminate |].
  apply dropLast_other. cbn [countChar]. now rewrite Hc.
Qed.

(** The cells of a line under headers none of which is an array index:
    in the order of the headers. *)
Lemma cells_of_row (csvHeaders values : list string) :
  forall acc,
  NoDup csvHeaders -> ~ In "__proto__" csvHeaders ->
  Forall (fun h => arrayIndex h = None) csvHeaders ->
  (forall h, In h csvHeaders -> ~ In h (map fst acc)) ->
  Forall (fun value => countChar dq value = 0%nat) values ->
  fold_left setCell (combine csvHeaders values) acc
  = (acc ++ combine csvHeaders (map (fun v => JStr (trim v)) values))%list.
Proof.
  revert values.
  induction csvHeaders as [| h hs IH]; intros values acc Hnd Hp Hidx Hfresh Hq.
  - simpl. now rewrite app_nil_r.
  - destruct values as [| v vs]; [simpl; now rewrite app_nil_r |].
    apply NoDup_cons in Hnd as [Hh Hnd]. rewrite list_elem_of_In in Hh.
    inversion Hq as [| ? ? Hv Hvs]; subst.
    inversion Hidx as [| ? ? Hih Hihs]; subst.
    cbn [combine fold_left map setCell].
    destruct (String.eqb_spec h "__proto__") as [-> | _];
      [exfalso; apply Hp; now left |].
    rewrite objDefine_fresh by (trivial; apply Hfresh; now left).
    rewrite stripQuotes_unquoted
      by (unfold trim; now apply countChar_trimEnd, countChar_trimStart).
    rewrite IH; trivial.
    + now rewrite <- app_assoc.
    + intros Hin. apply Hp. now right.
    + intros x Hx. rewrite map_app, in_app_iff. simpl.
      intros [Hin | [<- | []]]; [| contradiction].
      apply (Hfresh x); [now right | exact Hin].
Qed.

(** The cells of a line under any distinct headers: every cell is there,
    in enumeration order, the cells whose header is not an array index in
    the order of the headers. *)
Lemma cells_enumerated (csvHeaders values : list string) :
  forall acc,
  NoDup csvHeaders -> ~ In "__proto__" csvHeaders ->
  (forall h, In h csvHeaders -> ~ In h (map fst acc)) ->
  Forall (fun value => countChar dq value = 0%nat) values ->
  StronglySorted before acc ->
  let cells := combine csvHeaders (map (fun v => JStr (trim v)) values) in
  let row := fold_left setCell (combine csvHeaders values) acc in
  Permutation row (acc ++ cells)
  /\ StronglySorted before row
  /\ otherEntries row = (otherEntries acc ++ otherEntries cells)%list.
Proof.
  revert values.
  induction csvHeaders as [| h hs IH]; intros values acc Hnd Hp Hfresh Hq Hs.
  - simpl. rewrite !app_nil_r. now repeat split.
  - destruct values as [| v vs];
      [simpl; rewrite !app_nil_r; now repeat split |].
    apply NoDup_cons in Hnd as [Hh Hnd]. rewrite list_elem_of_In in Hh.
    inversion Hq as [| ? ? Hv Hvs]; subst.
    cbn [combine fold_left map setCell].
    destruct (String.eqb_spec h "__proto__") as [-> | _];
      [exfalso; apply Hp; now left |].
    rewrite stripQuotes_unquoted
      by (unfold trim; now apply countChar_trimEnd, countChar_trimStart).
    assert (Hnew : ~ In h (map fst acc)) by (apply Hfresh; now left).
    destruct (objDefine_enumerated acc h (JStr (trim v)) Hnew Hs)
      as [Hs' Hothers].
    destruct (IH vs (objDefine acc h (JStr (trim v)))) as (Hperm & Hsorted & Hrest);
      trivial.
    + intros Hin. apply Hp. now right.
    + intros x Hx. rewrite objDefine_keys.
      intros [Hin | ->]; [| contradiction].
      apply (Hfresh x); [now right | exact Hin].
    + cbv zeta. split; [| split; [exact Hsorted |]].
      * rewrite Hperm, (objDefine_new acc h _ (hasKey_fresh acc h Hnew)).
        simpl. apply Permutation_middle.
      * rewrite Hrest, Hothers, <- app_assoc. f_equal.
        unfold otherEntries. now rewrite <- List.filter_app.
Qed.

(** X18: [parseCSV] keeps a data line exactly when [parseCSVLine] gives as
    many values as the header line gives headers, and drops it otherwise;
    the kept entries are selected, follow the order of the lines and carry
    the number of their line among the non-blank lines; and when the
    headers are distinct and none is [__proto__], the data of an entry pair
    each header with the trimmed value of its column, in the enumeration
    order of an object: the headers that are array indices first, in
    ascending order, then the other headers in the order of the header
    line, which is the order of all the cells when no header is an array
    index. *)
Theorem parseCSV_keeps_matching_lines (text : string)
    (csvHeaders : list string) (csvData : list Entry) :
  parseCSV text = Ok (csvHeaders, csvData) ->
  StronglySorted lt (map index csvData)
  /\ (forall e, In e csvData ->
        selected e = true
        /\ (1 <= index e)%nat
        /\ exists line,
             nonBlankLines text !! index e = Some line
             /\ length (parseCSVLine line) = length csvHeaders
             /\ (NoDup csvHeaders -> ~ In "__proto__" csvHeaders ->
                 let cells :=
                   combine csvHeaders
                     (map (fun v => JStr (trim v)) (parseCSVLine line)) in
                 Permutation (data e) cells
                 /\ StronglySorted before (data e)
                 /\ otherEntries (data e) = otherEntries cells
                 /\ (Forall (fun h => arrayIndex h = None) csvHeaders ->
                     data e = cells)))
  /\ (forall i line, (1 <= i)%nat -> nonBlankLines text !! i = Some line ->
        (In i (map index csvData)
         <-> length (parseCSVLine line) = length csvHeaders)).
Proof.
  unfold parseCSV. intros Hrun.
  destruct (nonBlankLines text) as [| first rest]; [discriminate |].
  inversion Hrun; subst csvData. clear Hrun.
  set (hs := map (fun h => stripQuotes (trim h)) (split "," first)) in *.
  subst csvHeaders. split; [| split].
  - apply (proj1 (dataRows_sorted hs rest 1)).
  - intros e He. apply dataRows_entries in He as (k & line & Hk & Hlen & ->).
    cbn [selected index data]. split; [reflexivity |]. split; [lia |].
    exists line. split; [exact Hk |]. split; [exact Hlen |].
    intros Hnd Hp.
    assert (Hq : Forall (fun value => countChar dq value = 0%nat)
                   (parseCSVLine line))
      by now apply parseCSVLineFrom_no_quotes.
    destruct (cells_enumerated hs (parseCSVLine line) [] Hnd Hp)
      as (Hperm & Hsorted & Hothers); trivial; [intros h _ [] | constructor |].
    cbv zeta. split; [exact Hperm |]. split; [exact Hsorted |].
    split; [exact Hothers |].
    intros Hidx. rewrite cells_of_row; trivial. intros h _ [].
  - intros i line Hi Hline. destruct i as [| k]; [lia |]. simpl in Hline.
    rewrite in_map_iff. split.
    + intros (e & Hidx & He).
      apply dataRows_entries in He as (k' & line' & Hk' & Hlen & ->).
      cbn [index] in Hidx. assert (k' = k) by lia. subst k'.
      rewrite Hline in Hk'. now inversion Hk'; subst.
    + intros Hlen.
      exists {| data := fold_left setCell (combine hs (parseCSVLine line)) [];
                selected := true; index := (1 + k)%nat |}.
      split; [reflexivity |]. apply dataRows_entries. now exists k, line.
Qed.

Lemma parseCSV_keeps_matching_lines_witness :
  (exists csvHeaders csvData,
     parseCSV csvText = Ok (csvHeaders, csvData)
     /\ csvHeaders = ["fname"; "lname"; "email"]
     /\ map index csvData = [1%nat; 3%nat]
     /\ StronglySorted lt (map index csvData))
  /\ (exists e,
        parseCSV indexCsvText = Ok (["b"; "1"], [e])
        /\ data e = [("1", JStr "y"); ("b", JStr "x")]
        /\ StronglySorted before (data e)
        /\ otherEntries (data e) = [("b", JStr "x")]).
Proof.
  split.
  - destruct (parseCSV csvText) as [[csvHeaders csvData] | e] eqn:Hrun;
      [| vm_compute in Hrun; discriminate].
    exists csvHeaders, csvData. split; [reflexivity |].
    destruct (parseCSV_keeps_matching_lines csvText csvHeaders csvData Hrun)
      as (Hsorted & _).
    vm_compute in Hrun. inversion Hrun; subst.
    split; [reflexivity |]. split; [reflexivity | exact Hsorted].
  - assert (Hrun : parseCSV indexCsvText
                   = Ok (["b"; "1"],
                         [{| data := [("1", JStr "y"); ("b", JStr "x")];
                             selected := true; index := 1 |}]))
      by (vm_compute; reflexivity).
    eexists. split; [exact Hrun |]. split; [reflexivity |].
    destruct (parseCSV_keeps_matching_lines indexCsvText _ _ Hrun)
      as (_ & Hdata & _).
    destruct (Hdata _ (or_introl eq_refl)) as (_ & _ & line & Hline & _ & Hcells).
    vm_compute in Hline. inversion Hline; subst line.
    destruct Hcells as (_ & Hsorted & Hothers & _);
      [distinct_keys | intros [H | [H | []]]; discriminate |].
    split; [exact Hsorted | exact Hothers].
Defined.

(** ** The per-row duplicate check *)

Import PerRow PerRowFacts.

Section PerRowCheck.

Variable World : Type.
Variable axios_get : World -> Query -> GetResult * World.

#[local] Abbreviation checkRows := (checkRows World axios_get).
#[local] Abbreviation pages := (pages World axios_get).

Lemma checkRows_passes_over (rows : list jsobj) (pageFuel : nat) :
  Forall (fun row => noIdentity row = true) rows ->
  forall (fuel i : nat) (w : World) (duplicates : list nat)
         (tr : list PerRow.event),
  (length rows - i < fuel)%nat ->
  checkRows fuel pageFuel w rows i duplicates tr = Some (duplicates, w, tr).
Proof.
  intros Hall. induction fuel as [| fuel IH]; intros i w duplicates tr Hfuel;
    [lia |].
  cbn [PerRow.checkRows].
  destruct (rows !! i) as [row |] eqn:Hrow; [| reflexivity].
  assert (Hno : noIdentity row = true).
  { rewrite Forall_forall in Hall. apply Hall.
    apply list_elem_of_lookup. now exists i. }
  unfold noIdentity in Hno. cbv zeta. rewrite Hno.
  apply IH. apply lookup_lt_Some in Hrow. lia.
Qed.

(** X19: the per-row check passes over the rows that supply no first name,
    no last name and no email: a batch of such rows is answered without any
    request and without any pause, with no duplicate. *)
Theorem rows_without_identity_are_not_queried (rows : list jsobj)
    (pageFuel : nat) (w : World) :
  Forall (fun row => noIdentity row = true) rows ->
  checkRows (S (length rows)) pageFuel w rows 0 [] [] = Some ([], w, []).
Proof.
  intros Hall. apply checkRows_passes_over; [exact Hall | lia].
Qed.

Lemma checkRows_sorted (pageFuel : nat) (rows : list jsobj) :
  forall (fuel i : nat) (w w' : World) (duplicates found : list nat)
         (tr tr' : list PerRow.event),
  checkRows fuel pageFuel w rows i duplicates tr = Some (found, w', tr') ->
  (i <= length rows)%nat ->
  StronglySorted lt duplicates -> Forall (fun j => j < i)%nat duplicates ->
  StronglySorted lt found /\ Forall (fun j => j < length rows)%nat found.
Proof.
  induction fuel as [| fuel IH];
    intros i w w' duplicates found tr tr' Hrun Hle Hs Hb; [discriminate |].
  cbn [PerRow.checkRows] in Hrun.
  destruct (rows !! i) as [row |] eqn:Hrow.
  - assert (Hi : (S i <= length rows)%nat) by (now apply lookup_lt_Some in Hrow).
    assert (Hb' : Forall (fun j => j < S i)%nat duplicates)
      by (eapply Forall_impl; [exact Hb |]; simpl; intros; lia).
    cbv zeta in Hrun.
    destruct (negb (truthy (rawField row "fname_injured" "fname"))
              && negb (truthy (rawField row "lname_injured" "lname"))
              && negb (truthy (rawField row "email_injured" "email")));
      [now apply (IH _ _ _ _ _ _ _ Hrun) |].
    assert (Hcaught : forall error w1 tr1,
      (if rateLimited error
       then checkRows fuel pageFuel w1 rows i duplicates (tr1 ++ [EWait 2000])
       else checkRows fuel pageFuel w1 rows (S i) duplicates tr1)
      = Some (found, w', tr') ->
      StronglySorted lt found /\ Forall (fun j => j < length rows)%nat found).
    { intros error w1 tr1 H. destruct (rateLimited error);
        now apply (IH _ _ _ _ _ _ _ H). }
    destruct (pages pageFuel w _ _ _ [] 1 tr) as [[[[allCases | error] w1] tr1] |];
      [| now apply (Hcaught error w1 tr1) | discriminate].
    destruct (exactMatch _ _ _ allCases) as [[] | error];
      [| now apply (IH _ _ _ _ _ _ _ Hrun) | now apply (Hcaught error w1 tr1)].
    apply (IH _ _ _ _ _ _ _ Hrun); [exact Hi | |].
    + now apply sorted_snoc.
    + apply Forall_app. split; [exact Hb' |]. repeat constructor.
  - inversion Hrun; subst. split; [exact Hs |].
    eapply Forall_impl; [exact Hb |]. simpl. intros; lia.
Qed.

(** X20: when the per-row check returns, its duplicates are row indices
    below the number of rows in strictly increasing order: a row is listed
    at most once, however often it was retried. *)
Theorem per_row_duplicates_are_row_indices (fuel pageFuel : nat)
    (rows : list jsobj) (w w' : World) (found : list nat)
    (tr : list PerRow.event) :
  checkRows fuel pageFuel w rows 0 [] [] = Some (found, w', tr) ->
  StronglySorted lt found /\ Forall (fun j => j < length rows)%nat found.
Proof.
  intros Hrun.
  apply (checkRows_sorted _ _ _ _ _ _ _ _ _ _ Hrun); [lia | constructor ..].
Qed.

(** A failed first request while a row is checked is caught: on the status
    429 the handler waits 2000 ms and checks the same row again; on any
    other failure it goes on with the next row. *)
Lemma checkRows_caught (fuel pageFuel : nat) (rows : list jsobj)
    (i : nat) (row : jsobj) (w w' : World) (error : jsobj)
    (duplicates : list nat) (tr : list PerRow.event) :
  rows !! i = Some row ->
  noIdentity row = false ->
  let q := {| q_fname := param (rawField row "fname_injured" "fname");
              q_lname := param (rawField row "lname_injured" "lname");
              q_email := param (rawField row "email_injured" "email");
              q_page := 1 |} in
  axios_get w q = (GetFailed error, w') ->
  checkRows (S fuel) (S pageFuel) w rows i duplicates tr
  = if rateLimited error
    then checkRows fuel (S pageFuel) w' rows i duplicates
           (tr ++ [EQuery q; EWait 2000])
    else checkRows fuel (S pageFuel) w' rows (S i) duplicates
           (tr ++ [EQuery q]).
Proof.
  intros Hrow Hid q Hget. cbn [PerRow.checkRows]. rewrite Hrow. cbv zeta.
  unfold noIdentity in Hid. rewrite Hid.
  cbn [PerRow.pages]. fold q. rewrite Hget.
  destruct (rateLimited error); [| reflexivity].
  now rewrite <- app_assoc.
Qed.

Lemma queries_app (a b : list PerRow.event) :
  queries (a ++ b) = (queries a + queries b)%nat.
Proof. unfold queries. now rewrite List.filter_app, length_app. Qed.

Lemma waits_app (a b : list PerRow.event) :
  waits (a ++ b) = (waits a + waits b)%nat.
Proof. unfold waits. now rewrite List.filter_app, length_app. Qed.

Lemma checkRows_all_fail (rows : list jsobj) (pageFuel : nat) :
  (forall w q, exists error w',
     axios_get w q = (GetFailed error, w') /\ rateLimited error = false) ->
  forall (fuel i : nat) (w : World) (duplicates : list nat)
         (tr : list PerRow.event),
  (length rows - i < fuel)%nat ->
  exists w' tr',
    checkRows fuel (S pageFuel) w rows i duplicates tr
    = Some (duplicates, w', tr')
    /\ queries tr' = (queries tr + length (withIdentity (drop i rows)))%nat
    /\ waits tr' = waits tr.
Proof.
  intros Hall. induction fuel as [| fuel IH]; intros i w duplicates tr Hfuel;
    [lia |].
  cbn [PerRow.checkRows].
  destruct (rows !! i) as [row |] eqn:Hrow.
  - rewrite (drop_S _ _ _ Hrow). unfold withIdentity. cbn [List.filter].
    fold (withIdentity (drop (S i) rows)).
    apply lookup_lt_Some in Hrow. cbv zeta.
    unfold noIdentity at 1.
    destruct (negb (truthy (rawField row "fname_injured" "fname"))
              && negb (truthy (rawField row "lname_injured" "lname"))
              && negb (truthy (rawField row "email_injured" "email"))).
    + destruct (IH (S i) w duplicates tr) as (w' & tr' & Hrun & Hq & Hw); [lia |].
      exists w', tr'. split; [exact Hrun |]. split; [| exact Hw].
      rewrite Hq. simpl. lia.
    + cbn [PerRow.pages].
      destruct (Hall w {| q_fname := param (rawField row "fname_injured" "fname");
                          q_lname := param (rawField row "lname_injured" "lname");
                          q_email := param (rawField row "email_injured" "email");
                          q_page := 1 |}) as (error & w1 & -> & ->).
      destruct (IH (S i) w1 duplicates
                  (tr ++ [EQuery {| q_fname := param (rawField row "fname_injured" "fname");
                                     q_lname := param (rawField row "lname_injured" "lname");
                                     q_email := param (rawField row "email_injured" "email");
                                     q_page := 1 |}])%list)
        as (w' & tr' & Hrun & Hq & Hw); [lia |].
      exists w', tr'. split; [exact Hrun |].
      rewrite queries_app in Hq. rewrite waits_app in Hw.
      cbn [queries waits List.filter isQuery negb length] in Hq, Hw.
      split; [| lia]. rewrite Hq. cbn [negb length]. lia.
  - exists w, tr. split; [reflexivity |].
    apply lookup_ge_None in Hrow. rewrite drop_ge by lia.
    cbn. split; lia.
Qed.

(** X21: a failed request other than a 429 is not an error of the per-row
    check: against a remote service of which every request fails so, the
    check returns with no duplicate, having made exactly one request for
    each row that supplies a name or an email, and no pause at all. *)
Theorem per_row_failures_report_no_duplicates (rows : list jsobj)
    (pageFuel : nat) (w : World) :
  (forall w q, exists error w',
     axios_get w q = (GetFailed error, w') /\ rateLimited error = false) ->
  exists w' tr,
    checkRows (S (length rows)) (S pageFuel) w rows 0 [] [] = Some ([], w', tr)
    /\ queries tr = length (withIdentity rows)
    /\ waits tr = 0%nat.
Proof.
  intros Hall.
  destruct (checkRows_all_fail rows pageFuel Hall (S (length rows)) 0 w [] [])
    as (w' & tr & Hrun & Hq & Hw); [lia |].
  exists w', tr. split; [exact Hrun |]. split; [exact Hq | exact Hw].
Qed.

(** X22: the retry has no bound: against a remote service that answers
    every request by the status 429, the check of a row that supplies a
    name or an email never returns. *)
Theorem per_row_retry_is_unbounded (rows : list jsobj) (i : nat) (row : jsobj) :
  (forall w q, exists error w',
     axios_get w q = (GetFailed error, w') /\ rateLimited error = true) ->
  rows !! i = Some row ->
  noIdentity row = false ->
  forall fuel pageFuel w duplicates tr,
  checkRows fuel pageFuel w rows i duplicates tr = None.
Proof.
  intros Hall Hrow Hid. induction fuel as [| fuel IH];
    intros pageFuel w duplicates tr; [reflexivity |].
  cbn [PerRow.checkRows]. rewrite Hrow. cbv zeta.
  unfold noIdentity in Hid. rewrite Hid.
  destruct pageFuel as [| pageFuel]; [reflexivity |].
  cbn [PerRow.pages].
  destruct (Hall w {| q_fname := param (rawField row "fname_injured" "fname");
                      q_lname := param (rawField row "lname_injured" "lname");
                      q_email := param (rawField row "email_injured" "email");
                      q_page := 1 |}) as (error & w' & -> & ->).
  apply IH.
Qed.

End PerRowCheck.

Lemma rows_without_identity_are_not_queried_witness :
  Forall (fun row => noIdentity row = true) [emptyRow; []]
  /\ PerRow.checkRows nat always429 3 1 0%nat [emptyRow; []] 0 [] []
     = Some ([], 0%nat, []).
Proof.
  assert (H : Forall (fun row => noIdentity row = true) [emptyRow; []])
    by (repeat constructor).
  split; [exact H |].
  exact (rows_without_identity_are_not_queried nat always429 [emptyRow; []] 1 0%nat H).
Defined.

Lemma per_row_duplicates_are_row_indices_witness :
  PerRow.checkRows nat busyThenJane 5 1 0%nat [janeRow; emptyRow; janeRow] 0 [] []
  = Some ([0%nat; 2%nat], 3%nat,
          [EQuery janeQuery; EWait 2000;
           EQuery janeQuery; EWait 400;
           EQuery janeQuery; EWait 400])
  /\ StronglySorted lt [0%nat; 2%nat]
  /\ Forall (fun j => j < 3)%nat [0%nat; 2%nat].
Proof.
  assert (Hrun : PerRow.checkRows nat busyThenJane 5 1 0%nat
                   [janeRow; emptyRow; janeRow] 0 [] []
    = Some ([0%nat; 2%nat], 3%nat,
            [EQuery janeQuery; EWait 2000;
             EQuery janeQuery; EWait 400;
             EQuery janeQuery; EWait 400]))
    by (vm_compute; reflexivity).
  split; [exact Hrun |].
  exact (per_row_duplicates_are_row_indices nat busyThenJane 5 1
           [janeRow; emptyRow; janeRow] 0%nat 3%nat [0%nat; 2%nat] _ Hrun).
Defined.

Lemma per_row_failures_report_no_duplicates_witness :
  exists w' tr,
    PerRow.checkRows nat alwaysDown 3 1 0%nat [janeRow; emptyRow] 0 [] []
    = Some ([], w', tr)
    /\ queries tr = 1%nat /\ waits tr = 0%nat.
Proof.
  apply (per_row_failures_report_no_duplicates nat alwaysDown
           [janeRow; emptyRow] 0 0%nat).
  intros w q. exists (mkError "connect ECONNREFUSED"), (S w).
  split; reflexivity.
Defined.

Lemma per_row_retry_is_unbounded_witness :
  PerRow.checkRows nat always429 50 5 0%nat [janeRow] 0 [] [] = None.
Proof.
  apply (per_row_retry_is_unbounded nat always429 [janeRow] 0 janeRow);
    try reflexivity.
  intros w q. exists tooManyRequests, (S w). split; reflexivity.
Defined.

(** ** The three-field matcher, case by case *)

Import MatcherFacts.

Lemma matchesField_agrees (x : string) (caseItem : jsval) (k : string) :
  matchesField x caseItem k = Ok true <-> agrees x caseItem k.
Proof.
  unfold matchesField, agrees. destruct x as [| c r]; simpl.
  { split; [now left | reflexivity]. }
  unfold caseField. split.
  - intros H. right. destruct caseItem; try discriminate; simpl in *;
      try (destruct b; discriminate).
    destruct (objGet props k) as [| | b | m e | negative | s | items | o];
      try discriminate; try (destruct b; discriminate);
      try (simpl in H; destruct (negb (m =? 0)); discriminate).
    simpl in H. destruct (nonEmpty s); [| discriminate].
    exists s. split; [reflexivity |]. inversion H as [Heq].
    now apply String.eqb_eq in Heq.
  - intros [H | (s & Hs & Hl)]; [discriminate |].
    destruct caseItem; try discriminate. simpl in Hs. simpl. rewrite Hs.
    destruct s as [| d s']; [discriminate |].
    cbn [truthy nonEmpty]. rewrite Hl. now rewrite String.eqb_refl.
Qed.

Lemma forEachRow_evaluates (rows : list jsobj) (allCases : list jsval) :
  forall (i0 : nat) (acc duplicates : list nat) (k : nat) (row : jsobj)
         (fname lname email : string),
  forEachRow rows i0 allCases acc = Ok duplicates ->
  rows !! k = Some row ->
  lowerField row "fname_injured" "fname" = Ok fname ->
  lowerField row "lname_injured" "lname" = Ok lname ->
  lowerField row "email_injured" "email" = Ok email ->
  nonEmpty fname || nonEmpty lname || nonEmpty email = true ->
  exists b, someMatch fname lname email allCases = Ok b.
Proof.
  induction rows as [| r rest IH];
    intros i0 acc duplicates k row f l e Hrun Hk Hf Hl He Hne; [discriminate |].
  simpl in Hrun. destruct k as [| k]; simpl in Hk.
  - inversion Hk; subst r. rewrite Hf, Hl, He in Hrun. simpl in Hrun.
    replace (negb (nonEmpty f) && negb (nonEmpty l) && negb (nonEmpty e))
      with false in Hrun
      by (destruct (nonEmpty f), (nonEmpty l), (nonEmpty e); try reflexivity;
          discriminate).
    destruct (someMatch f l e allCases) as [b | err]; [now exists b |].
    discriminate.
  - destruct (lowerField r "fname_injured" "fname") as [f' | err];
      simpl in Hrun; [| discriminate].
    destruct (lowerField r "lname_injured" "lname") as [l' | err];
      simpl in Hrun; [| discriminate].
    destruct (lowerField r "email_injured" "email") as [e' | err];
      simpl in Hrun; [| discriminate].
    destruct (negb (nonEmpty f') && negb (nonEmpty l') && negb (nonEmpty e'));
      [now apply (IH _ _ _ _ _ _ _ _ Hrun Hk) |].
    destruct (someMatch f' l' e' allCases) as [b | err]; simpl in Hrun;
      [| discriminate].
    now apply (IH _ _ _ _ _ _ _ _ Hrun Hk).
Qed.

(** X23: when the three-field matcher answers, it flags the row [i]
    exactly when one of the lower-cased first name, last name and email of
    the row is not empty and some fetched case agrees with all three: an
    empty component agrees with every case, a non-empty one with the cases
    whose field is a text with the same lower case, compared untrimmed. *)
Theorem three_field_matcher_flags (rows : list jsobj) (allCases : list jsval)
    (duplicates : list nat) (i : nat) :
  checkDuplicates rows allCases = Ok duplicates ->
  (In i duplicates <->
   exists row fname lname email caseItem,
     rows !! i = Some row
     /\ lowerField row "fname_injured" "fname" = Ok fname
     /\ lowerField row "lname_injured" "lname" = Ok lname
     /\ lowerField row "email_injured" "email" = Ok email
     /\ nonEmpty fname || nonEmpty lname || nonEmpty email = true
     /\ In caseItem allCases
     /\ agrees fname caseItem "fname_injured"
     /\ agrees lname caseItem "lname_injured"
     /\ agrees email caseItem "email_injured").
Proof.
  intros Hrun. rewrite (checkDuplicates_flags rows allCases duplicates i Hrun).
  split.
  - intros (row & f & l & e & Hk & Hf & Hl & He & Hne & Hm).
    apply someMatch_true in Hm as (c & Hin & Hcf & Hcl & Hce).
    exists row, f, l, e, c. rewrite <- !matchesField_agrees. now repeat split.
  - intros (row & f & l & e & c & Hk & Hf & Hl & He & Hne & Hin & Hcf & Hcl & Hce).
    exists row, f, l, e. repeat split; trivial.
    destruct (forEachRow_evaluates rows allCases 0 [] duplicates i row f l e
                Hrun Hk Hf Hl He Hne) as [[] Hb]; [exact Hb |].
    destruct (someMatch_false f l e allCases Hb c Hin)
      as (mf & ml & me & Hmf & Hml & Hme & Hall).
    apply matchesField_agrees in Hcf, Hcl, Hce.
    rewrite Hcf in Hmf. rewrite Hcl in Hml. rewrite Hce in Hme.
    inversion Hmf; inversion Hml; inversion Hme; subst. discriminate.
Qed.

Lemma three_field_matcher_flags_witness :
  checkDuplicates [emptyRow; janeRow] [janeRecord] = Ok [1%nat]
  /\ exists caseItem,
       In caseItem [janeRecord]
       /\ agrees "jane" caseItem "fname_injured"
       /\ agrees EmptyString caseItem "email_injured".
Proof.
  assert (Hrun : checkDuplicates [emptyRow; janeRow] [janeRecord] = Ok [1%nat])
    by (vm_compute; reflexivity).
  split; [exact Hrun |].
  destruct (proj1 (three_field_matcher_flags [emptyRow; janeRow] [janeRecord]
                     [1%nat] 1 Hrun))
    as (row & f & l & e & c & Hk & Hf & Hl & He & _ & Hin & Hcf & _ & Hce);
    [now left |].
  simpl in Hk. inversion Hk; subst row.
  vm_compute in Hf. inversion Hf; subst f.
  vm_compute in He. inversion He; subst e.
  now exists c.
Defined.

(** ** The bulk fetch against a service that reports totals *)

Section BulkFetchWithTotals.

Import Fetch.

Variable World : Type.
Variable axios_get : World -> nat -> Z -> GetResult * World.

Lemma bulkFetchLoop_ends (T : nat) :
  (forall w page, exists res w',
      axios_get w limit page = (GetOk res, w')
      /\ pageOf res <> []
      /\ exists t, present (total res) = Some t /\ t <= Z.of_nat T) ->
  forall (fuel : nat) (w : World) (allCases : list jsval) (page : Z)
         (tr : list Fetch.event),
  (T - length allCases < fuel)%nat ->
  exists cases w' tr',
    bulkFetchLoop World axios_get fuel w allCases page tr
    = Some (Ok cases, w', tr')
    /\ (requests tr' <= requests tr + Nat.max 1 (T - length allCases))%nat.
Proof.
  intros Hremote.
  induction fuel as [| fuel IH]; intros w allCases page tr Hfuel; [lia |].
  cbn [bulkFetchLoop].
  destruct (Hremote w page) as (res & w' & Hget & Hpage & t & Ht & HtT).
  rewrite Hget. cbv zeta. unfold bulkHasMore. rewrite Ht.
  assert (Hlen : (length allCases < length (allCases ++ pageOf res))%nat).
  { rewrite length_app. destruct (pageOf res); [congruence | simpl; lia]. }
  destruct (Z.ltb_spec (Z.of_nat (length (allCases ++ pageOf res))) t)
    as [Hmore | Hdone].
  - destruct (IH w' (allCases ++ pageOf res)%list (page + 1)
                (tr ++ [EGet page; Fetch.EDelay 200])%list)
      as (cases & w'' & tr' & Hrun & Hreq); [lia |].
    exists cases, w'', tr'. split; [exact Hrun |].
    rewrite requests_app in Hreq.
    cbn [requests List.filter isGet length] in Hreq. lia.
  - eexists _, _, _. split; [reflexivity |].
    rewrite requests_app. cbn [requests List.filter isGet length]. lia.
Qed.

(** X24: against a service whose every answer carries a non-empty page and
    a non-zero total of at most [T], the page loop of the fast duplicate
    check needs no cap: it ends with a list of cases after at most
    [max 1 T] requests. *)
Theorem bulk_fetch_ends_when_totals_are_reported (T : nat) (w : World) :
  (forall w page, exists res w',
      axios_get w limit page = (GetOk res, w')
      /\ pageOf res <> []
      /\ exists t, present (total res) = Some t /\ t <= Z.of_nat T) ->
  exists cases w' tr,
    bulkFetch World axios_get (S T) w = Some (Ok cases, w', tr)
    /\ (requests tr <= Nat.max 1 T)%nat.
Proof.
  intros Hremote. unfold bulkFetch.
  destruct (bulkFetchLoop_ends T Hremote (S T) w [] 1 []) as
    (cases & w' & tr & Hrun & Hreq); [simpl; lia |].
  exists cases, w', tr. split; [exact Hrun |].
  simpl in Hreq. simpl length in Hreq. rewrite Nat.sub_0_r in Hreq. exact Hreq.
Qed.

End BulkFetchWithTotals.

Lemma bulk_fetch_ends_when_totals_are_reported_witness :
  exists cases w' tr,
    Fetch.bulkFetch nat onePerPage 4 0%nat = Some (Ok cases, w', tr)
    /\ (Fetch.requests tr <= 3)%nat.
Proof.
  apply (bulk_fetch_ends_when_totals_are_reported nat onePerPage 3 0%nat).
  intros w page. eexists _, _. split; [reflexivity |].
  split; [discriminate |]. exists 3. split; [reflexivity | lia].
Defined.
